(** * SparkVote: voting window, vote intake, results aggregation and event administration

    A shallow embedding of the backend of SparkVote
    (models/Event.model.js, models/Vote.model.js, routes/votes.js,
    routes/events.js, controllers/votingController.js and the handlers
    of controllers/eventController.js that work on a stored event)
    together with the properties its specification states about it and
    further properties that the code has.

    Modelling conventions.
    - A JavaScript [Number] is an exact rational ([Q]); rounding of IEEE
      doubles is outside the model, and so are [NaN] and the infinities,
      except for the [Invalid Date] of the voting window, which is an
      absent time stamp, and the quotient [0 / 0] of [getAverageScore],
      which is an absent number.  Counters that the code only ever increments
      (vote counts, ranks) are [nat].
    - A plain JavaScript object used as a dictionary, and a [Map], are
      insertion-ordered association lists with unique keys ([JS.obj]):
      writing an existing key replaces the value in place, writing a new
      key appends it.  Keys that collide with members of
      [Object.prototype] are outside the model, except in the
      [criteriaScores] of a project, whose keys the aggregator tests
      before it writes them.
    - A [Set] of strings is a [gset string]; only its size is observed.
    - An ObjectId is the string [toString()] gives for it; the ids of a
      request are well-formed ObjectIds in their canonical spelling.
    - A Mongoose collection is the list of its documents, in insertion
      order; request handlers take the collections and the environment
      (clock, date parser, UUID generator) as arguments and return the
      response together with the new collection.  The handlers of event
      administration take, in a [Runtime], what Mongoose and the
      JavaScript library do for them: the validation of a document that
      is saved, the vote code drawn for the request, [trim] and
      [toUpperCase]. *)

From Stdlib Require Import QArith Lqa Sorted Permutation.
From stdpp Require Import base option list strings gmap.

Set Default Proof Using "Type".

(** ** JavaScript runtime *)

Module JS.

Definition number := Q.

(** [a < b] and [a > b] on numbers. *)
Definition lt (a b : number) : bool := negb (Qle_bool b a).
Definition gt (a b : number) : bool := lt b a.

(** Insertion-ordered dictionaries. *)
Definition obj (V : Type) := list (string * V).

Section Obj.
Context {V : Type}.

(** [o[k]] *)
Fixpoint get (k : string) (o : obj V) : option V :=
  match o with
  | [] => None
  | (k', v) :: o' => if decide (k' = k) then Some v else get k o'
  end.

(** [o[k] = v] *)
Fixpoint set (k : string) (v : V) (o : obj V) : obj V :=
  match o with
  | [] => [(k, v)]
  | (k', v') :: o' =>
      if decide (k' = k) then (k', v) :: o' else (k', v') :: set k v o'
  end.

(** In-place mutation of the object stored at [o[k]]. *)
Fixpoint alter (f : V → V) (k : string) (o : obj V) : obj V :=
  match o with
  | [] => []
  | (k', v) :: o' =>
      if decide (k' = k) then (k', f v) :: o' else (k', v) :: alter f k o'
  end.

(** [Object.keys(o)], [Object.values(o)] *)
Definition keys (o : obj V) : list string := o.*1.
Definition values (o : obj V) : list V := o.*2.

(** [Object.keys(o).forEach(k => { mutate o[k] })]: every entry is
    visited once, in key order. *)
Definition forEach (f : string → V → V) (o : obj V) : obj V :=
  map (λ kv, (kv.1, f kv.1 kv.2)) o.

(** [new Map(entries)] and [Object.fromEntries]. *)
Definition of_entries (l : list (string * V)) : obj V :=
  fold_left (λ o kv, set kv.1 kv.2 o) l [].
End Obj.

(** [Array.prototype.sort(cmp)].  The language requires the sort to be
  stable; for a comparator that is a consistent ordering the outcome
  is then determined, and it is the one of this insertion sort: [x]
  is placed in front of the first element [y] with [cmp x y <= 0]. *)
Section Sort.
Context {A : Type} (cmp : A → A → number).

Fixpoint insert (x : A) (l : list A) : list A :=
  match l with
  | [] => [x]
  | y :: l' => if Qle_bool (cmp x y) 0 then x :: l else y :: insert x l'
  end.

Definition sort (l : list A) : list A := foldr insert [] l.
End Sort.

(** [a] may stand in front of [b] in a list sorted by descending [key]. *)
Definition desc {A : Type} (key : A → number) (a b : A) : Prop :=
  (key b <= key a)%Q.

(** [new Set(l).size] *)
Definition Set_size (l : list string) : nat :=
  size (list_to_set l : gset string).

End JS.

(** [a == b] on numbers is decidable. *)
#[global] Instance Qeq_decision : RelDecision Qeq := Qeq_dec.

(** ** Data model (models/Event.model.js, models/Vote.model.js) *)

Module Group.
Record t := mk
  { _id : string; name : string; weight : Q; password : option string }.
End Group.

Module Project.
Record t := mk
  { _id : string; name : string; description : string;
      teamMembers : list string }.
End Project.

Module Criterion.
Record t := mk { name : string; maxScore : Q }.
End Criterion.

Module Event.
Record t := mk
  { _id : string; name : string; description : string;
      date : string; startTime : string; closeTime : string;
      owner : string; voteCode : string;
      isActive : bool;
      (** manual override: [None] is [null] (automatic) *)
      isVotingOpen : option bool;
      groups : list Group.t;
      projects : list Project.t;
      criteria : list Criterion.t }.
End Event.

Module Vote.
Record t := mk
  { event : string; project : string; group : string;
      scores : JS.obj Q;
      voterSessionId : string;
      voterName : option string }.
End Vote.

(** ** Voting window: [EventSchema.virtual('votingStatus')] *)

Inductive VotingStatus := upcoming | open | closed.

(** A [Date]: milliseconds since the epoch, [None] for [Invalid Date].
    Every relational comparison with an invalid date is false. *)
Definition Date := option Z.

Definition Date_lt (a b : Date) : bool :=
  match a, b with Some x, Some y => (x <? y)%Z | _, _ => false end.
Definition Date_le (a b : Date) : bool :=
  match a, b with Some x, Some y => (x <=? y)%Z | _, _ => false end.
Definition Date_ge (a b : Date) : bool := Date_le b a.
Definition Date_gt (a b : Date) : bool := Date_lt b a.

(** The environment of a request: the clock ([new Date()]), the date
    parser ([new Date(string)]) and the identifier [uuidv4()] returns. *)
Record Env := mkEnv
  { now : Z; parseDate : string → Date; uuidv4 : string }.

Definition windowStart (env : Env) (ev : Event.t) : Date :=
  parseDate env (Event.date ev +:+ "T" +:+ Event.startTime ev).
Definition windowEnd (env : Env) (ev : Event.t) : Date :=
  parseDate env (Event.date ev +:+ "T" +:+ Event.closeTime ev).

Definition votingStatus (env : Env) (ev : Event.t) : VotingStatus :=
  let now := Some (now env) in
  let start := windowStart env ev in
  let end_ := windowEnd env ev in
  match Event.isVotingOpen ev with
  | Some true => open
  | Some false => closed
  | None =>
      if Date_lt now start then upcoming
      else if Date_ge now start && Date_le now end_ then open
      else closed
  end.


(** ** Results aggregator: [calculateResults] *)

Local Open Scope Q_scope.

Module CriterionScore.
Record t := mk { total : Q; count : nat; average : option Q }.
End CriterionScore.

(** An entry [{ total, count }] of [projectGroupScores]. *)
Module GroupScore.
Record t := mk { total : Q; count : nat }.
End GroupScore.

Module ProjectResult.
Record t := mk
  { id : string; name : string; description : string;
    teamMembers : list string;
    totalScore : Q; averageScore : Q; voteCount : nat;
    criteriaScores : JS.obj CriterionScore.t;
    groupAverages : JS.obj Q;
    finalScore : Q;
    rank : nat }.
End ProjectResult.

(** The record has no [rank] until the final [map]; it is [0] before. *)
Module GroupResult.
Record t := mk
  { id : string; name : string; weight : Q;
    totalScore : Q; voteCount : nat; voterCount : nat;
    rank : nat }.
End GroupResult.

Record Results := mkResults
  { projects : list ProjectResult.t; groups : list GroupResult.t }.

(** The count of a tally as a number. *)
Definition num (n : nat) : Q := inject_Z (Z.of_nat n).

Definition newProjectResult (project : Project.t) : ProjectResult.t :=
  {| ProjectResult.id := Project._id project;
     ProjectResult.name := Project.name project;
     ProjectResult.description := Project.description project;
     ProjectResult.teamMembers := Project.teamMembers project;
     ProjectResult.totalScore := 0;
     ProjectResult.averageScore := 0;
     ProjectResult.voteCount := 0%nat;
     ProjectResult.criteriaScores := [];
     ProjectResult.groupAverages := [];
     ProjectResult.finalScore := 0;
     ProjectResult.rank := 0%nat |}.

(** [groupWeights && groupWeights[id] !== undefined ? groupWeights[id]
    : group.weight] *)
Definition effectiveWeight (groupWeights : option (JS.obj Q))
    (group : Group.t) : Q :=
  match groupWeights with
  | Some gw => default (Group.weight group) (JS.get (Group._id group) gw)
  | None => Group.weight group
  end.

Definition newGroupResult (groupWeights : option (JS.obj Q))
    (group : Group.t) : GroupResult.t :=
  {| GroupResult.id := Group._id group;
     GroupResult.name := Group.name group;
     GroupResult.weight := effectiveWeight groupWeights group;
     GroupResult.totalScore := 0;
     GroupResult.voteCount := 0%nat;
     GroupResult.voterCount := 0%nat;
     GroupResult.rank := 0%nat |}.

(** The dictionaries the function fills while it runs. *)
Record Tally := mkTally
  { projectResults : JS.obj ProjectResult.t;
    groupResults : JS.obj GroupResult.t;
    groupIdToName : JS.obj string;
    groupVoters : JS.obj (gset string);
    projectGroupScores : JS.obj (JS.obj GroupScore.t) }.

Definition initProjectResults (ev : Event.t) : JS.obj ProjectResult.t :=
  fold_left (λ o project, JS.set (Project._id project) (newProjectResult project) o)
    (Event.projects ev) [].

Definition initGroupResults (groupWeights : option (JS.obj Q)) (ev : Event.t)
    : JS.obj GroupResult.t :=
  fold_left (λ o group, JS.set (Group._id group) (newGroupResult groupWeights group) o)
    (Event.groups ev) [].

Definition initGroupIdToName (ev : Event.t) : JS.obj string :=
  fold_left (λ o group, JS.set (Group._id group) (Group.name group) o)
    (Event.groups ev) [].

Definition initGroupVoters (ev : Event.t) : JS.obj (gset string) :=
  fold_left (λ o group, JS.set (Group._id group) (∅ : gset string) o)
    (Event.groups ev) [].

Definition initProjectGroupScores (pids gids : list string)
    : JS.obj (JS.obj GroupScore.t) :=
  fold_left
    (λ o pid,
       JS.set pid
         (fold_left (λ o' gid, JS.set gid (GroupScore.mk 0 0%nat) o') gids []) o)
    pids [].

Definition initTally (ev : Event.t) (groupWeights : option (JS.obj Q)) : Tally :=
  let pr := initProjectResults ev in
  let gr := initGroupResults groupWeights ev in
  {| projectResults := pr;
     groupResults := gr;
     groupIdToName := initGroupIdToName ev;
     groupVoters := initGroupVoters ev;
     projectGroupScores := initProjectGroupScores (JS.keys pr) (JS.keys gr) |}.

(** The names of the members of [Object.prototype].  Read on a plain
    object that has no key of that name of its own, each of them gives a
    function or an object, which counts as true in a condition. *)
Definition prototypeMembers : list string :=
  ["constructor"; "__defineGetter__"; "__defineSetter__"; "hasOwnProperty";
   "__lookupGetter__"; "__lookupSetter__"; "isPrototypeOf";
   "propertyIsEnumerable"; "toString"; "valueOf"; "__proto__";
   "toLocaleString"].

(** One round of the [vote.scores.forEach] callback on the project's
    [criteriaScores].  The entry is made when
    [!criteriaScores[criterion]] holds, which it does not for the name of
    a member of [Object.prototype]: the two updates then go to that
    member, and the dictionary stays as it is. *)
Definition addCriterionScore (cs : JS.obj CriterionScore.t)
    (criterion : string) (score : Q) : JS.obj CriterionScore.t :=
  let cs' :=
    match JS.get criterion cs with
    | Some _ => cs
    | None =>
        if bool_decide (criterion ∈ prototypeMembers) then cs
        else JS.set criterion (CriterionScore.mk 0 0%nat None) cs
    end in
  JS.alter
    (λ c, CriterionScore.mk (CriterionScore.total c + score)
            (S (CriterionScore.count c)) (CriterionScore.average c))
    criterion cs'.

(** [projectTotal] after the [vote.scores.forEach]. *)
Definition projectTotal (scores : JS.obj Q) : Q :=
  fold_left (λ acc kv, acc + kv.2) scores 0.

Definition addProjectVote (scores : JS.obj Q) (r : ProjectResult.t)
    : ProjectResult.t :=
  {| ProjectResult.id := ProjectResult.id r;
     ProjectResult.name := ProjectResult.name r;
     ProjectResult.description := ProjectResult.description r;
     ProjectResult.teamMembers := ProjectResult.teamMembers r;
     ProjectResult.totalScore := ProjectResult.totalScore r + projectTotal scores;
     ProjectResult.averageScore := ProjectResult.averageScore r;
     ProjectResult.voteCount := S (ProjectResult.voteCount r);
     ProjectResult.criteriaScores :=
       fold_left (λ cs kv, addCriterionScore cs kv.1 kv.2) scores
         (ProjectResult.criteriaScores r);
     ProjectResult.groupAverages := ProjectResult.groupAverages r;
     ProjectResult.finalScore := ProjectResult.finalScore r;
     ProjectResult.rank := ProjectResult.rank r |}.

Definition addGroupVote (total : Q) (g : GroupResult.t) : GroupResult.t :=
  {| GroupResult.id := GroupResult.id g;
     GroupResult.name := GroupResult.name g;
     GroupResult.weight := GroupResult.weight g;
     GroupResult.totalScore := GroupResult.totalScore g + total;
     GroupResult.voteCount := S (GroupResult.voteCount g);
     GroupResult.voterCount := GroupResult.voterCount g;
     GroupResult.rank := GroupResult.rank g |}.

Definition addGroupScore (total : Q) (s : GroupScore.t) : GroupScore.t :=
  GroupScore.mk (GroupScore.total s + total) (S (GroupScore.count s)).

(** The body of [votes.forEach(vote => ...)]. *)
Definition countVote (t : Tally) (vote : Vote.t) : Tally :=
  let projectId := Vote.project vote in
  let groupId := Vote.group vote in
  let voterSessionId := Vote.voterSessionId vote in
  match JS.get projectId (projectResults t), JS.get groupId (groupResults t) with
  | Some _, Some _ =>
      let total := projectTotal (Vote.scores vote) in
      {| projectResults :=
           JS.alter (addProjectVote (Vote.scores vote)) projectId
             (projectResults t);
         groupResults :=
           JS.alter (addGroupVote total) groupId (groupResults t);
         groupIdToName := groupIdToName t;
         groupVoters :=
           JS.alter (λ s, {[voterSessionId]} ∪ s) groupId (groupVoters t);
         projectGroupScores :=
           JS.alter (JS.alter (addGroupScore total) groupId) projectId
             (projectGroupScores t) |}
  | _, _ => t
  end.

(** [groupResults[groupId].voterCount = groupVoters[groupId].size] *)
Definition setVoterCount (voters : JS.obj (gset string)) (groupId : string)
    (g : GroupResult.t) : GroupResult.t :=
  {| GroupResult.id := GroupResult.id g;
     GroupResult.name := GroupResult.name g;
     GroupResult.weight := GroupResult.weight g;
     GroupResult.totalScore := GroupResult.totalScore g;
     GroupResult.voteCount := GroupResult.voteCount g;
     GroupResult.voterCount := size (default ∅ (JS.get groupId voters));
     GroupResult.rank := GroupResult.rank g |}.

(** [criterionData.average = criterionData.total / criterionData.count] *)
Definition setCriterionAverage (c : CriterionScore.t) : CriterionScore.t :=
  CriterionScore.mk (CriterionScore.total c) (CriterionScore.count c)
    (Some (CriterionScore.total c / num (CriterionScore.count c))).

(** [projectGroupScores[projectId][groupId]]; the entry exists for every
    pair of keys of [projectResults] and [groupResults]
    ([groupScore_defined] below). *)
Definition groupScore (pgs : JS.obj (JS.obj GroupScore.t))
    (projectId groupId : string) : GroupScore.t :=
  default (GroupScore.mk 0 0%nat) (JS.get projectId pgs ≫= JS.get groupId).

(** [groupScore.count > 0 ? groupScore.total / groupScore.count : 0] *)
Definition avgOf (s : GroupScore.t) : Q :=
  if (0 <? GroupScore.count s)%nat
  then GroupScore.total s / num (GroupScore.count s) else 0.

(** The first pass over [Object.keys(projectResults)]. *)
Definition setAverages (t : Tally) (projectId : string)
    (project : ProjectResult.t) : ProjectResult.t :=
  let voted := (0 <? ProjectResult.voteCount project)%nat in
  {| ProjectResult.id := ProjectResult.id project;
     ProjectResult.name := ProjectResult.name project;
     ProjectResult.description := ProjectResult.description project;
     ProjectResult.teamMembers := ProjectResult.teamMembers project;
     ProjectResult.totalScore := ProjectResult.totalScore project;
     ProjectResult.averageScore :=
       if voted
       then ProjectResult.totalScore project
            / num (ProjectResult.voteCount project)
       else ProjectResult.averageScore project;
     ProjectResult.voteCount := ProjectResult.voteCount project;
     ProjectResult.criteriaScores :=
       if voted
       then JS.forEach (λ _, setCriterionAverage)
              (ProjectResult.criteriaScores project)
       else ProjectResult.criteriaScores project;
     ProjectResult.groupAverages :=
       fold_left
         (λ ga groupId,
            let avg := avgOf (groupScore (projectGroupScores t) projectId groupId) in
            let groupName := default "undefined" (JS.get groupId (groupIdToName t)) in
            JS.set groupName avg ga)
         (JS.keys (groupResults t)) (ProjectResult.groupAverages project);
     ProjectResult.finalScore := ProjectResult.finalScore project;
     ProjectResult.rank := ProjectResult.rank project |}.

(** [project.groupAverages[groupName]] *)
Definition groupAverageOf (project : ProjectResult.t) (groupName : string) : Q :=
  default 0 (JS.get groupName (ProjectResult.groupAverages project)).

(** The two accumulators of the second pass. *)
Definition weightedSum (project : ProjectResult.t)
    (groups : list GroupResult.t) : Q :=
  fold_left
    (λ acc group,
       acc + groupAverageOf project (GroupResult.name group)
             * GroupResult.weight group)
    groups 0.

Definition totalWeight (groups : list GroupResult.t) : Q :=
  fold_left (λ acc group, acc + GroupResult.weight group) groups 0.

Definition setFinalScore (groups : list GroupResult.t)
    (project : ProjectResult.t) : ProjectResult.t :=
  {| ProjectResult.id := ProjectResult.id project;
     ProjectResult.name := ProjectResult.name project;
     ProjectResult.description := ProjectResult.description project;
     ProjectResult.teamMembers := ProjectResult.teamMembers project;
     ProjectResult.totalScore := ProjectResult.totalScore project;
     ProjectResult.averageScore := ProjectResult.averageScore project;
     ProjectResult.voteCount := ProjectResult.voteCount project;
     ProjectResult.criteriaScores := ProjectResult.criteriaScores project;
     ProjectResult.groupAverages := ProjectResult.groupAverages project;
     ProjectResult.finalScore :=
       if JS.gt (totalWeight groups) 0
       then weightedSum project groups / totalWeight groups else 0;
     ProjectResult.rank := ProjectResult.rank project |}.

(** [{ ...project, rank: index + 1 }] *)
Definition rankProject (index : nat) (project : ProjectResult.t)
    : ProjectResult.t :=
  {| ProjectResult.id := ProjectResult.id project;
     ProjectResult.name := ProjectResult.name project;
     ProjectResult.description := ProjectResult.description project;
     ProjectResult.teamMembers := ProjectResult.teamMembers project;
     ProjectResult.totalScore := ProjectResult.totalScore project;
     ProjectResult.averageScore := ProjectResult.averageScore project;
     ProjectResult.voteCount := ProjectResult.voteCount project;
     ProjectResult.criteriaScores := ProjectResult.criteriaScores project;
     ProjectResult.groupAverages := ProjectResult.groupAverages project;
     ProjectResult.finalScore := ProjectResult.finalScore project;
     ProjectResult.rank := index + 1 |}.

Definition rankGroup (index : nat) (g : GroupResult.t) : GroupResult.t :=
  {| GroupResult.id := GroupResult.id g;
     GroupResult.name := GroupResult.name g;
     GroupResult.weight := GroupResult.weight g;
     GroupResult.totalScore := GroupResult.totalScore g;
     GroupResult.voteCount := GroupResult.voteCount g;
     GroupResult.voterCount := GroupResult.voterCount g;
     GroupResult.rank := index + 1 |}.

(** The state of the dictionaries when the votes have been counted. *)
Definition tally (ev : Event.t) (votes : list Vote.t)
    (groupWeights : option (JS.obj Q)) : Tally :=
  fold_left countVote votes (initTally ev groupWeights).

(** [Object.values(groupResults)] and [Object.values(projectResults)]
    right before they are sorted. *)
Definition groupTotals (ev : Event.t) (votes : list Vote.t)
    (groupWeights : option (JS.obj Q)) : list GroupResult.t :=
  let t := tally ev votes groupWeights in
  JS.values (JS.forEach (setVoterCount (groupVoters t)) (groupResults t)).

Definition projectTotals (ev : Event.t) (votes : list Vote.t)
    (groupWeights : option (JS.obj Q)) : list ProjectResult.t :=
  let t := tally ev votes groupWeights in
  JS.values
    (JS.forEach (λ _, setFinalScore (groupTotals ev votes groupWeights))
       (JS.forEach (setAverages t) (projectResults t))).

Definition byFinalScore (a b : ProjectResult.t) : Q :=
  ProjectResult.finalScore b - ProjectResult.finalScore a.

Definition byTotalScore (a b : GroupResult.t) : Q :=
  GroupResult.totalScore b - GroupResult.totalScore a.

Definition calculateResults (ev : Event.t) (votes : list Vote.t)
    (groupWeights : option (JS.obj Q)) : Results :=
  let sortedProjects :=
    imap rankProject (JS.sort byFinalScore (projectTotals ev votes groupWeights)) in
  let sortedGroups :=
    imap rankGroup (JS.sort byTotalScore (groupTotals ev votes groupWeights)) in
  {| projects := sortedProjects; groups := sortedGroups |}.

(** ** Vote intake and result endpoints (votingController.js) *)

(** One element of [req.body.votes].  [scores] is [None] for a JSON value
    that express-validator's [isObject()] rejects ([undefined], [null],
    a primitive, an array); otherwise it holds [Object.entries(scores)].
    Score values are numbers. *)
Module VoteData.
Record t := mk
  { projectId : string; groupId : string; scores : option (list (string * Q)) }.
End VoteData.

(** [POST /api/vote/:eventId] *)
Module VoteRequest.
Record t := mk
  { eventId : string;
    votes : list VoteData.t;
    voterName : option string;
    groupPassword : option string }.
End VoteRequest.

(** The [message] of a response body, one constructor per string or
    template literal of the controller, with the interpolated values. *)
Inductive Message :=
  | ValidationErrors            (* 'Validation errors' *)
  | EventNotFoundOrInactive     (* 'Event not found or inactive' *)
  | EventNotFound               (* 'Event not found' *)
  | NotAuthorized               (* 'Not authorized to view results' *)
  | VotingNotOpen               (* 'Voting is not open for this event.' *)
  | VotesRequired               (* 'Votes array is required and cannot be empty' *)
  | ProjectNotFound (projectId : string)  (* `Project with ID ${projectId} not found` *)
  | GroupNotFound (groupId : string)      (* `Group with ID ${groupId} not found` *)
  | InvalidGroupPassword        (* 'Invalid group password' *)
  | ScoresRequired              (* 'Scores object is required' *)
  | CriterionNotFound (criterionName : string)
      (* `Criterion '${criterionName}' not found` *)
  | ScoreOutOfRange (criterionName : string) (maxScore : Q)
      (* `Score for '${criterionName}' must be between 1 and ${criterion.maxScore}` *)
  | AlreadySubmitted (projectName : string)
      (* `Vote already submitted for project ${project.name}` *)
  | InvalidWeights
      (* 'Invalid weights parameter. Must be a valid JSON object.' *)
  | VotesSubmitted              (* 'Votes submitted successfully' *)
  | ServerError.                (* 'Server error' *)

(** The [event] summary of a results response; the public endpoint
    leaves the two times out. *)
Record EventSummary := mkEventSummary
  { es_id : string; es_name : string; es_description : string;
    es_date : string; es_times : option (string * string) }.

Inductive Data :=
  | SubmittedData (sessionId : string) (votesCount : nat)
  | ResultsData (event : EventSummary) (results : Results)
      (totalVotes totalVoters : nat).

(** [res.status(status).json({ success, message, data })]; [res.json]
    alone answers with status 200 and no message. *)
Record Response := mkResponse
  { status : nat; success : bool; message : option Message;
    data : option Data }.

Definition failure (status : nat) (m : Message) : Response :=
  mkResponse status false (Some m) None.

(** The answer to a batch that went through:
    [{ sessionId: voterSessionId, votesCount: savedVotes.length }]. *)
Definition accepted (voterSessionId : string) (votesCount : nat) : Response :=
  mkResponse 201 true (Some VotesSubmitted)
    (Some (SubmittedData voterSessionId votesCount)).

(** *** Collections *)

(** [Event.findById(id)] *)
Definition Event_findById (events : list Event.t) (id : string)
    : option Event.t :=
  snd <$> list_find (λ e, Event._id e = id) events.

(** [Vote.find({ event })] *)
Definition Vote_find (store : list Vote.t) (event : string) : list Vote.t :=
  filter (λ v, Vote.event v = event) store.

(** [Vote.findOne({ event, voterSessionId, project })] *)
Definition Vote_findOne (store : list Vote.t)
    (event voterSessionId project : string) : option Vote.t :=
  snd <$> list_find
    (λ v, Vote.event v = event ∧ Vote.voterSessionId v = voterSessionId
          ∧ Vote.project v = project) store.

(** [isLength({ max })] and [maxlength] on an optional string. *)
Definition maxlength (max : nat) (s : option string) : bool :=
  match s with
  | Some s => (String.length s <=? max)%nat
  | None => true
  end.

(** The validator of [VoteSchema.scores]: every value within 1..100. *)
Definition scoresValidator (scores : JS.obj Q) : bool :=
  forallb (λ kv, negb (JS.lt kv.2 1 || JS.gt kv.2 100)) scores.

(** [vote.save()]: [None] when the document is refused and the call
    throws, by a schema validator ([scores], [voterName.maxlength]) or by
    the unique index on (event, voterSessionId, project).  The [trim] of
    [voterName] is not modelled, nor are the keys a Mongoose map refuses
    (a dot in the key, a leading dollar sign). *)
Definition Vote_save (store : list Vote.t) (vote : Vote.t)
    : option (list Vote.t) :=
  if scoresValidator (Vote.scores vote)
     && maxlength 100 (Vote.voterName vote)
     && negb (bool_decide (is_Some (Vote_findOne store (Vote.event vote)
                (Vote.voterSessionId vote) (Vote.project vote))))
  then Some (store ++ [vote])
  else None.

(** *** [voteValidation] (routes/votes.js) followed by
    [validationResult(req).isEmpty()] *)
Definition voteValidation (req : VoteRequest.t) : bool :=
  bool_decide (1 ≤ length (VoteRequest.votes req))%nat
  && forallb
       (λ voteData,
          bool_decide (VoteData.projectId voteData ≠ EmptyString)
          && bool_decide (VoteData.groupId voteData ≠ EmptyString)
          && bool_decide (is_Some (VoteData.scores voteData)))
       (VoteRequest.votes req)
  && maxlength 100 (VoteRequest.voterName req).

(** *** [submitVote] *)

(** The gate on the voting window and the manual override. *)
Definition votingOpen (env : Env) (ev : Event.t) : bool :=
  let now := Some (now env) in
  match Event.isVotingOpen ev with
  | Some true => true
  | Some false => false
  | None => Date_ge now (windowStart env ev) && Date_le now (windowEnd env ev)
  end.

(** [group.password] as a condition: set and not the empty string. *)
Definition passwordRequired (group : Group.t) : bool :=
  match Group.password group with
  | Some pw => bool_decide (pw ≠ EmptyString)
  | None => false
  end.

(** [event.criteria.find(c => c.name === criterionName)] *)
Definition Criteria_find (criteria : list Criterion.t) (criterionName : string)
    : option Criterion.t :=
  snd <$> list_find (λ c, Criterion.name c = criterionName) criteria.

(** [event.projects.id(projectId)] and [event.groups.id(groupId)] *)
Definition Projects_id (projects : list Project.t) (projectId : string)
    : option Project.t :=
  snd <$> list_find (λ p, Project._id p = projectId) projects.

Definition Groups_id (groups : list Group.t) (groupId : string)
    : option Group.t :=
  snd <$> list_find (λ g, Group._id g = groupId) groups.

(** The loop over [Object.entries(scores)]: the first offending entry
    ends the request. *)
Fixpoint validateScores (criteria : list Criterion.t)
    (entries : list (string * Q)) : option Message :=
  match entries with
  | [] => None
  | (criterionName, score) :: rest =>
      match Criteria_find criteria criterionName with
      | None => Some (CriterionNotFound criterionName)
      | Some criterion =>
          if JS.lt score 1 || JS.gt score (Criterion.maxScore criterion)
          then Some (ScoreOutOfRange criterionName (Criterion.maxScore criterion))
          else validateScores criteria rest
      end
  end.

(** One round of [for (const voteData of votes)] up to [new Vote(...)]:
    the response that ends the request, or the document to save. *)
Definition checkVote (event : Event.t) (store : list Vote.t)
    (req : VoteRequest.t) (voterSessionId : string) (voteData : VoteData.t)
    : Response + Vote.t :=
  let projectId := VoteData.projectId voteData in
  let groupId := VoteData.groupId voteData in
  match Projects_id (Event.projects event) projectId with
  | None => inl (failure 400 (ProjectNotFound projectId))
  | Some project =>
  match Groups_id (Event.groups event) groupId with
  | None => inl (failure 400 (GroupNotFound groupId))
  | Some group =>
  if passwordRequired group
     && bool_decide (Group.password group ≠ VoteRequest.groupPassword req)
  then inl (failure 403 InvalidGroupPassword)
  else
  match VoteData.scores voteData with
  | None => inl (failure 400 ScoresRequired)
  | Some scores =>
  match validateScores (Event.criteria event) scores with
  | Some m => inl (failure 400 m)
  | None =>
  match Vote_findOne store (VoteRequest.eventId req) voterSessionId projectId with
  | Some _ => inl (failure 400 (AlreadySubmitted (Project.name project)))
  | None =>
      inr {| Vote.event := VoteRequest.eventId req;
             Vote.project := projectId;
             Vote.group := groupId;
             Vote.scores := JS.of_entries scores;
             Vote.voterSessionId := voterSessionId;
             Vote.voterName := VoteRequest.voterName req |}
  end end end end end.

Fixpoint processVotes (event : Event.t) (req : VoteRequest.t)
    (voterSessionId : string) (store : list Vote.t)
    (savedVotes : list Vote.t) (votes : list VoteData.t)
    : Response * list Vote.t :=
  match votes with
  | [] =>
      (accepted voterSessionId (length savedVotes), store)
  | voteData :: rest =>
      match checkVote event store req voterSessionId voteData with
      | inl response => (response, store)
      | inr vote =>
          match Vote_save store vote with
          | None => (failure 500 ServerError, store)
          | Some store' =>
              processVotes event req voterSessionId store'
                (savedVotes ++ [vote]) rest
          end
      end
  end.

Definition submitVote (env : Env) (events : list Event.t)
    (store : list Vote.t) (req : VoteRequest.t) : Response * list Vote.t :=
  if negb (voteValidation req) then (failure 400 ValidationErrors, store)
  else
    match Event_findById events (VoteRequest.eventId req) with
    | None => (failure 404 EventNotFoundOrInactive, store)
    | Some event =>
        if negb (Event.isActive event)
        then (failure 404 EventNotFoundOrInactive, store)
        else if negb (votingOpen env event)
        then (failure 403 VotingNotOpen, store)
        else
          let voterSessionId := uuidv4 env in
          if bool_decide (length (VoteRequest.votes req) = 0)%nat
          then (failure 400 VotesRequired, store)
          else processVotes event req voterSessionId store []
                 (VoteRequest.votes req)
    end.

(** *** [getResults] and [getPublicResults] *)

Definition totalVoters (votes : list Vote.t) : nat :=
  JS.Set_size (Vote.voterSessionId <$> votes).

Definition privateSummary (event : Event.t) : EventSummary :=
  mkEventSummary (Event._id event) (Event.name event)
    (Event.description event) (Event.date event)
    (Some (Event.startTime event, Event.closeTime event)).

Definition publicSummary (event : Event.t) : EventSummary :=
  mkEventSummary (Event._id event) (Event.name event)
    (Event.description event) (Event.date event) None.

(** [GET /api/results/:eventId]; [user] is [req.user.id]. *)
Definition getResults (events : list Event.t) (store : list Vote.t)
    (eventId user : string) : Response :=
  match Event_findById events eventId with
  | None => failure 404 EventNotFound
  | Some event =>
      if bool_decide (Event.owner event ≠ user)
      then failure 403 NotAuthorized
      else
        let votes := Vote_find store eventId in
        let results := calculateResults event votes None in
        mkResponse 200 true None
          (Some (ResultsData (privateSummary event) results
                   (length votes) (totalVoters votes)))
  end.

(** [req.query.weights]: absent (or empty), not parseable, or parsed.
    A parsed value that is no object has no own property and behaves as
    the empty mapping; the weights of a parsed object are numbers. *)
Inductive WeightsParam :=
  | NoWeights
  | BadWeights
  | Weights (groupWeights : JS.obj Q).

(** [let groupWeights = null; if (req.query.weights) groupWeights =
    JSON.parse(req.query.weights)] *)
Definition groupWeightsOf (weights : WeightsParam) : option (JS.obj Q) :=
  match weights with
  | Weights gw => Some gw
  | _ => None
  end.

(** [GET /api/results/public/:eventId] *)
Definition getPublicResults (events : list Event.t) (store : list Vote.t)
    (eventId : string) (weights : WeightsParam) : Response :=
  match Event_findById events eventId with
  | None => failure 404 EventNotFoundOrInactive
  | Some event =>
      if negb (Event.isActive event)
      then failure 404 EventNotFoundOrInactive
      else
        let votes := Vote_find store eventId in
        match weights with
        | BadWeights => failure 400 InvalidWeights
        | _ =>
            let results := calculateResults event votes (groupWeightsOf weights) in
            mkResponse 200 true None
              (Some (ResultsData (publicSummary event) results
                       (length votes) (totalVoters votes)))
        end
  end.

(** ** Notions used to state the properties *)

(** The fields of a group record that counting never touches. *)
Definition groupStatic (kv : string * GroupResult.t)
    : string * string * string * Q :=
  (kv.1, GroupResult.id kv.2, GroupResult.name kv.2, GroupResult.weight kv.2).

Definition projectStatic (kv : string * ProjectResult.t)
    : string * string * JS.obj Q :=
  (kv.1, ProjectResult.id kv.2, ProjectResult.groupAverages kv.2).

Definition groupInfo (g : GroupResult.t) : string * string * Q :=
  (GroupResult.id g, GroupResult.name g, GroupResult.weight g).

(** [projectGroupScores[projectId][groupId]], if it is there. *)
Definition pgsGet (pgs : JS.obj (JS.obj GroupScore.t)) (projectId groupId : string)
    : option GroupScore.t :=
  JS.get projectId pgs ≫= JS.get groupId.

(** The votes a group has cast on a project, the sum of their totals,
    and their average ([0] without votes). *)
Definition votesOf (projectId groupId : string) (votes : list Vote.t)
    : list Vote.t :=
  filter (λ v, Vote.project v = projectId ∧ Vote.group v = groupId) votes.

Definition sumTotals (votes : list Vote.t) : Q :=
  fold_left (λ acc v, acc + projectTotal (Vote.scores v)) votes 0.

Definition groupAverage (votes : list Vote.t) (projectId groupId : string) : Q :=
  let cast := votesOf projectId groupId votes in
  if (0 <? length cast)%nat then sumTotals cast / num (length cast) else 0.

(** The group listed last among those of a given name, and the average
    that is left under that name. *)
Definition lastNamed (groups : list Group.t) (name : string) : option Group.t :=
  last (filter (λ g, Group.name g = name) groups).

Definition survivingAverage (ev : Event.t) (votes : list Vote.t)
    (projectId name : string) : Q :=
  from_option (λ g, groupAverage votes projectId (Group._id g)) 0
    (lastNamed (Event.groups ev) name).

(** A project record and a group record that no vote has reached. *)
Definition unscoredProject (p : ProjectResult.t) : Prop :=
  ProjectResult.totalScore p = 0 ∧ ProjectResult.averageScore p = 0
  ∧ ProjectResult.voteCount p = 0%nat ∧ ProjectResult.criteriaScores p = []
  ∧ Forall (λ kv, kv.2 = 0) (ProjectResult.groupAverages p)
  ∧ ProjectResult.finalScore p == 0.

Definition unscoredGroup (g : GroupResult.t) : Prop :=
  GroupResult.totalScore g = 0 ∧ GroupResult.voteCount g = 0%nat
  ∧ GroupResult.voterCount g = 0%nat.

(** *** Concrete events, votes and requests *)

Module Scenario.

(** The scenario of the specification: groups "Judges" (weight 70) and
    "Public" (weight 30); the votes on "Alpha" total 10 from the judges
    and 4 from the public. *)
Definition event : Event.t :=
  {| Event._id := "e1"; Event.name := "Demo day"; Event.description := EmptyString;
     Event.date := "2024-12-01"; Event.startTime := "09:00";
     Event.closeTime := "18:00"; Event.owner := "u1"; Event.voteCode := "ABC123";
     Event.isActive := true; Event.isVotingOpen := Some true;
     Event.groups :=
       [Group.mk "g1" "Judges" 70 None; Group.mk "g2" "Public" 30 (Some "secret")];
     Event.projects :=
       [Project.mk "p1" "Alpha" EmptyString []; Project.mk "p2" "Beta" EmptyString []];
     Event.criteria :=
       [Criterion.mk "Creativity" 10; Criterion.mk "Execution" 10] |}.

Definition vote (project group session : string) (creativity execution : Q)
    : Vote.t :=
  {| Vote.event := "e1"; Vote.project := project; Vote.group := group;
     Vote.scores := [("Creativity", creativity); ("Execution", execution)];
     Vote.voterSessionId := session; Vote.voterName := None |}.

Definition votes : list Vote.t :=
  [vote "p1" "g1" "s1" 6 4; vote "p1" "g2" "s2" 1 3].

Definition alpha : ProjectResult.t :=
  {| ProjectResult.id := "p1"; ProjectResult.name := "Alpha";
     ProjectResult.description := EmptyString; ProjectResult.teamMembers := [];
     ProjectResult.totalScore := 14; ProjectResult.averageScore := 14 # 2;
     ProjectResult.voteCount := 2;
     ProjectResult.criteriaScores :=
       [("Creativity", CriterionScore.mk 7 2 (Some (7 # 2)));
        ("Execution", CriterionScore.mk 7 2 (Some (7 # 2)))];
     ProjectResult.groupAverages := [("Judges", 10); ("Public", 4)];
     ProjectResult.finalScore := 820 # 100;
     ProjectResult.rank := 1 |}.

(** Two groups that share the name "Jury". *)
Definition juries : Event.t :=
  {| Event._id := "e2"; Event.name := "Finals"; Event.description := EmptyString;
     Event.date := "2024-12-02"; Event.startTime := "09:00";
     Event.closeTime := "18:00"; Event.owner := "u1"; Event.voteCode := "XYZ789";
     Event.isActive := true; Event.isVotingOpen := None;
     Event.groups := [Group.mk "g1" "Jury" 70 None; Group.mk "g2" "Jury" 30 None];
     Event.projects := [Project.mk "p1" "Alpha" EmptyString []];
     Event.criteria := [Criterion.mk "Creativity" 10] |}.

Definition juryVotes : list Vote.t :=
  [Vote.mk "e2" "p1" "g1" [("Creativity", 10)] "s1" None;
   Vote.mk "e2" "p1" "g2" [("Creativity", 4)] "s2" None].

(** [new Date(string)] on a server that runs on UTC, for the times of
    the events above; the other strings of the examples ("9am" for a
    time) are no dates. *)
Definition parse (s : string) : Date :=
  if decide (s = "2024-12-01T09:00") then Some 1733043600000%Z
  else if decide (s = "2024-12-01T18:00") then Some 1733076000000%Z
  else if decide (s = "2024-12-02T09:00") then Some 1733130000000%Z
  else if decide (s = "2024-12-02T18:00") then Some 1733162400000%Z
  else None.

(** Noon of the events' day. *)
Definition env : Env :=
  {| now := 1733054400000; parseDate := parse;
     uuidv4 := "9b2f6c1e-7a4d-4c55-8e21-3f0a5d6b7c88" |}.

(** The same day with the two times exchanged, and no manual override. *)
Definition lateStart : Event.t :=
  {| Event._id := "e3"; Event.name := "Evening"; Event.description := EmptyString;
     Event.date := "2024-12-01"; Event.startTime := "18:00";
     Event.closeTime := "09:00"; Event.owner := "u1"; Event.voteCode := "LATE01";
     Event.isActive := true; Event.isVotingOpen := None;
     Event.groups := []; Event.projects := []; Event.criteria := [] |}.

Definition ballot (projectId groupId : string) (scores : list (string * Q))
    : VoteData.t :=
  VoteData.mk projectId groupId (Some scores).

(** One project scored twice in one batch. *)
Definition twiceAlpha : VoteRequest.t :=
  VoteRequest.mk "e1"
    [ballot "p1" "g1" [("Creativity", 5)]; ballot "p1" "g1" [("Creativity", 7)]]
    None None.

(** Two projects, one entry each. *)
Definition oneEach : VoteRequest.t :=
  VoteRequest.mk "e1"
    [ballot "p1" "g1" [("Creativity", 5)]; ballot "p2" "g1" [("Creativity", 7)]]
    None None.

(** An entry whose [scores] is [{}]. *)
Definition emptyBallot : VoteRequest.t :=
  VoteRequest.mk "e1" [ballot "p1" "g1" []] None None.

(** A good entry, then a score of 11 against a maximum of 10, then
    another entry. *)
Definition eleven : VoteRequest.t :=
  VoteRequest.mk "e1"
    [ballot "p1" "g1" [("Creativity", 5)];
     ballot "p2" "g1" [("Creativity", 11)];
     ballot "p2" "g1" [("Execution", 3)]]
    None None.

End Scenario.

(** *** Vote intake *)

(** The document [submitVote] builds for an entry. *)
Definition voteOf (req : VoteRequest.t) (voterSessionId : string)
    (voteData : VoteData.t) : Vote.t :=
  {| Vote.event := VoteRequest.eventId req;
     Vote.project := VoteData.projectId voteData;
     Vote.group := VoteData.groupId voteData;
     Vote.scores := JS.of_entries (default [] (VoteData.scores voteData));
     Vote.voterSessionId := voterSessionId;
     Vote.voterName := VoteRequest.voterName req |}.

(** The request passes the route's validation and the gates on the
    event, and the loop accepts and saves every entry of [pre], which
    leaves the collection as [store']: the entry that follows [pre] is
    the one the loop turns to next. *)
Definition reaches (env : Env) (events : list Event.t) (store : list Vote.t)
    (req : VoteRequest.t) (event : Event.t) (pre : list VoteData.t)
    (store' : list Vote.t) : Prop :=
  voteValidation req = true
  ∧ Event_findById events (VoteRequest.eventId req) = Some event
  ∧ Event.isActive event = true
  ∧ votingOpen env event = true
  ∧ processVotes event req (uuidv4 env) store [] pre
    = (accepted (uuidv4 env) (length pre), store').

(** The entry names a project and a group of the event and carries the
    group's password if the group has one. *)
Definition resolves (event : Event.t) (req : VoteRequest.t)
    (voteData : VoteData.t) : Prop :=
  is_Some (Projects_id (Event.projects event) (VoteData.projectId voteData))
  ∧ ∃ group,
      Groups_id (Event.groups event) (VoteData.groupId voteData) = Some group
      ∧ passwordRequired group
        && bool_decide (Group.password group ≠ VoteRequest.groupPassword req)
        = false.

(** A score entry that [submitVote] objects to: its key names no
    criterion of the event, or its value is outside 1..maxScore of the
    criterion. *)
Definition unknownCriterion (criteria : list Criterion.t) (kv : string * Q) : Prop :=
  Criteria_find criteria kv.1 = None.

Definition outOfRange (criteria : list Criterion.t) (kv : string * Q) : Prop :=
  ∃ criterion, Criteria_find criteria kv.1 = Some criterion
    ∧ (kv.2 < 1 ∨ Criterion.maxScore criterion < kv.2).

Definition offending (criteria : list Criterion.t) (kv : string * Q) : Prop :=
  unknownCriterion criteria kv ∨ outOfRange criteria kv.

(** The message for an offending entry. *)
Definition verdict (criteria : list Criterion.t) (kv : string * Q) : Message :=
  match Criteria_find criteria kv.1 with
  | None => CriterionNotFound kv.1
  | Some criterion => ScoreOutOfRange kv.1 (Criterion.maxScore criterion)
  end.

(** *** Statements of the specification, as they are worded *)

(** "If isVotingOpen is explicitly true, open; if explicitly false,
    closed; otherwise upcoming when now < start, open when
    start <= now <= end, closed when now > end." *)
Definition votingStatus_as_stated (env : Env) (ev : Event.t) : Prop :=
  let now := Some (now env) in
  let start := windowStart env ev in
  let end_ := windowEnd env ev in
  (Event.isVotingOpen ev = Some true → votingStatus env ev = open)
  ∧ (Event.isVotingOpen ev = Some false → votingStatus env ev = closed)
  ∧ (Event.isVotingOpen ev = None →
     (Date_lt now start = true → votingStatus env ev = upcoming)
     ∧ (Date_le start now = true ∧ Date_le now end_ = true →
        votingStatus env ev = open)
     ∧ (Date_gt now end_ = true → votingStatus env ev = closed)).

(** The two sums of the last pass of the aggregator, taken over the
    groups of the event in their order with their effective weights: the
    sum of the weights, and the sum of the weights times the averages
    that are left under the groups' names. *)
Definition weightTotal (ev : Event.t) (groupWeights : option (JS.obj Q)) : Q :=
  fold_left (λ acc g, acc + effectiveWeight groupWeights g) (Event.groups ev) 0.

Definition weightedAverages (ev : Event.t) (votes : list Vote.t)
    (groupWeights : option (JS.obj Q)) (projectId : string) : Q :=
  fold_left
    (λ acc g, acc + survivingAverage ev votes projectId (Group.name g)
                    * effectiveWeight groupWeights g)
    (Event.groups ev) 0.

(** The same sum with every group's own average. *)
Definition weightedOwnAverages (ev : Event.t) (votes : list Vote.t)
    (groupWeights : option (JS.obj Q)) (projectId : string) : Q :=
  fold_left
    (λ acc g, acc + groupAverage votes projectId (Group._id g)
                    * effectiveWeight groupWeights g)
    (Event.groups ev) 0.

(** "A project's finalScore equals the weighted mean of its per-group
    average scores, sum over groups of (groupAverage[g] * weight[g])
    divided by the sum of the weights, and is exactly 0 when the total
    group weight is 0." *)
Definition finalScore_as_stated (ev : Event.t) (votes : list Vote.t)
    (groupWeights : option (JS.obj Q)) : Prop :=
  ∀ project,
    project ∈ projects (calculateResults ev votes groupWeights) →
    (weightTotal ev groupWeights == 0 → ProjectResult.finalScore project == 0)
    ∧ (¬ weightTotal ev groupWeights == 0 →
       ProjectResult.finalScore project
       == weightedOwnAverages ev votes groupWeights (ProjectResult.id project)
          / weightTotal ev groupWeights).

(** "For every event with zero votes, fetching results succeeds without
    error and returns empty-ranked lists and totalVoters = 0." *)
Definition noVotes_as_stated (events : list Event.t) (store : list Vote.t)
    (eventId : string) : Prop :=
  Vote_find store eventId = [] →
  ∃ summary totalVotes,
    getPublicResults events store eventId NoWeights
    = mkResponse 200 true None
        (Some (ResultsData summary {| projects := []; groups := [] |}
                 totalVotes 0)).

(** "The 'Vote already submitted' rejection branch is unreachable." *)
Definition duplicateCheck_as_stated (env : Env) (events : list Event.t)
    (store : list Vote.t) (req : VoteRequest.t) : Prop :=
  ∀ projectName,
    message (submitVote env events store req).1
    ≠ Some (AlreadySubmitted projectName).

(** "An entry whose scores mapping is empty is rejected with a
    validation error and no Vote is persisted for it." *)
Definition emptyScores_as_stated (env : Env) (events : list Event.t)
    (store : list Vote.t) (req : VoteRequest.t) : Prop :=
  ∀ voteData,
    voteData ∈ VoteRequest.votes req → VoteData.scores voteData = Some [] →
    status (submitVote env events store req).1 = 400%nat
    ∧ voteOf req (uuidv4 env) voteData ∉ (submitVote env events store req).2.



(** ** Further notions about the aggregator *)

(** The votes [calculateResults] counts: those whose project and group
    are both among the event's. *)
Definition counted (ev : Event.t) (vote : Vote.t) : Prop :=
  Vote.project vote ∈ Project._id <$> Event.projects ev
  ∧ Vote.group vote ∈ Group._id <$> Event.groups ev.

Definition countedVotes (ev : Event.t) (votes : list Vote.t) : list Vote.t :=
  filter (counted ev) votes.

(** The counted votes on one project, and of one group. *)
Definition votesOnProject (ev : Event.t) (projectId : string)
    (votes : list Vote.t) : list Vote.t :=
  filter (λ v, Vote.project v = projectId) (countedVotes ev votes).

Definition votesOfGroup (ev : Event.t) (groupId : string)
    (votes : list Vote.t) : list Vote.t :=
  filter (λ v, Vote.group v = groupId) (countedVotes ev votes).

(** What a project record copies from the event's project. *)
Definition projectCard (kv : string * ProjectResult.t) :=
  (kv.1, ProjectResult.name kv.2, ProjectResult.description kv.2,
   ProjectResult.teamMembers kv.2).

(** The element listed last under an id. *)
Definition lastListed {A} (_id : A → string) (l : list A) (id : string) : option A :=
  last (filter (λ x, _id x = id) l).

(** A group record without its weight, and a project record without its
    final score and its rank. *)
Definition groupTally (g : GroupResult.t) :=
  (GroupResult.id g, GroupResult.name g, GroupResult.totalScore g,
   GroupResult.voteCount g, GroupResult.voterCount g, GroupResult.rank g).

Definition projectTally (p : ProjectResult.t) :=
  (ProjectResult.id p, ProjectResult.name p, ProjectResult.description p,
   ProjectResult.teamMembers p, ProjectResult.totalScore p,
   ProjectResult.averageScore p, ProjectResult.voteCount p,
   ProjectResult.criteriaScores p, ProjectResult.groupAverages p).

(** A group record of the dictionary without its weight, with its key. *)
Definition unweighted (kv : string * GroupResult.t) :=
  (kv.1, GroupResult.id kv.2, GroupResult.name kv.2, GroupResult.totalScore kv.2,
   GroupResult.voteCount kv.2, GroupResult.voterCount kv.2, GroupResult.rank kv.2).

(** The scores the votes of [cast] give to the criterion [criterion], in
    the order in which the aggregator meets them. *)
Definition scoresFor (criterion : string) (cast : list Vote.t) : list Q :=
  (filter (λ kv, kv.1 = criterion) (cast ≫= λ v, Vote.scores v : list (string * Q))).*2.

(** [l.reduce((a, b) => a + b, 0)] *)
Definition sumOf (l : list Q) : Q := fold_left Qplus l 0.

(** ** Further notions about vote intake *)

(** The fields of the unique index of the votes collection:
    [{ event: 1, voterSessionId: 1, project: 1 }]. *)
Definition voteKey (v : Vote.t) : string * string * string :=
  (Vote.event v, Vote.voterSessionId v, Vote.project v).

(** The gates in front of the loop of [submitVote] let the request
    through, for the event [event]. *)
Definition letThrough (env : Env) (events : list Event.t) (req : VoteRequest.t)
    (event : Event.t) : Prop :=
  voteValidation req = true
  ∧ Event_findById events (VoteRequest.eventId req) = Some event
  ∧ Event.isActive event = true
  ∧ votingOpen env event = true.

(** The scores of an entry are an object whose pairs all name a criterion
    of the event and lie within its range. *)
Definition wellScored (event : Event.t) (voteData : VoteData.t) : Prop :=
  ∃ entries, VoteData.scores voteData = Some entries
    ∧ Forall (λ kv, ¬ offending (Event.criteria event) kv) entries.

(** [criteria.maxScore] is within the [max: 100] of the event schema. *)
Definition maxScoresBounded (event : Event.t) : Prop :=
  Forall (λ c, Criterion.maxScore c <= 100) (Event.criteria event).

(** Every [criteria.maxScore] is a whole number that is not negative, as
    the routes of event administration have it ([isInt]). *)
Definition maxScoresWhole (event : Event.t) : Prop :=
  Forall (λ c, ∃ n : nat, Criterion.maxScore c = num n) (Event.criteria event).

(** The highest total a vote can reach: the sum of the [maxScore]s of the
    event's criteria. *)
Definition maxTotal (event : Event.t) : Q :=
  fold_left (λ acc c, acc + Criterion.maxScore c) (Event.criteria event) 0.

(** ** Methods of the Vote model (models/Vote.model.js) *)

Definition getTotalScore (vote : Vote.t) : Q :=
  fold_left (λ total kv, total + kv.2) (Vote.scores vote) 0.

(** [total / this.scores.size]; [None] stands for [NaN], the quotient
    [0 / 0] of a vote without scores. *)
Definition getAverageScore (vote : Vote.t) : option Q :=
  let total := getTotalScore vote in
  let size := length (Vote.scores vote) in
  if decide (size = 0%nat) then None else Some (total / num size).

(** ** Event administration (controllers/eventController.js) *)

(** What the handlers take from the platform: the validation Mongoose
    runs when a document is saved, the code
    [Math.random().toString(36).substring(2, 8).toUpperCase()] drawn for
    the request, [String.prototype.trim] and
    [String.prototype.toUpperCase]. *)
Record Runtime := mkRuntime
  { validate : Event.t → bool;
    randomCode : string;
    trim : string → string;
    toUpperCase : string → string }.

(** A body value for a numeric field.  [IntValue z] spells the integer
    [z] in the form express-validator's [isInt] accepts (the number
    itself or its decimal spelling).  [IntArray zs] is an array whose
    elements spell the integers [zs].  [NotAnInt] is any other value,
    an array with an element that spells no integer among them; arrays
    within arrays are left out. *)
Inductive IntField := IntValue (z : Z) | IntArray (zs : list Z) | NotAnInt.

(** [isInt({ min, max })]; express-validator runs the check on every
    element of an array, so that the empty array passes. *)
Definition isInt (min max : Z) (v : IntField) : bool :=
  match v with
  | IntValue z => (min <=? z)%Z && (z <=? max)%Z
  | IntArray zs => forallb (λ z, (min <=? z)%Z && (z <=? max)%Z) zs
  | NotAnInt => false
  end.

(** The number a value becomes in a comparison; [None] stands for [NaN].
    An array goes through its spelling: the empty string of the empty
    array is 0, an array of one element is that element, and elements
    joined with commas spell no number. *)
Definition toNumber (v : IntField) : option Z :=
  match v with
  | IntValue z => Some z
  | IntArray [] => Some 0%Z
  | IntArray [z] => Some z
  | IntArray _ => None
  | NotAnInt => None
  end.

(** [isLength({ min, max })] *)
Definition isLength (min max : nat) (s : string) : bool :=
  (min <=? String.length s)%nat && (String.length s <=? max)%nat.

(** The body of a response: [message] is absent from some, and [data]
    (or [isValid]) is one of the following. *)
Module Reply.
Inductive Data :=
  | NoData
  | EventDoc (event : Event.t)
  | CriterionDoc (criterion : Criterion.t)
  | GroupWeight (id name : string) (weight : Q)
  | IsValid (isValid : bool).
Record t := mk
  { status : nat; success : bool; message : option string; data : Data }.
End Reply.

Definition refuse (status : nat) (message : string) : Reply.t :=
  Reply.mk status false (Some message) Reply.NoData.

(** [res.json({ success: true, message, data })] *)
Definition answer (message : string) (data : Reply.Data) : Reply.t :=
  Reply.mk 200 true (Some message) data.

(** *** Assignments to the fields of an event document *)

Definition withIsVotingOpen (isVotingOpen : option bool) (e : Event.t) : Event.t :=
  {| Event._id := Event._id e; Event.name := Event.name e;
     Event.description := Event.description e; Event.date := Event.date e;
     Event.startTime := Event.startTime e; Event.closeTime := Event.closeTime e;
     Event.owner := Event.owner e; Event.voteCode := Event.voteCode e;
     Event.isActive := Event.isActive e; Event.isVotingOpen := isVotingOpen;
     Event.groups := Event.groups e; Event.projects := Event.projects e;
     Event.criteria := Event.criteria e |}.

Definition withVoteCode (voteCode : string) (e : Event.t) : Event.t :=
  {| Event._id := Event._id e; Event.name := Event.name e;
     Event.description := Event.description e; Event.date := Event.date e;
     Event.startTime := Event.startTime e; Event.closeTime := Event.closeTime e;
     Event.owner := Event.owner e; Event.voteCode := voteCode;
     Event.isActive := Event.isActive e; Event.isVotingOpen := Event.isVotingOpen e;
     Event.groups := Event.groups e; Event.projects := Event.projects e;
     Event.criteria := Event.criteria e |}.

Definition withGroups (groups : list Group.t) (e : Event.t) : Event.t :=
  {| Event._id := Event._id e; Event.name := Event.name e;
     Event.description := Event.description e; Event.date := Event.date e;
     Event.startTime := Event.startTime e; Event.closeTime := Event.closeTime e;
     Event.owner := Event.owner e; Event.voteCode := Event.voteCode e;
     Event.isActive := Event.isActive e; Event.isVotingOpen := Event.isVotingOpen e;
     Event.groups := groups; Event.projects := Event.projects e;
     Event.criteria := Event.criteria e |}.

Definition withProjects (projects : list Project.t) (e : Event.t) : Event.t :=
  {| Event._id := Event._id e; Event.name := Event.name e;
     Event.description := Event.description e; Event.date := Event.date e;
     Event.startTime := Event.startTime e; Event.closeTime := Event.closeTime e;
     Event.owner := Event.owner e; Event.voteCode := Event.voteCode e;
     Event.isActive := Event.isActive e; Event.isVotingOpen := Event.isVotingOpen e;
     Event.groups := Event.groups e; Event.projects := projects;
     Event.criteria := Event.criteria e |}.

Definition withCriteria (criteria : list Criterion.t) (e : Event.t) : Event.t :=
  {| Event._id := Event._id e; Event.name := Event.name e;
     Event.description := Event.description e; Event.date := Event.date e;
     Event.startTime := Event.startTime e; Event.closeTime := Event.closeTime e;
     Event.owner := Event.owner e; Event.voteCode := Event.voteCode e;
     Event.isActive := Event.isActive e; Event.isVotingOpen := Event.isVotingOpen e;
     Event.groups := Event.groups e; Event.projects := Event.projects e;
     Event.criteria := criteria |}.

(** *** [event.save()] (models/Event.model.js) *)

(** [EventSchema.pre('save')]: a missing or empty [voteCode] is drawn. *)
Definition generateVoteCode (rt : Runtime) (e : Event.t) : Event.t :=
  if decide (Event.voteCode e = EmptyString)
  then withVoteCode (randomCode rt) e else e.

Definition defaultCriteria : list Criterion.t :=
  [Criterion.mk "Creativity" 10; Criterion.mk "Execution" 10;
   Criterion.mk "Impact" 10].

(** [EventSchema.pre('save')]: an event without criteria gets the three
    default ones. *)
Definition setDefaultCriteria (e : Event.t) : Event.t :=
  if decide (Event.criteria e = []) then withCriteria defaultCriteria e else e.

(** The stored document of the same [_id] gives way to [event]. *)
Fixpoint Event_replace (events : list Event.t) (event : Event.t) : list Event.t :=
  match events with
  | [] => []
  | e :: rest =>
      if decide (Event._id e = Event._id event) then event :: rest
      else e :: Event_replace rest event
  end.

(** [await event.save()] on a document that [findById] returned: the
    validation, which comes before the [pre('save')] hooks, then the two
    hooks, then the write, which the unique index on [voteCode] refuses
    when the code has just been drawn and another document holds it.
    [None] when the call throws; otherwise the document as it is after
    the hooks, and the collection. *)
Definition Event_save (rt : Runtime) (events : list Event.t) (event : Event.t)
    : option (Event.t * list Event.t) :=
  if negb (validate rt event) then None
  else
    let saved := setDefaultCriteria (generateVoteCode rt event) in
    if bool_decide (Event.voteCode event = EmptyString)
       && bool_decide (Exists (λ other, Event._id other ≠ Event._id event
                                        ∧ Event.voteCode other = randomCode rt)
                         events)
    then None
    else Some (saved, Event_replace events saved).

(** *** The handlers *)

(** The head that the handlers of the owner share: [Event.findById],
    then the comparison of [event.owner] with [req.user.id]. *)
Definition ownedEvent (events : list Event.t) (id user : string)
    (notAuthorized : string) : Reply.t + Event.t :=
  match Event_findById events id with
  | None => inl (refuse 404 "Event not found")
  | Some event =>
      if bool_decide (Event.owner event ≠ user)
      then inl (refuse 403 notAuthorized)
      else inr event
  end.

(** [POST /api/events/:id/open-voting] *)
Definition openVoting (rt : Runtime) (events : list Event.t) (id user : string)
    : Reply.t * list Event.t :=
  match ownedEvent events id user "Not authorized" with
  | inl reply => (reply, events)
  | inr event =>
      match Event_save rt events (withIsVotingOpen (Some true) event) with
      | None => (refuse 500 "Server error", events)
      | Some (saved, events') =>
          (answer "Voting manually opened" (Reply.EventDoc saved), events')
      end
  end.

(** [POST /api/events/:id/close-voting] *)
Definition closeVoting (rt : Runtime) (events : list Event.t) (id user : string)
    : Reply.t * list Event.t :=
  match ownedEvent events id user "Not authorized" with
  | inl reply => (reply, events)
  | inr event =>
      match Event_save rt events (withIsVotingOpen (Some false) event) with
      | None => (refuse 500 "Server error", events)
      | Some (saved, events') =>
          (answer "Voting manually closed" (Reply.EventDoc saved), events')
      end
  end.

(** [criteriaValidation] (routes/events.js) *)
Definition criteriaValidation (name : string) (maxScore : IntField) : bool :=
  isLength 1 100 name && isInt 1 100 maxScore.

(** [POST /api/events/:id/criteria]; the name is stored trimmed, as the
    schema has it.  Mongoose casts no array to the number of the schema:
    with such a [maxScore] the handler ends in its [catch]. *)
Definition addCriteria (rt : Runtime) (events : list Event.t) (id user : string)
    (name : string) (maxScore : IntField) : Reply.t * list Event.t :=
  if negb (criteriaValidation name maxScore)
  then (refuse 400 "Validation errors", events)
  else
    match ownedEvent events id user "Not authorized to modify this event" with
    | inl reply => (reply, events)
    | inr event =>
        if match toNumber maxScore with
           | Some n => (n <? 1)%Z || (100 <? n)%Z
           | None => false
           end
        then (refuse 400 "Max score must be between 1 and 100", events)
        else
          match maxScore with
          | IntValue z =>
              let criterion := Criterion.mk (trim rt name) (inject_Z z) in
              let pushed := withCriteria (Event.criteria event ++ [criterion]) event in
              match Event_save rt events pushed with
              | None => (refuse 500 "Server error", events)
              | Some (saved, events') =>
                  (answer "Criteria added successfully"
                     (from_option Reply.CriterionDoc Reply.NoData
                        (last (Event.criteria saved))),
                   events')
              end
          | IntArray _ | NotAnInt => (refuse 500 "Server error", events)
          end
    end.

(** [DELETE /api/events/:id/criteria/:index]; [index] is
    [parseInt(req.params.index)], [None] for [NaN]. *)
Definition removeCriteria (rt : Runtime) (events : list Event.t) (id user : string)
    (index : option Z) : Reply.t * list Event.t :=
  match ownedEvent events id user "Not authorized to modify this event" with
  | inl reply => (reply, events)
  | inr event =>
      match index with
      | None => (refuse 400 "Invalid criteria index", events)
      | Some index =>
          if (index <? 0)%Z || (Z.of_nat (length (Event.criteria event)) <=? index)%Z
          then (refuse 400 "Invalid criteria index", events)
          else
            let removedCriteria := Event.criteria event !! Z.to_nat index in
            let spliced :=
              withCriteria (delete (Z.to_nat index) (Event.criteria event)) event in
            match Event_save rt events spliced with
            | None => (refuse 500 "Server error", events)
            | Some (_, events') =>
                (answer "Criteria removed successfully"
                   (from_option Reply.CriterionDoc Reply.NoData removedCriteria),
                 events')
            end
      end
  end.

(** [Event.findOne({ voteCode, isActive: true })] *)
Definition Event_findActiveByCode (events : list Event.t) (voteCode : string)
    : option Event.t :=
  snd <$> list_find (λ e, Event.voteCode e = voteCode ∧ Event.isActive e = true)
            events.

(** [POST /api/events/vote/:voteCode/validate-password]; a missing
    [groupId] or [password] is the empty string. *)
Definition validateGroupPassword (rt : Runtime) (events : list Event.t)
    (voteCode groupId password : string) : Reply.t :=
  if bool_decide (groupId = EmptyString) || bool_decide (password = EmptyString)
  then refuse 400 "Group ID and password are required"
  else
    match Event_findActiveByCode events (toUpperCase rt voteCode) with
    | None => refuse 404 "Event not found or inactive"
    | Some event =>
        match Groups_id (Event.groups event) groupId with
        | None => refuse 404 "Group not found"
        | Some group =>
            if negb (passwordRequired group)
            then refuse 400 "This group does not require a password"
            else
              let isValid := bool_decide (Group.password group = Some password) in
              Reply.mk 200 true None (Reply.IsValid isValid)
        end
    end.

(** [Vote.deleteMany({ event, group })] *)
Definition Vote_deleteMany (store : list Vote.t) (event group : string)
    : list Vote.t :=
  filter (λ v, ¬ (Vote.event v = event ∧ Vote.group v = group)) store.

(** [DELETE /api/events/:id/groups/:groupId]; [event.groups.pull(id)]
    takes out the subdocuments of that id. *)
Definition removeGroup (rt : Runtime) (events : list Event.t) (store : list Vote.t)
    (id user groupId : string) : Reply.t * list Event.t * list Vote.t :=
  match ownedEvent events id user "Not authorized to modify this event" with
  | inl reply => (reply, events, store)
  | inr event =>
      let pulled :=
        withGroups (filter (λ g, Group._id g ≠ groupId) (Event.groups event)) event in
      match Event_save rt events pulled with
      | None => (refuse 500 "Server error", events, store)
      | Some (_, events') =>
          (Reply.mk 200 true (Some "Group removed successfully") Reply.NoData,
           events', Vote_deleteMany store (Event._id event) groupId)
      end
  end.

(** [DELETE /api/events/:id/projects/:projectId] *)
Definition removeProject (rt : Runtime) (events : list Event.t)
    (id user projectId : string) : Reply.t * list Event.t :=
  match ownedEvent events id user "Not authorized to modify this event" with
  | inl reply => (reply, events)
  | inr event =>
      let pulled :=
        withProjects (filter (λ p, Project._id p ≠ projectId) (Event.projects event))
          event in
      match Event_save rt events pulled with
      | None => (refuse 500 "Server error", events)
      | Some (_, events') =>
          (Reply.mk 200 true (Some "Project removed successfully") Reply.NoData,
           events')
      end
  end.

(** [group.weight = weight] on [event.groups.id(groupId)]. *)
Fixpoint Groups_setWeight (groups : list Group.t) (groupId : string) (weight : Q)
    : list Group.t :=
  match groups with
  | [] => []
  | g :: rest =>
      if decide (Group._id g = groupId)
      then Group.mk (Group._id g) (Group.name g) weight (Group.password g) :: rest
      else g :: Groups_setWeight rest groupId weight
  end.

(** [PUT /api/events/:id/groups/:groupId/weight], behind
    [body('weight').isInt({ min: 0, max: 100 })].  Mongoose casts no
    array to the number of the schema: with such a [weight] the handler
    ends in its [catch]. *)
Definition updateGroupWeight (rt : Runtime) (events : list Event.t)
    (id user groupId : string) (weight : IntField) : Reply.t * list Event.t :=
  if negb (isInt 0 100 weight) then (refuse 400 "Validation errors", events)
  else
    match ownedEvent events id user "Not authorized to modify this event" with
    | inl reply => (reply, events)
    | inr event =>
        match Groups_id (Event.groups event) groupId with
        | None => (refuse 404 "Group not found", events)
        | Some group =>
            match weight with
            | IntValue z =>
                let updated :=
                  withGroups
                    (Groups_setWeight (Event.groups event) groupId (inject_Z z))
                    event in
                match Event_save rt events updated with
                | None => (refuse 500 "Server error", events)
                | Some (_, events') =>
                    (answer "Group weight updated successfully"
                       (Reply.GroupWeight (Group._id group) (Group.name group)
                          (inject_Z z)),
                     events')
                end
            | IntArray _ | NotAnInt => (refuse 500 "Server error", events)
            end
        end
    end.

(** *** A runtime and an event for the examples *)

Module Admin.

(** A runtime that accepts every document and leaves strings as they
    are, which is what [trim] and [toUpperCase] do to the strings of the
    examples. *)
Definition rt : Runtime :=
  {| validate := λ _, true; randomCode := "K3X9QZ"; trim := id; toUpperCase := id |}.

(** An event with a single criterion. *)
Definition solo : Event.t :=
  withCriteria [Criterion.mk "Design" 20] Scenario.event.

(** An event whose start time, "9am", makes [new Date] give
    [Invalid Date], and which has no manual override. *)
Definition nineAm : Event.t :=
  {| Event._id := "e4"; Event.name := "Breakfast"; Event.description := EmptyString;
     Event.date := "2024-12-01"; Event.startTime := "9am";
     Event.closeTime := "18:00"; Event.owner := "u1"; Event.voteCode := "NINEAM";
     Event.isActive := true; Event.isVotingOpen := None;
     Event.groups := []; Event.projects := []; Event.criteria := [] |}.

End Admin.

(** Two events that vote intake cannot tell apart: they agree in all it
    reads but the criteria, and these answer every lookup by name alike. *)
Definition sameForIntake (e e' : Event.t) : Prop :=
  Event.isActive e' = Event.isActive e
  ∧ Event.isVotingOpen e' = Event.isVotingOpen e
  ∧ Event.date e' = Event.date e
  ∧ Event.startTime e' = Event.startTime e
  ∧ Event.closeTime e' = Event.closeTime e
  ∧ Event.projects e' = Event.projects e
  ∧ Event.groups e' = Event.groups e
  ∧ ∀ name, Criteria_find (Event.criteria e') name
            = Criteria_find (Event.criteria e) name.

(** * Properties *)

(** ** Dictionaries *)

Section ObjFacts.
Context {V : Type}.
Implicit Types (o : JS.obj V) (k : string) (v : V).

Lemma get_None o k : JS.get k o = None ↔ k ∉ JS.keys o.
Proof.
  unfold JS.keys. induction o as [|[k' v'] o IH]; csimpl.
  - split; [intros _; apply not_elem_of_nil | done].
  - rewrite not_elem_of_cons. destruct (decide (k' = k)) as [->|Hne].
    + split; [done | intros [? _]; done].
    + rewrite IH. split; [intros ?; split; [congruence | done] | intros [_ ?]; done].
Qed.

Lemma get_Some_elem o k v : JS.get k o = Some v → (k, v) ∈ o.
Proof.
  induction o as [|[k' v'] o IH]; simpl; [done|].
  destruct (decide (k' = k)) as [->|Hne].
  - intros [= ->]. apply list_elem_of_here.
  - intros H. apply list_elem_of_further, IH, H.
Qed.

Lemma get_is_Some o k : is_Some (JS.get k o) ↔ k ∈ JS.keys o.
Proof.
  rewrite <- not_eq_None_Some, get_None.
  split; [apply dec_stable | intros ? ?; done].
Qed.

Lemma keys_alter f k o : JS.keys (JS.alter f k o) = JS.keys o.
Proof.
  unfold JS.keys. induction o as [|[k' v'] o IH]; csimpl; [done|].
  destruct (decide (k' = k)); csimpl; [done | by rewrite IH].
Qed.

Lemma get_alter f k k' o :
  JS.get k' (JS.alter f k o)
  = if decide (k = k') then f <$> JS.get k' o else JS.get k' o.
Proof.
  induction o as [|[k0 v0] o IH]; simpl; [by destruct (decide (k = k'))|].
  destruct (decide (k0 = k)) as [->|Hne]; simpl.
  - destruct (decide (k = k')); [done|]. done.
  - destruct (decide (k0 = k')) as [->|Hne'].
    + destruct (decide (k = k')); [congruence | done].
    + apply IH.
Qed.

Lemma keys_set k v o :
  JS.keys (JS.set k v o)
  = if decide (k ∈ JS.keys o) then JS.keys o else JS.keys o ++ [k].
Proof.
  unfold JS.keys. induction o as [|[k' v'] o IH]; csimpl.
  - destruct (decide (k ∈ [])) as [H|_]; [by apply elem_of_nil in H | done].
  - destruct (decide (k' = k)) as [->|Hne]; csimpl.
    + rewrite decide_True by apply list_elem_of_here. done.
    + rewrite IH. destruct (decide (k ∈ o.*1)) as [Hin|Hnin].
      * rewrite decide_True by (by apply list_elem_of_further). done.
      * rewrite decide_False; [done|].
        rewrite elem_of_cons. intros [?|?]; congruence.
Qed.

Lemma get_set k v k' o :
  JS.get k' (JS.set k v o) = if decide (k = k') then Some v else JS.get k' o.
Proof.
  induction o as [|[k0 v0] o IH]; simpl.
  - destruct (decide (k = k')); done.
  - destruct (decide (k0 = k)) as [->|Hne]; simpl.
    + destruct (decide (k = k')); done.
    + destruct (decide (k0 = k')) as [->|Hne'].
      * rewrite decide_False by congruence. done.
      * apply IH.
Qed.

Lemma NoDup_keys_set k v o : NoDup (JS.keys o) → NoDup (JS.keys (JS.set k v o)).
Proof.
  intros Hnd. rewrite keys_set. destruct (decide (k ∈ JS.keys o)); [done|].
  apply NoDup_app. split_and!; [done | | apply NoDup_singleton].
  intros x Hx ->%list_elem_of_singleton. done.
Qed.

Lemma keys_forEach (f : string → V → V) o : JS.keys (JS.forEach f o) = JS.keys o.
Proof.
  unfold JS.keys, JS.forEach. rewrite <- list_fmap_compose.
  apply list_fmap_ext. by intros ? [].
Qed.

Lemma values_forEach (f : string → V → V) o :
  JS.values (JS.forEach f o) = (λ kv, f kv.1 kv.2) <$> o.
Proof.
  unfold JS.values, JS.forEach. rewrite <- list_fmap_compose.
  apply list_fmap_ext. by intros ? [].
Qed.

(** [JS.forEach] is the loop [Object.keys(o).forEach(k => o[k] = f k o[k])]
    on a dictionary, whose keys are distinct. *)
Lemma fold_alter_cons (f : string → V → V) k v (ks : list string) o :
  k ∉ ks →
  fold_left (λ acc k', JS.alter (f k') k' acc) ks ((k, v) :: o)
  = (k, v) :: fold_left (λ acc k', JS.alter (f k') k' acc) ks o.
Proof.
  revert o. induction ks as [|k' ks IH]; intros o Hnin; simpl; [done|].
  apply not_elem_of_cons in Hnin as [Hne Hnin].
  rewrite decide_False by done. by apply IH.
Qed.

Lemma forEach_as_loop (f : string → V → V) o :
  NoDup (JS.keys o) →
  fold_left (λ acc k, JS.alter (f k) k acc) (JS.keys o) o = JS.forEach f o.
Proof.
  unfold JS.keys. induction o as [|[k v] o IH]; [done|].
  csimpl. intros [Hk Hnd]%NoDup_cons.
  rewrite decide_True by done. rewrite fold_alter_cons by done.
  by rewrite IH.
Qed.

(** A property of every entry is kept by [alter] and [set]. *)
Lemma Forall_alter (P : string * V → Prop) f k o :
  (∀ v, P (k, v) → P (k, f v)) → Forall P o → Forall P (JS.alter f k o).
Proof.
  intros Hf. induction 1 as [|[k' v'] o Hx Ho IH]; simpl; [constructor|].
  destruct (decide (k' = k)) as [->|]; constructor; auto.
Qed.

Lemma Forall_set (P : string * V → Prop) k v o :
  P (k, v) → Forall P o → Forall P (JS.set k v o).
Proof.
  intros Hv. induction 1 as [|[k' v'] o Hx Ho IH]; simpl.
  - by repeat constructor.
  - destruct (decide (k' = k)) as [->|]; constructor; auto.
Qed.

End ObjFacts.

(** ** Numbers *)

Lemma gt_true a b : JS.gt a b = true ↔ b < a.
Proof.
  unfold JS.gt, JS.lt. rewrite negb_true_iff, <- not_true_iff_false, Qle_bool_iff.
  split; [apply Qnot_le_lt | apply Qlt_not_le].
Qed.

Lemma lt_true a b : JS.lt a b = true ↔ a < b.
Proof. apply (gt_true b a). Qed.

Lemma Qsum_fold {A} (f : A → Q) (l : list A) (a : Q) :
  fold_left (λ acc x, acc + f x) l a == a + fold_left (λ acc x, acc + f x) l 0.
Proof.
  revert a. induction l as [|x l IH]; intros a; simpl; [lra|].
  rewrite (IH (a + f x)), (IH (0 + f x)). lra.
Qed.

Lemma Qsum_perm {A} (f : A → Q) (l l' : list A) :
  l ≡ₚ l' →
  fold_left (λ acc x, acc + f x) l 0 == fold_left (λ acc x, acc + f x) l' 0.
Proof.
  induction 1 as [|x l l' _ IH|x y l|l l' l'' _ IH1 _ IH2]; simpl.
  - reflexivity.
  - rewrite (Qsum_fold f l), (Qsum_fold f l'), IH. reflexivity.
  - rewrite (Qsum_fold f l (0 + f y + f x)), (Qsum_fold f l (0 + f x + f y)). lra.
  - by rewrite IH1.
Qed.

Lemma Qsum_ext {A B} (f : A → Q) (g : B → Q) (l : list A) (l' : list B) :
  f <$> l = g <$> l' →
  fold_left (λ acc x, acc + f x) l 0 = fold_left (λ acc x, acc + g x) l' 0.
Proof.
  generalize 0. revert l'.
  induction l as [|x l IH]; intros [|y l'] a; csimpl; try done.
  intros [= Hxy Hl]. rewrite Hxy. by apply IH.
Qed.

Lemma Qsum_nonneg {A} (f : A → Q) (l : list A) :
  Forall (λ x, 0 <= f x) l → 0 <= fold_left (λ acc x, acc + f x) l 0.
Proof.
  induction 1 as [|x l Hx _ IH]; simpl; [lra|].
  rewrite Qsum_fold. lra.
Qed.

Lemma fmap_imap_inv {A B} (f : A → B) (g : nat → A → A) (l : list A) :
  (∀ i x, f (g i x) = f x) → f <$> imap g l = f <$> l.
Proof.
  intros Hfg. revert g Hfg. induction l as [|x l IH]; intros g Hfg; csimpl; [done|].
  rewrite Hfg. f_equal. apply IH. intros i y. apply Hfg.
Qed.

(** ** Sorting *)

Section SortFacts.
Context {A : Type} (key : A → Q) (cmp : A → A → Q).
Hypothesis cmp_key : ∀ a b, cmp a b = key b - key a.

Local Abbreviation desc := (JS.desc key).

Lemma cmp_le a b : Qle_bool (cmp a b) 0 = true ↔ key b <= key a.
Proof using cmp_key. rewrite Qle_bool_iff, cmp_key. split; intros; lra. Qed.

Lemma insert_perm x l : JS.insert cmp x l ≡ₚ x :: l.
Proof.
  induction l as [|y l IH]; simpl; [done|].
  destruct (Qle_bool (cmp x y) 0); [done|].
  rewrite IH. apply Permutation_swap.
Qed.

Lemma sort_perm l : JS.sort cmp l ≡ₚ l.
Proof.
  induction l as [|x l IH]; simpl; [done|].
  unfold JS.sort in *. simpl. rewrite insert_perm. by constructor.
Qed.

Lemma insert_sorted x l :
  StronglySorted desc l → StronglySorted desc (JS.insert cmp x l).
Proof using cmp_key.
  induction 1 as [|y l Hl IH Hy]; simpl.
  - repeat constructor.
  - destruct (Qle_bool (cmp x y) 0) eqn:Hxy.
    + apply cmp_le in Hxy. constructor; [by constructor|].
      constructor; [done|].
      eapply Forall_impl; [exact Hy|]. unfold JS.desc. intros z Hz. lra.
    + assert (key x < key y) as Hlt.
      { apply Qnot_le_lt. intros Hle. apply cmp_le in Hle. congruence. }
      constructor; [done|].
      rewrite insert_perm. constructor; [|done]. unfold JS.desc. lra.
Qed.

Lemma sort_sorted l : StronglySorted desc (JS.sort cmp l).
Proof using cmp_key.
  induction l as [|x l IH]; unfold JS.sort in *; simpl;
    [constructor | by apply insert_sorted].
Qed.

Lemma filter_insert s x l :
  filter (λ a, key a == s) (JS.insert cmp x l)
  = filter (λ a, key a == s) (x :: l).
Proof using cmp_key.
  induction l as [|y l IH]; simpl; [done|].
  destruct (Qle_bool (cmp x y) 0) eqn:Hxy; [done|].
  assert (key x < key y) as Hlt.
  { apply Qnot_le_lt. intros Hle. apply cmp_le in Hle. congruence. }
  rewrite filter_cons, IH, !filter_cons.
  destruct (decide (key y == s)) as [Hy|Hy]; [|done].
  destruct (decide (key x == s)) as [Hx|Hx]; [|done].
  rewrite Hx, Hy in Hlt. by apply Qlt_irrefl in Hlt.
Qed.

Lemma sort_stable s l :
  filter (λ a, key a == s) (JS.sort cmp l) = filter (λ a, key a == s) l.
Proof using cmp_key.
  induction l as [|x l IH]; [done|].
  unfold JS.sort in *. simpl. rewrite filter_insert, !filter_cons, IH. done.
Qed.

Lemma sort_ties c l : Forall (λ a, key a == c) l → JS.sort cmp l = l.
Proof using cmp_key.
  induction 1 as [|x l Hx Hl IH]; [done|].
  unfold JS.sort in *. simpl. rewrite IH.
  destruct Hl as [|y l Hy Hl]; simpl; [done|].
  replace (Qle_bool (cmp x y) 0) with true; [done|].
  symmetry. apply cmp_le. rewrite Hx, Hy. apply Qle_refl.
Qed.

Lemma sorted_lookup l i j a b :
  StronglySorted desc l → (i ≤ j)%nat →
  l !! i = Some a → l !! j = Some b → key b <= key a.
Proof.
  intros Hs. revert i j. induction Hs as [|x l Hl IH Hx]; intros i j Hij Hi Hj.
  - by rewrite lookup_nil in Hi.
  - destruct i as [|i], j as [|j]; simpl in *; simplify_eq.
    + apply Qle_refl.
    + rewrite Forall_forall in Hx. apply Hx.
      apply list_elem_of_lookup. eauto.
    + lia.
    + eapply IH; [|done..]. lia.
Qed.

End SortFacts.

(** ** Dictionaries filled by a loop *)

Section FoldSet.
Context {A V : Type} (k : A → string) (v : A → V).
Implicit Types (l : list A) (o : JS.obj V).

Local Abbreviation fill := (fold_left (λ o x, JS.set (k x) (v x) o)).

Lemma fill_snoc l x o : fill (l ++ [x]) o = JS.set (k x) (v x) (fill l o).
Proof. by rewrite fold_left_app. Qed.

Lemma keys_fill key l o :
  key ∈ JS.keys (fill l o) ↔ key ∈ JS.keys o ∨ key ∈ k <$> l.
Proof.
  induction l as [|x l IH] using rev_ind.
  - csimpl. rewrite elem_of_nil. tauto.
  - rewrite fill_snoc, keys_set, fmap_app, elem_of_app. csimpl.
    rewrite list_elem_of_singleton.
    destruct (decide (k x ∈ JS.keys (fill l o))) as [Hin|Hnin].
    + rewrite IH. split; [tauto|]. intros [?|[?| ->]]; [tauto..|].
      by apply IH.
    + rewrite elem_of_app, list_elem_of_singleton, IH. tauto.
Qed.

Lemma NoDup_keys_fill l o : NoDup (JS.keys o) → NoDup (JS.keys (fill l o)).
Proof.
  intros Ho. induction l as [|x l IH] using rev_ind; [done|].
  rewrite fill_snoc. by apply NoDup_keys_set.
Qed.

Lemma Forall_fill (P : string * V → Prop) l o :
  Forall P o → (∀ x, x ∈ l → P (k x, v x)) → Forall P (fill l o).
Proof.
  intros Ho. induction l as [|x l IH] using rev_ind; intros Hl; [done|].
  rewrite fill_snoc. apply Forall_set.
  - apply Hl, elem_of_app. right. apply list_elem_of_here.
  - apply IH. intros y Hy. apply Hl, elem_of_app. by left.
Qed.

(** The last write to a key is the one that is read. *)
Lemma get_fill key l o :
  JS.get key (fill l o)
  = match last (filter (λ x, k x = key) l) with
    | Some x => Some (v x)
    | None => JS.get key o
    end.
Proof.
  induction l as [|x l IH] using rev_ind; [done|].
  rewrite fill_snoc, get_set, filter_app, filter_cons, filter_nil.
  destruct (decide (k x = key)) as [Hx|Hx].
  - by rewrite last_snoc.
  - by rewrite app_nil_r.
Qed.

(** With distinct keys the dictionary lists the writes in order. *)
Lemma fill_NoDup l :
  NoDup (k <$> l) → fill l [] = (λ x, (k x, v x)) <$> l.
Proof.
  induction l as [|x l IH] using rev_ind; [done|].
  rewrite fmap_app. csimpl. intros [Hl [Hx _]]%NoDup_app.
  rewrite fill_snoc, IH, fmap_app by done. csimpl.
  assert (k x ∉ k <$> l) as Hnin.
  { intros Hin. apply (Hx _ Hin), list_elem_of_here. }
  clear -Hnin. induction l as [|y l IH]; csimpl; [done|].
  apply not_elem_of_cons in Hnin as [Hne Hnin].
  rewrite decide_False by congruence. by rewrite IH.
Qed.

End FoldSet.

(** ** Voting window *)

Lemma votingOpen_status env ev :
  votingOpen env ev = true ↔ votingStatus env ev = open.
Proof.
  unfold votingOpen, votingStatus. cbv zeta.
  destruct (Event.isVotingOpen ev) as [[|]|]; [done | done |].
  unfold Date_ge, Date_le, Date_lt.
  destruct (windowStart env ev) as [start|], (windowEnd env ev) as [end_|]; simpl;
    try done.
  - destruct (Z.ltb_spec (now env) start), (Z.leb_spec start (now env)); try lia;
      simpl; [done|]. by destruct (now env <=? end_)%Z.
  - destruct (Z.ltb_spec (now env) start), (Z.leb_spec start (now env)); try lia;
      by simpl.
Qed.

(** C2, as the code has it. An explicit [isVotingOpen] decides: [open]
    for [true], [closed] for [false], whatever the window.  Otherwise
    the status is [upcoming] when now < start; [open] when
    start <= now <= end; and [closed] in every other case, so when
    now > end it is [closed] unless now < start, which the first rule has
    already turned into [upcoming].  Vote intake lets a batch through
    exactly when this status is [open]. *)
Theorem votingStatus_rule env ev :
  let now := Some (now env) in
  let start := windowStart env ev in
  let end_ := windowEnd env ev in
  (Event.isVotingOpen ev = Some true → votingStatus env ev = open)
  ∧ (Event.isVotingOpen ev = Some false → votingStatus env ev = closed)
  ∧ (Event.isVotingOpen ev = None →
     (Date_lt now start = true → votingStatus env ev = upcoming)
     ∧ (Date_le start now = true ∧ Date_le now end_ = true →
        votingStatus env ev = open)
     ∧ (Date_gt now end_ = true → Date_lt now start = false →
        votingStatus env ev = closed)
     ∧ (Date_lt now start = false →
        ¬ (Date_le start now = true ∧ Date_le now end_ = true) →
        votingStatus env ev = closed))
  ∧ (votingOpen env ev = true ↔ votingStatus env ev = open).
Proof.
  intros now0 start end_. unfold votingStatus. cbv zeta.
  fold now0 start end_. split_and!.
  - by intros ->.
  - by intros ->.
  - intros ->. split_and!.
    + by intros ->.
    + intros [Hs He]. unfold Date_ge. rewrite Hs, He.
      destruct (Date_lt now0 start) eqn:Hlt; [|done]. exfalso.
      unfold now0, Date_lt, Date_le in *. destruct start as [s|]; [|done]. lia.
    + intros Hgt ->. unfold Date_gt in Hgt.
      destruct (Date_le now0 end_) eqn:Hle; [|by rewrite andb_false_r].
      exfalso. unfold now0, Date_lt, Date_le in *. destruct end_ as [e|]; [|done]. lia.
    + intros -> Hnot. unfold Date_ge.
      destruct (Date_le start now0) eqn:Hs, (Date_le now0 end_) eqn:He; try done.
      by destruct Hnot.
  - apply votingOpen_status.
Qed.

Lemma lateStart_upcoming :
  votingStatus Scenario.env Scenario.lateStart = upcoming
  ∧ Date_gt (Some (now Scenario.env))
      (windowEnd Scenario.env Scenario.lateStart) = true.
Proof. split; reflexivity. Qed.

(** Start 18:00, close 09:00, no override, at 12:00: now > end, and the
    status is [upcoming], not [closed]. *)
Lemma votingStatus_counterexample :
  ¬ votingStatus_as_stated Scenario.env Scenario.lateStart.
Proof.
  intros (_ & _ & Hauto).
  destruct (Hauto eq_refl) as (_ & _ & Hclosed).
  specialize (Hclosed eq_refl). discriminate Hclosed.
Qed.

(** ** The loop over the votes *)

Lemma fmap_alter_inv {V B} (h : string * V → B) (f : V → V) k (o : JS.obj V) :
  (∀ v, h (k, f v) = h (k, v)) → h <$> JS.alter f k o = h <$> o.
Proof.
  intros Hf. induction o as [|[k' v'] o IH]; csimpl; [done|].
  destruct (decide (k' = k)) as [->|]; csimpl; [by rewrite Hf | by rewrite IH].
Qed.

Lemma fmap_forEach_inv {V B} (h : string * V → B) (f : string → V → V)
    (o : JS.obj V) :
  (∀ k v, h (k, f k v) = h (k, v)) → h <$> JS.forEach f o = h <$> o.
Proof.
  intros Hf. unfold JS.forEach. rewrite <- list_fmap_compose.
  apply list_fmap_ext. intros _ [k v] _. apply Hf.
Qed.

Ltac case_countVote t vote :=
  unfold countVote; cbv zeta;
  destruct (JS.get (Vote.project vote) (projectResults t)) eqn:?;
    [destruct (JS.get (Vote.group vote) (groupResults t)) eqn:?|].

Lemma countVote_groupStatic t vote :
  groupStatic <$> groupResults (countVote t vote) = groupStatic <$> groupResults t.
Proof.
  case_countVote t vote; try done.
  simpl. by apply fmap_alter_inv.
Qed.

Lemma countVote_projectStatic t vote :
  projectStatic <$> projectResults (countVote t vote)
  = projectStatic <$> projectResults t.
Proof.
  case_countVote t vote; try done.
  simpl. by apply fmap_alter_inv.
Qed.

Lemma countVote_groupIdToName t vote :
  groupIdToName (countVote t vote) = groupIdToName t.
Proof.
  by case_countVote t vote.
Qed.

Lemma tally_snoc ev votes vote gw :
  tally ev (votes ++ [vote]) gw = countVote (tally ev votes gw) vote.
Proof. unfold tally. by rewrite fold_left_app. Qed.

Lemma tally_groupStatic ev votes gw :
  groupStatic <$> groupResults (tally ev votes gw)
  = groupStatic <$> initGroupResults gw ev.
Proof.
  induction votes as [|vote votes IH] using rev_ind; [done|].
  by rewrite tally_snoc, countVote_groupStatic.
Qed.

Lemma tally_projectStatic ev votes gw :
  projectStatic <$> projectResults (tally ev votes gw)
  = projectStatic <$> initProjectResults ev.
Proof.
  induction votes as [|vote votes IH] using rev_ind; [done|].
  by rewrite tally_snoc, countVote_projectStatic.
Qed.

Lemma tally_groupIdToName ev votes gw :
  groupIdToName (tally ev votes gw) = initGroupIdToName ev.
Proof.
  induction votes as [|vote votes IH] using rev_ind; [done|].
  by rewrite tally_snoc, countVote_groupIdToName.
Qed.

Lemma keys_groupStatic (o : JS.obj GroupResult.t) :
  JS.keys o = (λ s, s.1.1.1) <$> (groupStatic <$> o).
Proof. unfold JS.keys. rewrite <- list_fmap_compose. by apply list_fmap_ext. Qed.

Lemma keys_projectStatic (o : JS.obj ProjectResult.t) :
  JS.keys o = (λ s, s.1.1) <$> (projectStatic <$> o).
Proof. unfold JS.keys. rewrite <- list_fmap_compose. by apply list_fmap_ext. Qed.

Lemma tally_project_keys ev votes gw :
  JS.keys (projectResults (tally ev votes gw)) = JS.keys (initProjectResults ev).
Proof. by rewrite !keys_projectStatic, tally_projectStatic. Qed.

Lemma tally_group_keys ev votes gw :
  JS.keys (groupResults (tally ev votes gw)) = JS.keys (initGroupResults gw ev).
Proof. by rewrite !keys_groupStatic, tally_groupStatic. Qed.

Lemma init_project_keys ev key :
  key ∈ JS.keys (initProjectResults ev) ↔ key ∈ Project._id <$> Event.projects ev.
Proof.
  unfold initProjectResults.
  rewrite (keys_fill Project._id newProjectResult). csimpl.
  rewrite elem_of_nil. tauto.
Qed.

Lemma init_group_keys ev gw key :
  key ∈ JS.keys (initGroupResults gw ev) ↔ key ∈ Group._id <$> Event.groups ev.
Proof.
  unfold initGroupResults.
  rewrite (keys_fill Group._id (newGroupResult gw)). csimpl.
  rewrite elem_of_nil. tauto.
Qed.

Lemma tally_keys_NoDup ev votes gw :
  NoDup (JS.keys (projectResults (tally ev votes gw)))
  ∧ NoDup (JS.keys (groupResults (tally ev votes gw))).
Proof.
  rewrite tally_project_keys, tally_group_keys. split.
  - apply (NoDup_keys_fill Project._id newProjectResult). constructor.
  - apply (NoDup_keys_fill Group._id (newGroupResult gw)). constructor.
Qed.

(** Every project record sits under its own id. *)
Lemma init_project_ids ev :
  Forall (λ kv, ProjectResult.id kv.2 = kv.1) (initProjectResults ev).
Proof.
  unfold initProjectResults.
  by apply (Forall_fill Project._id newProjectResult).
Qed.

Lemma project_ids_static (o o' : JS.obj ProjectResult.t) :
  projectStatic <$> o = projectStatic <$> o' →
  Forall (λ kv, ProjectResult.id kv.2 = kv.1) o' →
  Forall (λ kv, ProjectResult.id kv.2 = kv.1) o.
Proof.
  revert o'. induction o as [|[k r] o IH]; intros [|[k' r'] o']; csimpl; try done.
  intros [= -> Hid _ Ho]. inversion_clear 1.
  constructor; [simpl in *; congruence | by eapply IH].
Qed.

Lemma tally_project_ids ev votes gw :
  Forall (λ kv, ProjectResult.id kv.2 = kv.1) (projectResults (tally ev votes gw)).
Proof.
  eapply project_ids_static; [apply tally_projectStatic | apply init_project_ids].
Qed.

(** A vote for an unknown project or an unknown group changes nothing. *)
Lemma countVote_orphan ev votes gw vote :
  Vote.project vote ∉ Project._id <$> Event.projects ev
  ∨ Vote.group vote ∉ Group._id <$> Event.groups ev →
  countVote (tally ev votes gw) vote = tally ev votes gw.
Proof.
  intros Horphan. unfold countVote. cbv zeta.
  destruct (JS.get (Vote.project vote) _) eqn:Hp; [|done].
  destruct (JS.get (Vote.group vote) _) eqn:Hg; [|done].
  exfalso. destruct Horphan as [Hno|Hno]; apply Hno.
  - apply (init_project_keys ev). rewrite <- (tally_project_keys ev votes gw).
    apply get_is_Some. by rewrite Hp.
  - apply (init_group_keys ev gw). rewrite <- (tally_group_keys ev votes gw).
    apply get_is_Some. by rewrite Hg.
Qed.

Lemma tally_orphan ev votes1 votes2 gw vote :
  Vote.project vote ∉ Project._id <$> Event.projects ev
  ∨ Vote.group vote ∉ Group._id <$> Event.groups ev →
  tally ev (votes1 ++ vote :: votes2) gw = tally ev (votes1 ++ votes2) gw.
Proof.
  intros Horphan. unfold tally. rewrite !fold_left_app. simpl.
  fold (tally ev votes1 gw). by rewrite (countVote_orphan ev votes1 gw vote).
Qed.

(** The lookups by group id that follow the loop find their entry. *)
Lemma countVote_groupVoters_keys t vote :
  JS.keys (groupVoters (countVote t vote)) = JS.keys (groupVoters t).
Proof. case_countVote t vote; try done. simpl. apply keys_alter. Qed.

Lemma groupIdToName_defined ev votes gw groupId :
  groupId ∈ JS.keys (groupResults (tally ev votes gw)) →
  is_Some (JS.get groupId (groupIdToName (tally ev votes gw)))
  ∧ is_Some (JS.get groupId (groupVoters (tally ev votes gw))).
Proof.
  rewrite tally_group_keys, tally_groupIdToName, !get_is_Some.
  intros Hin%init_group_keys. split.
  - unfold initGroupIdToName. apply (keys_fill Group._id Group.name). by right.
  - replace (JS.keys (groupVoters (tally ev votes gw)))
      with (JS.keys (initGroupVoters ev)).
    + unfold initGroupVoters.
      apply (keys_fill Group._id (λ _, ∅ : gset string)). by right.
    + induction votes as [|vote votes IH] using rev_ind; [done|].
      by rewrite tally_snoc, countVote_groupVoters_keys.
Qed.

(** ** Sorting and ranking the records *)

Lemma filter_imap_inv {A B} (P : A → Prop) `{!∀ x, Decision (P x)}
    (h : A → B) (g : nat → A → A) (l : list A) :
  (∀ i x, P (g i x) ↔ P x) → (∀ i x, h (g i x) = h x) →
  h <$> filter P (imap g l) = h <$> filter P l.
Proof.
  intros HP Hh. revert g HP Hh.
  induction l as [|x l IH]; intros g HP Hh; csimpl; [done|].
  rewrite !filter_cons.
  destruct (decide (P (g 0%nat x))) as [Hx|Hx], (decide (P x)) as [Hx'|Hx']; csimpl.
  - rewrite Hh. f_equal. apply IH; intros i y; [apply HP | apply Hh].
  - exfalso. by apply Hx', (HP 0%nat x).
  - exfalso. by apply Hx, HP.
  - apply IH; intros i y; [apply HP | apply Hh].
Qed.

Lemma projects_lookup ev votes gw i project :
  projects (calculateResults ev votes gw) !! i = Some project →
  ∃ p, JS.sort byFinalScore (projectTotals ev votes gw) !! i = Some p
       ∧ project = rankProject i p.
Proof.
  unfold calculateResults. simpl. rewrite list_lookup_imap.
  destruct (_ !! i) as [p|]; [|done]. intros [= <-]. eauto.
Qed.

Lemma groups_lookup ev votes gw i group :
  groups (calculateResults ev votes gw) !! i = Some group →
  ∃ g, JS.sort byTotalScore (groupTotals ev votes gw) !! i = Some g
       ∧ group = rankGroup i g.
Proof.
  unfold calculateResults. simpl. rewrite list_lookup_imap.
  destruct (_ !! i) as [g|]; [|done]. intros [= <-]. eauto.
Qed.

Lemma projects_elem ev votes gw project :
  project ∈ projects (calculateResults ev votes gw) →
  ∃ i p, p ∈ projectTotals ev votes gw ∧ project = rankProject i p.
Proof.
  intros [i Hi]%list_elem_of_lookup.
  apply projects_lookup in Hi as (p & Hp & ->). exists i, p. split; [|done].
  rewrite <- (sort_perm byFinalScore). apply list_elem_of_lookup. eauto.
Qed.

Lemma projectTotals_elem ev votes gw p :
  p ∈ projectTotals ev votes gw →
  ∃ key p0, (key, p0) ∈ projectResults (tally ev votes gw)
    ∧ p = setFinalScore (groupTotals ev votes gw)
            (setAverages (tally ev votes gw) key p0).
Proof.
  unfold projectTotals. rewrite values_forEach.
  intros ([key p1] & -> & Hin)%list_elem_of_fmap. simpl.
  unfold JS.forEach in Hin.
  apply list_elem_of_fmap in Hin as ([key' p0] & [= -> ->] & Hin).
  simpl. eauto.
Qed.

(** [weightedSum] and [totalWeight] read only names and weights, so
    they do not depend on the order or the ranks of the group records. *)
Lemma weightedSum_groups ev votes gw project :
  weightedSum project (groups (calculateResults ev votes gw))
  == weightedSum project (groupTotals ev votes gw).
Proof.
  unfold calculateResults, weightedSum. simpl.
  rewrite <- (Qsum_perm _ _ _ (sort_perm byTotalScore (groupTotals ev votes gw))).
  erewrite Qsum_ext; [reflexivity|]. by apply fmap_imap_inv.
Qed.

Lemma totalWeight_groups ev votes gw :
  totalWeight (groups (calculateResults ev votes gw))
  == totalWeight (groupTotals ev votes gw).
Proof.
  unfold calculateResults, totalWeight. simpl.
  rewrite <- (Qsum_perm _ _ _ (sort_perm byTotalScore (groupTotals ev votes gw))).
  erewrite Qsum_ext; [reflexivity|]. by apply fmap_imap_inv.
Qed.

Lemma finalScore_projectTotals ev votes gw p :
  p ∈ projectTotals ev votes gw →
  ProjectResult.finalScore p
  = if JS.gt (totalWeight (groupTotals ev votes gw)) 0
    then weightedSum p (groupTotals ev votes gw)
         / totalWeight (groupTotals ev votes gw)
    else 0.
Proof. by intros (key & p0 & _ & ->)%projectTotals_elem. Qed.

(** ** Final score *)

Lemma groupTotals_info ev votes gw :
  groupInfo <$> groupTotals ev votes gw
  = (λ kv, groupInfo kv.2) <$> initGroupResults gw ev.
Proof.
  unfold groupTotals. rewrite values_forEach, <- list_fmap_compose.
  transitivity ((λ s : string * string * string * Q, (s.1.1.2, s.1.2, s.2))
                  <$> (groupStatic <$> groupResults (tally ev votes gw))).
  - rewrite <- list_fmap_compose. by apply list_fmap_ext.
  - rewrite tally_groupStatic, <- list_fmap_compose. by apply list_fmap_ext.
Qed.

Lemma init_group_weights ev gw :
  Forall (λ kv, ∃ g, g ∈ Event.groups ev ∧ kv.2 = newGroupResult gw g)
    (initGroupResults gw ev).
Proof.
  unfold initGroupResults.
  apply (Forall_fill Group._id (newGroupResult gw)); [constructor|]. eauto.
Qed.

(** Every group record carries the effective weight of a group of the
    event. *)
Lemma groupTotals_weight ev votes gw g :
  g ∈ groupTotals ev votes gw →
  ∃ g0, g0 ∈ Event.groups ev
    ∧ groupInfo g = (Group._id g0, Group.name g0, effectiveWeight gw g0).
Proof.
  intros Hg. apply (list_elem_of_fmap_2 groupInfo) in Hg.
  rewrite groupTotals_info in Hg.
  apply list_elem_of_fmap in Hg as (kv & -> & Hkv).
  pose proof (init_group_weights ev gw) as Hinit.
  rewrite Forall_forall in Hinit.
  destruct (Hinit _ Hkv) as (g0 & Hg0 & ->). eauto.
Qed.

Lemma totalWeight_nonneg ev votes gw :
  Forall (λ g, 0 <= effectiveWeight gw g) (Event.groups ev) →
  0 <= totalWeight (groups (calculateResults ev votes gw)).
Proof.
  intros Hw. rewrite totalWeight_groups. apply Qsum_nonneg.
  apply Forall_forall. intros g (g0 & Hg0 & Hinfo)%groupTotals_weight.
  rewrite Forall_forall in Hw. injection Hinfo as _ _ ->. by apply Hw.
Qed.

(** The guard of the last step is [totalWeight > 0]: a total that is
    not positive, which takes negative weights in the override of the
    public endpoint, gives [0] as well. *)
Lemma finalScore_guarded ev votes groupWeights project :
  project ∈ projects (calculateResults ev votes groupWeights) →
  ¬ 0 < totalWeight (groups (calculateResults ev votes groupWeights)) →
  ProjectResult.finalScore project = 0.
Proof.
  intros (i & p & Hp & ->)%projects_elem Hle.
  change (ProjectResult.finalScore (rankProject i p))
    with (ProjectResult.finalScore p).
  rewrite (finalScore_projectTotals _ _ _ _ Hp).
  destruct (JS.gt _ 0) eqn:Hgt; [|done].
  apply gt_true in Hgt. rewrite <- totalWeight_groups in Hgt. by destruct Hle.
Qed.

(** The scenario itself: averages 10 and 4 under weights 70 and 30 give
    8.2. *)
Example finalScore_judges_public :
  ∃ project,
    projects (calculateResults Scenario.event Scenario.votes None) !! 0%nat
    = Some project
    ∧ groupAverageOf project "Judges" == 10
    ∧ groupAverageOf project "Public" == 4
    ∧ ProjectResult.finalScore project == 8.2.
Proof. eexists. split; [reflexivity|]. by vm_compute. Qed.

(** ** Ranking *)

Lemma projectTotals_ids ev votes gw :
  ProjectResult.id <$> projectTotals ev votes gw = JS.keys (initProjectResults ev).
Proof.
  unfold projectTotals. rewrite values_forEach. unfold JS.forEach.
  rewrite <- !list_fmap_compose, <- (tally_project_keys ev votes gw). unfold JS.keys.
  apply Forall_fmap_ext_1. eapply Forall_impl; [apply tally_project_ids|].
  by intros [k p].
Qed.

Lemma groupTotals_ids ev votes gw :
  GroupResult.id <$> groupTotals ev votes gw
  = (λ kv, GroupResult.id kv.2) <$> initGroupResults gw ev.
Proof.
  transitivity ((λ s : string * string * Q, s.1.1) <$> (groupInfo <$> groupTotals ev votes gw)).
  - rewrite <- list_fmap_compose. by apply list_fmap_ext.
  - rewrite groupTotals_info, <- list_fmap_compose. by apply list_fmap_ext.
Qed.

Lemma projectTotals_event_order ev votes gw :
  NoDup (Project._id <$> Event.projects ev) →
  ProjectResult.id <$> projectTotals ev votes gw = Project._id <$> Event.projects ev.
Proof.
  intros Hnd. rewrite projectTotals_ids. unfold initProjectResults, JS.keys.
  rewrite (fill_NoDup Project._id newProjectResult) by done.
  rewrite <- list_fmap_compose. by apply list_fmap_ext.
Qed.

Lemma groupTotals_event_order ev votes gw :
  NoDup (Group._id <$> Event.groups ev) →
  GroupResult.id <$> groupTotals ev votes gw = Group._id <$> Event.groups ev.
Proof.
  intros Hnd. rewrite groupTotals_ids. unfold initGroupResults.
  rewrite (fill_NoDup Group._id (newGroupResult gw)) by done.
  rewrite <- list_fmap_compose. by apply list_fmap_ext.
Qed.


(** One vote for the second project: it moves to the front; without
    votes the two projects tie and keep the event's order. *)
Example ranking_of_scenario :
  (λ p, (ProjectResult.id p, ProjectResult.rank p))
    <$> projects (calculateResults Scenario.event
                    [Scenario.vote "p2" "g1" "s1" 5 5] None)
  = [("p2", 1%nat); ("p1", 2%nat)]
  ∧ (λ p, (ProjectResult.id p, ProjectResult.rank p))
      <$> projects (calculateResults Scenario.event [] None)
    = [("p1", 1%nat); ("p2", 2%nat)].
Proof. split; reflexivity. Qed.

(** ** An event without votes *)

Lemma get_default_Forall {V} (P : V → Prop) (d : V) k (o : JS.obj V) :
  P d → Forall (λ kv, P kv.2) o → P (default d (JS.get k o)).
Proof.
  intros Hd Ho. destruct (JS.get k o) as [v|] eqn:Hget; [|done].
  apply get_Some_elem in Hget. rewrite Forall_forall in Ho. apply (Ho _ Hget).
Qed.

Lemma groupScore_init pids gids pid gid :
  groupScore (initProjectGroupScores pids gids) pid gid = GroupScore.mk 0 0.
Proof.
  unfold groupScore, initProjectGroupScores.
  destruct (JS.get pid _) as [inner|] eqn:Hpid; [|done]. simpl.
  apply get_Some_elem in Hpid.
  assert (Forall (λ kv : string * JS.obj GroupScore.t,
            Forall (λ kv', kv'.2 = GroupScore.mk 0 0) kv.2)
            (fold_left (λ o pid0, JS.set pid0
               (fold_left (λ o' gid0, JS.set gid0 (GroupScore.mk 0 0) o') gids []) o)
               pids [])) as Hall.
  { apply (Forall_fill id (λ _, fold_left _ gids [])); [constructor|].
    intros ? _. simpl.
    by apply (Forall_fill id (λ _, GroupScore.mk 0 0)). }
  rewrite Forall_forall in Hall. specialize (Hall _ Hpid). simpl in Hall.
  by apply (get_default_Forall (λ s, s = GroupScore.mk 0 0)).
Qed.

Lemma weightedSum_zero project gs :
  (∀ n, groupAverageOf project n = 0) → weightedSum project gs == 0.
Proof.
  intros Hz. unfold weightedSum. induction gs as [|g gs IH]; simpl; [reflexivity|].
  rewrite Qsum_fold, IH, Hz. lra.
Qed.

Lemma initProjectResults_new ev :
  Forall (λ kv, ∃ project, kv.2 = newProjectResult project) (initProjectResults ev).
Proof.
  unfold initProjectResults.
  apply (Forall_fill Project._id newProjectResult); [constructor|]. eauto.
Qed.

Lemma projectTotals_unscored ev gw :
  Forall unscoredProject (projectTotals ev [] gw).
Proof.
  apply Forall_forall. intros p (key & p0 & Hin & ->)%projectTotals_elem.
  pose proof (initProjectResults_new ev) as Hnew. rewrite Forall_forall in Hnew.
  destruct (Hnew _ Hin) as (project & Hp0). simpl in Hp0. subst p0.
  assert (Forall (λ kv : string * Q, kv.2 = 0)
            (ProjectResult.groupAverages
               (setAverages (tally ev [] gw) key (newProjectResult project)))) as Hga.
  { simpl.
    apply (Forall_fill
             (λ groupId, default "undefined" (JS.get groupId (initGroupIdToName ev)))
             (λ groupId, avgOf (groupScore _ key groupId))); [constructor|].
    intros groupId _. simpl. by rewrite groupScore_init. }
  repeat split; try done.
  simpl. destruct (JS.gt _ 0); [|reflexivity].
  rewrite weightedSum_zero; [by vm_compute|].
  intros n. unfold groupAverageOf. simpl.
  by apply (get_default_Forall (λ a, a = 0)).
Qed.

Lemma groupTotals_unscored ev gw : Forall unscoredGroup (groupTotals ev [] gw).
Proof.
  unfold groupTotals. rewrite values_forEach. apply Forall_fmap.
  pose proof (init_group_weights ev gw) as Hinit.
  eapply Forall_impl; [exact Hinit|].
  intros [k g] (g0 & _ & Hg). simpl in *. subst g. repeat split.
  simpl. unfold initGroupVoters.
  apply (get_default_Forall (λ s : gset string, size s = 0%nat)); [done|].
  by apply (Forall_fill Group._id (λ _, ∅ : gset string)).
Qed.

Lemma calculateResults_no_votes ev gw :
  calculateResults ev [] gw
  = {| projects := imap rankProject (projectTotals ev [] gw);
       groups := imap rankGroup (groupTotals ev [] gw) |}.
Proof.
  unfold calculateResults. f_equal.
  - rewrite (sort_ties ProjectResult.finalScore byFinalScore (λ _ _, eq_refl) 0); [done|].
    eapply Forall_impl; [apply projectTotals_unscored|].
    by intros p (_ & _ & _ & _ & _ & ?).
  - rewrite (sort_ties GroupResult.totalScore byTotalScore (λ _ _, eq_refl) 0); [done|].
    eapply Forall_impl; [apply groupTotals_unscored|].
    intros g (-> & _). reflexivity.
Qed.

Lemma Forall_imap_inv {A} (P : A → Prop) (g : nat → A → A) (l : list A) :
  (∀ i x, P x → P (g i x)) → Forall P l → Forall P (imap g l).
Proof.
  intros Hg Hl. revert g Hg. induction Hl as [|x l Hx Hl IH]; intros g Hg; csimpl.
  - constructor.
  - constructor; [by apply Hg|]. apply IH. intros i y. apply Hg.
Qed.




(** ** Votes for a project or a group the event no longer has *)

Lemma calculateResults_tally ev votes votes' gw :
  tally ev votes gw = tally ev votes' gw →
  calculateResults ev votes gw = calculateResults ev votes' gw.
Proof.
  intros Ht. unfold calculateResults, projectTotals, groupTotals.
  by rewrite Ht.
Qed.

Lemma Vote_find_middle store1 store2 vote :
  Vote_find (store1 ++ vote :: store2) (Vote.event vote)
  = Vote_find store1 (Vote.event vote) ++ vote :: Vote_find store2 (Vote.event vote).
Proof.
  unfold Vote_find. rewrite filter_app, filter_cons.
  by rewrite decide_True by done.
Qed.

Lemma Set_size_middle (l1 l2 : list string) (x : string) :
  JS.Set_size (l1 ++ x :: l2)
  = if decide (x ∈ l1 ++ l2) then JS.Set_size (l1 ++ l2)
    else S (JS.Set_size (l1 ++ l2)).
Proof.
  unfold JS.Set_size.
  assert ((list_to_set (l1 ++ x :: l2) : gset string)
          = {[x]} ∪ list_to_set (l1 ++ l2)) as ->.
  { apply set_eq. intros y.
    rewrite elem_of_union, elem_of_singleton, !elem_of_list_to_set,
      !elem_of_app, elem_of_cons. tauto. }
  destruct (decide (x ∈ l1 ++ l2)) as [Hin|Hnin].
  - f_equal. apply set_eq. intros y.
    rewrite elem_of_union, elem_of_singleton, elem_of_list_to_set.
    split; [intros [->|?]; done | tauto].
  - rewrite size_union, size_singleton; [done|].
    apply disjoint_singleton_l. by rewrite elem_of_list_to_set.
Qed.

(** C9. A vote whose project id or group id is not among the event's
    embedded projects and groups leaves the whole result of the
    aggregator as it is without the vote, while both result endpoints
    count it in [totalVotes] and enter its [voterSessionId] in the set
    that [totalVoters] measures. *)
Theorem orphan_vote_excluded_but_counted events store1 store2 eventId event vote :
  Event_findById events eventId = Some event →
  Vote.event vote = eventId →
  Vote.project vote ∉ Project._id <$> Event.projects event
  ∨ Vote.group vote ∉ Group._id <$> Event.groups event →
  let votes := Vote_find (store1 ++ store2) eventId in
  let votes' := Vote_find (store1 ++ vote :: store2) eventId in
  (∀ groupWeights,
     calculateResults event votes' groupWeights
     = calculateResults event votes groupWeights)
  ∧ length votes' = S (length votes)
  ∧ totalVoters votes'
    = (if decide (Vote.voterSessionId vote ∈ Vote.voterSessionId <$> votes)
       then totalVoters votes else S (totalVoters votes))
  ∧ (∀ user, Event.owner event = user →
       getResults events (store1 ++ vote :: store2) eventId user
       = mkResponse 200 true None
           (Some (ResultsData (privateSummary event)
                    (calculateResults event votes None)
                    (S (length votes)) (totalVoters votes'))))
  ∧ (Event.isActive event = true → ∀ weights, weights ≠ BadWeights →
       getPublicResults events (store1 ++ vote :: store2) eventId weights
       = mkResponse 200 true None
           (Some (ResultsData (publicSummary event)
                    (calculateResults event votes (groupWeightsOf weights))
                    (S (length votes)) (totalVoters votes')))).
Proof.
  intros Hev <- Horphan votes votes'.
  assert (votes' = Vote_find store1 (Vote.event vote)
                   ++ vote :: Vote_find store2 (Vote.event vote)) as Hvotes'
    by apply Vote_find_middle.
  assert (votes = Vote_find store1 (Vote.event vote)
                  ++ Vote_find store2 (Vote.event vote)) as Hvotes
    by apply filter_app.
  assert (∀ gw, calculateResults event votes' gw = calculateResults event votes gw)
    as Hsame.
  { intros gw. rewrite Hvotes', Hvotes.
    apply calculateResults_tally, tally_orphan, Horphan. }
  assert (length votes' = S (length votes)) as Hlen.
  { rewrite Hvotes', Hvotes, !length_app. simpl. lia. }
  split_and!; [done | done | | |].
  - unfold totalVoters. rewrite Hvotes', Hvotes.
    rewrite (fmap_app _ _ (vote :: _)), fmap_cons, Set_size_middle.
    by rewrite <- fmap_app.
  - intros user Howner. unfold getResults. rewrite Hev.
    rewrite bool_decide_false by (by intros []).
    fold votes'. by rewrite Hsame, Hlen.
  - intros Hactive weights Hw. unfold getPublicResults.
    rewrite Hev, Hactive. fold votes'. rewrite Hsame, Hlen. by destruct weights.
Qed.

Lemma orphan_vote_excluded_but_counted_witness :
  calculateResults Scenario.event
    (Vote_find (Scenario.votes ++ [Scenario.vote "p9" "g1" "s9" 5 5]) "e1") None
  = calculateResults Scenario.event (Vote_find (Scenario.votes ++ []) "e1") None
  ∧ length (Vote_find (Scenario.votes ++ [Scenario.vote "p9" "g1" "s9" 5 5]) "e1")
    = S (length (Vote_find (Scenario.votes ++ []) "e1")).
Proof.
  destruct (orphan_vote_excluded_but_counted [Scenario.event] Scenario.votes []
              "e1" Scenario.event (Scenario.vote "p9" "g1" "s9" 5 5))
    as (Hsame & Hlen & _).
  - reflexivity.
  - reflexivity.
  - left. by apply (bool_decide_unpack _).
  - split; [apply Hsame | apply Hlen].
Defined.

(** ** What the loop leaves in [projectGroupScores] *)

Lemma pgsGet_alter f p g pgs projectId groupId :
  pgsGet (JS.alter (JS.alter f g) p pgs) projectId groupId
  = if decide (p = projectId ∧ g = groupId)
    then f <$> pgsGet pgs projectId groupId
    else pgsGet pgs projectId groupId.
Proof.
  unfold pgsGet. rewrite get_alter.
  destruct (decide (p = projectId)) as [->|Hp].
  - destruct (JS.get projectId pgs) as [inner|]; simpl.
    + rewrite get_alter. destruct (decide (g = groupId)) as [->|Hg].
      * by rewrite decide_True.
      * rewrite decide_False; [done | by intros [_ ?]].
    + by destruct (decide _).
  - rewrite decide_False; [done | by intros [? _]].
Qed.

Lemma get_fill_const {A V} (k : A → string) (c : V) key (l : list A) (o : JS.obj V) :
  key ∈ k <$> l →
  JS.get key (fold_left (λ o x, JS.set (k x) c o) l o) = Some c.
Proof.
  induction l as [|x l IH] using rev_ind; [by intros ?%elem_of_nil|].
  rewrite fmap_app, elem_of_app. csimpl. rewrite list_elem_of_singleton.
  intros Hin. rewrite fold_left_app. simpl. rewrite get_set.
  destruct (decide (k x = key)) as [|Hne]; [done|].
  apply IH. destruct Hin as [?|?]; [done | congruence].
Qed.

Lemma pgsGet_init pids gids projectId groupId :
  projectId ∈ pids → groupId ∈ gids →
  pgsGet (initProjectGroupScores pids gids) projectId groupId
  = Some (GroupScore.mk 0 0).
Proof.
  intros Hp Hg. unfold pgsGet, initProjectGroupScores.
  rewrite (get_fill_const id) by (by rewrite list_fmap_id). simpl.
  apply (get_fill_const id). by rewrite list_fmap_id.
Qed.

Lemma votesOf_snoc projectId groupId votes vote :
  votesOf projectId groupId (votes ++ [vote])
  = votesOf projectId groupId votes
    ++ (if decide (Vote.project vote = projectId ∧ Vote.group vote = groupId)
        then [vote] else []).
Proof. unfold votesOf. by rewrite filter_app, filter_cons, filter_nil. Qed.

Lemma pgsGet_tally ev votes gw projectId groupId :
  projectId ∈ Project._id <$> Event.projects ev →
  groupId ∈ Group._id <$> Event.groups ev →
  pgsGet (projectGroupScores (tally ev votes gw)) projectId groupId
  = Some (GroupScore.mk (sumTotals (votesOf projectId groupId votes))
            (length (votesOf projectId groupId votes))).
Proof.
  intros Hp Hg. induction votes as [|vote votes IH] using rev_ind.
  - apply pgsGet_init; [by apply init_project_keys | by apply (init_group_keys ev gw)].
  - rewrite tally_snoc, votesOf_snoc. unfold countVote. cbv zeta.
    destruct (JS.get (Vote.project vote) _) eqn:Hgp;
      [destruct (JS.get (Vote.group vote) _) eqn:Hgg|]; simpl.
    + rewrite pgsGet_alter, IH.
      destruct (decide (_ ∧ _)) as [_|_]; simpl; [|by rewrite app_nil_r].
      unfold addGroupScore, sumTotals. simpl.
      by rewrite fold_left_app, length_app, Nat.add_1_r.
    + rewrite IH, decide_False, app_nil_r; [done|]. intros [_ <-].
      apply (init_group_keys ev gw) in Hg.
      rewrite <- (tally_group_keys ev votes gw) in Hg.
      apply get_is_Some in Hg. rewrite Hgg in Hg. by destruct Hg.
    + rewrite IH, decide_False, app_nil_r; [done|]. intros [<- _].
      apply init_project_keys in Hp.
      rewrite <- (tally_project_keys ev votes gw) in Hp.
      apply get_is_Some in Hp. rewrite Hgp in Hp. by destruct Hp.
Qed.

(** The entry that [groupScore] reads is there for every project and
    group of the event, and holds the sum and the number of the totals
    of the votes that this group has cast on this project. *)
Lemma groupScore_defined ev votes gw projectId groupId :
  projectId ∈ Project._id <$> Event.projects ev →
  groupId ∈ Group._id <$> Event.groups ev →
  JS.get projectId (projectGroupScores (tally ev votes gw)) ≫= JS.get groupId
  = Some (groupScore (projectGroupScores (tally ev votes gw)) projectId groupId)
  ∧ avgOf (groupScore (projectGroupScores (tally ev votes gw)) projectId groupId)
    = groupAverage votes projectId groupId.
Proof.
  intros Hp Hg. pose proof (pgsGet_tally ev votes gw _ _ Hp Hg) as Hget.
  unfold pgsGet in Hget. unfold groupScore. by rewrite Hget.
Qed.

(** ** [groupAverages] is keyed by group name *)

Lemma fill_ext {A V} (k k' : A → string) (v v' : A → V) (l : list A) (o : JS.obj V) :
  (∀ x, x ∈ l → k x = k' x ∧ v x = v' x) →
  fold_left (λ o x, JS.set (k x) (v x) o) l o
  = fold_left (λ o x, JS.set (k' x) (v' x) o) l o.
Proof.
  revert o. induction l as [|x l IH]; intros o Hl; simpl; [done|].
  destruct (Hl x) as [-> ->]; [apply list_elem_of_here|].
  apply IH. intros y Hy. apply Hl. by apply list_elem_of_further.
Qed.

Lemma fold_left_fmap' {A B C} (f : A → B) (g : C → B → C) (l : list A) (c : C) :
  fold_left g (f <$> l) c = fold_left (λ c x, g c (f x)) l c.
Proof. revert c. induction l as [|x l IH]; intros c; csimpl; [done | apply IH]. Qed.

Lemma get_pairs_NoDup {A V} (k : A → string) (v : A → V) (l : list A) x :
  NoDup (k <$> l) → x ∈ l → JS.get (k x) ((λ y, (k y, v y)) <$> l) = Some (v x).
Proof.
  induction l as [|y l IH]; csimpl; [by intros _ ?%elem_of_nil|].
  intros [Hy Hl]%NoDup_cons [->|Hx]%elem_of_cons.
  - by rewrite decide_True.
  - rewrite decide_False; [by apply IH|].
    intros Heq. apply Hy. rewrite Heq. by apply list_elem_of_fmap_2.
Qed.

Lemma tally_group_keys_NoDup ev votes gw :
  NoDup (Group._id <$> Event.groups ev) →
  JS.keys (groupResults (tally ev votes gw)) = Group._id <$> Event.groups ev.
Proof.
  intros Hnd. rewrite tally_group_keys. unfold initGroupResults, JS.keys.
  rewrite (fill_NoDup Group._id (newGroupResult gw)) by done.
  rewrite <- list_fmap_compose. by apply list_fmap_ext.
Qed.

Lemma groupIdToName_NoDup ev votes gw g :
  NoDup (Group._id <$> Event.groups ev) → g ∈ Event.groups ev →
  JS.get (Group._id g) (groupIdToName (tally ev votes gw)) = Some (Group.name g).
Proof.
  intros Hnd Hg. rewrite tally_groupIdToName. unfold initGroupIdToName.
  rewrite (fill_NoDup Group._id Group.name) by done.
  by apply (get_pairs_NoDup Group._id Group.name).
Qed.

(** The averages dictionary a project record ends up with. *)
Lemma setAverages_groupAverages ev votes gw key p0 :
  NoDup (Group._id <$> Event.groups ev) →
  key ∈ Project._id <$> Event.projects ev →
  ProjectResult.groupAverages (setAverages (tally ev votes gw) key p0)
  = fold_left (λ o g, JS.set (Group.name g) (groupAverage votes key (Group._id g)) o)
      (Event.groups ev) (ProjectResult.groupAverages p0).
Proof.
  intros Hnd Hkey. simpl.
  rewrite tally_group_keys_NoDup, fold_left_fmap' by done.
  apply fill_ext. intros g Hg. split.
  - by rewrite groupIdToName_NoDup.
  - apply groupScore_defined; [done | by apply list_elem_of_fmap_2].
Qed.

Lemma init_projectStatic ev :
  Forall (λ kv, ProjectResult.id kv.2 = kv.1 ∧ ProjectResult.groupAverages kv.2 = [])
    (initProjectResults ev).
Proof.
  unfold initProjectResults.
  by apply (Forall_fill Project._id newProjectResult).
Qed.

Lemma tally_project_entry ev votes gw key p0 :
  (key, p0) ∈ projectResults (tally ev votes gw) →
  ProjectResult.id p0 = key ∧ ProjectResult.groupAverages p0 = []
  ∧ key ∈ Project._id <$> Event.projects ev.
Proof.
  intros Hin. pose proof Hin as Hst.
  apply (list_elem_of_fmap_2 projectStatic) in Hst.
  rewrite tally_projectStatic in Hst.
  apply list_elem_of_fmap in Hst as ([k' p'] & [= <- Hid Hga] & Hin').
  pose proof (init_projectStatic ev) as Hinit. rewrite Forall_forall in Hinit.
  destruct (Hinit _ Hin') as [Hid' Hga']. simpl in *. split_and!; [congruence..|].
  apply init_project_keys. unfold JS.keys.
  by apply (list_elem_of_fmap_2 fst) in Hin'.
Qed.

Lemma groupAverageOf_surviving ev votes gw project name :
  NoDup (Group._id <$> Event.groups ev) →
  project ∈ projects (calculateResults ev votes gw) →
  groupAverageOf project name
  = survivingAverage ev votes (ProjectResult.id project) name.
Proof.
  intros Hnd (i & p & (key & p0 & Hin & ->)%projectTotals_elem & ->)%projects_elem.
  apply tally_project_entry in Hin as (Hid & Hga & Hkey).
  unfold groupAverageOf, survivingAverage, lastNamed. simpl.
  change (fold_left _ (JS.keys (groupResults (tally ev votes gw))) _)
    with (ProjectResult.groupAverages (setAverages (tally ev votes gw) key p0)).
  rewrite setAverages_groupAverages, Hga, Hid by done.
  rewrite (get_fill Group.name (λ g, groupAverage votes key (Group._id g))).
  by destruct (last _).
Qed.

Lemma filter_none {A} (P : A → Prop) `{!∀ x, Decision (P x)} (l : list A) :
  Forall (λ x, ¬ P x) l → filter P l = [].
Proof.
  induction 1 as [|x l Hx _ IH]; [done|].
  by rewrite filter_cons, decide_False.
Qed.

Lemma lastNamed_later l1 g1 l2 g2 l3 :
  Group.name g1 = Group.name g2 →
  Forall (λ g, Group.name g ≠ Group.name g2) l3 →
  lastNamed (l1 ++ g1 :: l2 ++ g2 :: l3) (Group.name g1) = Some g2.
Proof.
  intros -> Hl3. unfold lastNamed.
  rewrite (app_comm_cons l2), app_assoc, filter_app, filter_cons.
  rewrite decide_True by done. rewrite (filter_none _ l3) by done.
  apply last_snoc.
Qed.

Lemma lastNamed_unique groups g :
  NoDup (Group.name <$> groups) → g ∈ groups →
  lastNamed groups (Group.name g) = Some g.
Proof.
  unfold lastNamed. induction groups as [|g0 groups IH]; [by intros _ ?%elem_of_nil|].
  csimpl. intros [Hg0 Hnd]%NoDup_cons [->|Hin]%elem_of_cons; rewrite filter_cons.
  - rewrite decide_True by done. rewrite filter_none; [done|].
    apply Forall_forall. intros g' Hg' Heq. apply Hg0. rewrite <- Heq.
    by apply list_elem_of_fmap_2.
  - rewrite decide_False; [by apply IH|].
    intros Heq. apply Hg0. rewrite Heq. by apply list_elem_of_fmap_2.
Qed.

(** With distinct group names every name holds its own group's average:
    the mean of the totals of the votes the group has cast on the
    project. *)
Lemma groupAverageOf_own ev votes gw project g :
  NoDup (Group._id <$> Event.groups ev) →
  NoDup (Group.name <$> Event.groups ev) →
  project ∈ projects (calculateResults ev votes gw) →
  g ∈ Event.groups ev →
  groupAverageOf project (Group.name g)
  = groupAverage votes (ProjectResult.id project) (Group._id g).
Proof.
  intros Hids Hnames Hproject Hg.
  rewrite (groupAverageOf_surviving ev votes gw) by done.
  unfold survivingAverage. by rewrite lastNamed_unique.
Qed.

Lemma groupTotals_event ev votes gw :
  NoDup (Group._id <$> Event.groups ev) →
  groupInfo <$> groupTotals ev votes gw
  = (λ g, (Group._id g, Group.name g, effectiveWeight gw g)) <$> Event.groups ev.
Proof.
  intros Hnd. rewrite groupTotals_info. unfold initGroupResults.
  rewrite (fill_NoDup Group._id (newGroupResult gw)) by done.
  rewrite <- list_fmap_compose. by apply list_fmap_ext.
Qed.

(** ** The final score *)

Lemma totalWeight_event ev votes gw :
  NoDup (Group._id <$> Event.groups ev) →
  totalWeight (groupTotals ev votes gw) = weightTotal ev gw.
Proof.
  intros Hnd. unfold totalWeight, weightTotal. apply Qsum_ext.
  transitivity ((λ s : string * string * Q, s.2)
                  <$> (groupInfo <$> groupTotals ev votes gw)).
  - rewrite <- list_fmap_compose. by apply list_fmap_ext.
  - rewrite groupTotals_event, <- list_fmap_compose by done. by apply list_fmap_ext.
Qed.

Lemma weightedSum_event ev votes gw project :
  NoDup (Group._id <$> Event.groups ev) →
  project ∈ projects (calculateResults ev votes gw) →
  weightedSum project (groupTotals ev votes gw)
  = weightedAverages ev votes gw (ProjectResult.id project).
Proof.
  intros Hnd Hproject. unfold weightedSum, weightedAverages. apply Qsum_ext.
  transitivity ((λ s : string * string * Q, groupAverageOf project s.1.2 * s.2)
                  <$> (groupInfo <$> groupTotals ev votes gw)).
  - rewrite <- list_fmap_compose. by apply list_fmap_ext.
  - rewrite groupTotals_event, <- list_fmap_compose by done.
    apply list_fmap_ext. intros _ g _. simpl.
    by rewrite (groupAverageOf_surviving ev votes gw).
Qed.

Lemma weightedAverages_own ev votes gw projectId :
  NoDup (Group.name <$> Event.groups ev) →
  weightedAverages ev votes gw projectId = weightedOwnAverages ev votes gw projectId.
Proof.
  intros Hnames. unfold weightedAverages, weightedOwnAverages. apply Qsum_ext.
  apply list_fmap_ext. intros _ g Hg%list_elem_of_lookup_2.
  unfold survivingAverage. by rewrite lastNamed_unique.
Qed.






(** Judges-like weights 70 and 30 with averages 10 and 4, but one name:
    the record keeps 4 only and the final score is 4, not 8.2. *)
Example shared_name_final_score :
  ∃ project,
    projects (calculateResults Scenario.juries Scenario.juryVotes None) !! 0%nat
    = Some project
    ∧ ProjectResult.groupAverages project = [("Jury", 4 # 1)]
    ∧ groupAverage Scenario.juryVotes "p1" "g1" == 10
    ∧ groupAverage Scenario.juryVotes "p1" "g2" == 4
    ∧ ProjectResult.finalScore project == 4.
Proof. eexists. split; [reflexivity|]. by vm_compute. Qed.

(** What [setFinalScore] reads under a group's name has been written. *)
Lemma groupAverages_defined ev votes gw project group :
  NoDup (Group._id <$> Event.groups ev) →
  project ∈ projects (calculateResults ev votes gw) →
  group ∈ groupTotals ev votes gw →
  is_Some (JS.get (GroupResult.name group) (ProjectResult.groupAverages project)).
Proof.
  intros Hnd (i & p & (key & p0 & Hin & ->)%projectTotals_elem & ->)%projects_elem
    (g0 & Hg0 & [= _ -> _])%groupTotals_weight.
  apply tally_project_entry in Hin as (Hid & Hga & Hkey).
  change (ProjectResult.groupAverages (rankProject i _))
    with (ProjectResult.groupAverages (setAverages (tally ev votes gw) key p0)).
  rewrite setAverages_groupAverages by done.
  apply get_is_Some, (keys_fill Group.name). right. by apply list_elem_of_fmap_2.
Qed.

(** ** Vote intake *)

Lemma validateScores_None criteria entries :
  validateScores criteria entries = None ↔ Forall (λ kv, ¬ offending criteria kv) entries.
Proof.
  induction entries as [|[k s] entries IH]; simpl; [by split|].
  rewrite Forall_cons, <- IH. unfold offending, unknownCriterion, outOfRange. simpl.
  destruct (Criteria_find criteria k) as [c|] eqn:Hc.
  - destruct (JS.lt s 1 || JS.gt s (Criterion.maxScore c)) eqn:Hrange.
    + split; [done|]. intros [Hno _]. exfalso. apply Hno. right. exists c.
      split; [done|]. apply orb_true_iff in Hrange as [?%lt_true|?%gt_true]; auto.
    + split; [|by intros [_ ?]]. intros Hrest. split; [|done].
      apply orb_false_iff in Hrange as [Hlt Hgt].
      intros [?|(c' & [= <-] & [Hs|Hs])]; [done| |].
      * apply lt_true in Hs. congruence.
      * apply gt_true in Hs. congruence.
  - split; [done|]. intros [Hno _]. exfalso. apply Hno. by left.
Qed.

(** The first offending entry decides. *)
Lemma validateScores_first criteria good kv rest :
  Forall (λ kv, ¬ offending criteria kv) good → offending criteria kv →
  validateScores criteria (good ++ kv :: rest) = Some (verdict criteria kv).
Proof.
  intros Hgood Hkv. induction Hgood as [|[k s] good Hks _ IH]; simpl.
  - destruct kv as [k s]. unfold verdict. simpl.
    destruct Hkv as [Hu|(c & Hc & Hs)].
    + unfold unknownCriterion in Hu. simpl in Hu. by rewrite Hu.
    + simpl in *. rewrite Hc.
      replace (JS.lt s 1 || JS.gt s (Criterion.maxScore c)) with true; [done|].
      symmetry. apply orb_true_iff.
      destruct Hs as [?|?]; [left; by apply lt_true | right; by apply gt_true].
  - pose proof (proj2 (validateScores_None criteria [(k, s)])) as Hone.
    simpl in Hone.
    destruct (Criteria_find criteria k) as [c|].
    + destruct (JS.lt s 1 || JS.gt s (Criterion.maxScore c)); [|done].
      by discriminate Hone; repeat constructor.
    + by discriminate Hone; repeat constructor.
Qed.

Lemma validateScores_one criteria kv m :
  validateScores criteria [kv] = Some m → offending criteria kv.
Proof.
  destruct kv as [k s]. unfold offending, unknownCriterion, outOfRange. simpl.
  destruct (Criteria_find criteria k) as [c|]; [|by left].
  destruct (JS.lt s 1 || JS.gt s (Criterion.maxScore c)) eqn:Hrange; [|done].
  intros _. right. exists c. split; [done|].
  apply orb_true_iff in Hrange as [?%lt_true|?%gt_true]; auto.
Qed.

Lemma offending_first criteria entries :
  Exists (offending criteria) entries →
  ∃ good kv rest, entries = good ++ kv :: rest
    ∧ Forall (λ kv, ¬ offending criteria kv) good ∧ offending criteria kv.
Proof.
  induction entries as [|kv entries IH]; [by intros ?%Exists_nil|].
  intros Hex.
  destruct (validateScores criteria [kv]) as [m|] eqn:Hkv.
  - exists [], kv, entries. split_and!; [done | constructor |].
    by eapply validateScores_one.
  - apply validateScores_None in Hkv. apply Forall_cons in Hkv as [Hkv _].
    apply Exists_cons in Hex as [?|Hex]; [done|].
    destruct (IH Hex) as (good & kv' & rest & -> & Hgood & Hkv').
    exists (kv :: good), kv', rest. split_and!; [done | by constructor | done].
Qed.

Lemma checkVote_inr event store req sid voteData vote :
  checkVote event store req sid voteData = inr vote →
  vote = voteOf req sid voteData
  ∧ resolves event req voteData
  ∧ (∃ entries, VoteData.scores voteData = Some entries
       ∧ validateScores (Event.criteria event) entries = None)
  ∧ Vote_findOne store (VoteRequest.eventId req) sid (VoteData.projectId voteData)
    = None.
Proof.
  unfold checkVote, resolves, voteOf. cbv zeta.
  destruct (Projects_id _ _) as [project|]; [|done].
  destruct (Groups_id _ _) as [group|]; [|done].
  destruct (passwordRequired group && _) eqn:Hpw; [done|].
  destruct (VoteData.scores voteData) as [entries|]; [|done].
  destruct (validateScores _ entries) eqn:Hvalid; [done|].
  destruct (Vote_findOne _ _ _ _) eqn:Hfind; [done|].
  intros [= <-]. split_and!; eauto.
Qed.

Lemma checkVote_inl event store req sid voteData response :
  checkVote event store req sid voteData = inl response →
  success response = false.
Proof.
  unfold checkVote. cbv zeta.
  repeat (case_match; try done); by intros [= <-].
Qed.

Lemma Vote_save_Some store vote store' :
  Vote_save store vote = Some store' → store' = store ++ [vote].
Proof. unfold Vote_save. case_match; [by intros [= <-] | done]. Qed.

Section Loop.
Context (event : Event.t) (req : VoteRequest.t) (sid : string).

Lemma processVotes_accepted pre store saved store' n :
  processVotes event req sid store saved pre = (accepted sid n, store') →
  store' = store ++ (voteOf req sid <$> pre)
  ∧ n = (length saved + length pre)%nat
  ∧ ∀ rest,
      processVotes event req sid store saved (pre ++ rest)
      = processVotes event req sid store' (saved ++ (voteOf req sid <$> pre)) rest.
Proof.
  revert store saved. induction pre as [|d pre IH]; intros store saved; simpl.
  - intros [= -> ->]. rewrite !app_nil_r. split_and!; [done | lia | done].
  - destruct (checkVote event store req sid d) as [r|vote] eqn:Hcheck.
    { intros [= -> _]. by apply checkVote_inl in Hcheck. }
    pose proof Hcheck as (-> & _)%checkVote_inr.
    destruct (Vote_save store _) as [store1|] eqn:Hsave; [|done].
    pose proof Hsave as ->%Vote_save_Some.
    intros (-> & -> & Hrest)%IH.
    split_and!; [by rewrite <- app_assoc | rewrite length_app; simpl; lia |].
    intros rest. rewrite Hrest. by rewrite <- !app_assoc.
Qed.

(** Either every entry is accepted, or the loop ends at the first entry
    that is refused or cannot be saved, with the earlier ones saved. *)
Lemma processVotes_stops votes store saved response store' :
  processVotes event req sid store saved votes = (response, store') →
  (response = accepted sid (length saved + length votes)
   ∧ store' = store ++ (voteOf req sid <$> votes))
  ∨ ∃ pre e post,
      votes = pre ++ e :: post
      ∧ processVotes event req sid store saved pre
        = (accepted sid (length saved + length pre), store')
      ∧ (checkVote event store' req sid e = inl response
         ∨ (checkVote event store' req sid e = inr (voteOf req sid e)
            ∧ Vote_save store' (voteOf req sid e) = None
            ∧ response = failure 500 ServerError)).
Proof.
  revert store saved. induction votes as [|d votes IH]; intros store saved; simpl.
  - intros [= <- <-]. left. by rewrite Nat.add_0_r, app_nil_r.
  - destruct (checkVote event store req sid d) as [r|vote] eqn:Hcheck.
    { intros [= <- <-]. right. exists [], d, votes. simpl.
      rewrite Nat.add_0_r. eauto. }
    pose proof Hcheck as (-> & _)%checkVote_inr.
    destruct (Vote_save store _) as [store1|] eqn:Hsave.
    + apply Vote_save_Some in Hsave as Hstore1. subst store1.
      intros [[-> ->]|(pre & e & post & -> & Hpre & Hend)]%IH.
      * left. rewrite length_app, <- app_assoc. simpl. split; [f_equal; lia | done].
      * right. exists (d :: pre), e, post. simpl. rewrite Hcheck, Hsave.
        rewrite length_app in Hpre. simpl in Hpre.
        replace (length saved + S (length pre))%nat
          with (length saved + 1 + length pre)%nat by lia.
        eauto.
    + intros [= <- <-]. right. exists [], d, votes. simpl.
      rewrite Nat.add_0_r. eauto 10.
Qed.

End Loop.

Lemma submitVote_reaches env events store req event pre rest store' :
  reaches env events store req event pre store' →
  VoteRequest.votes req = pre ++ rest →
  store' = store ++ (voteOf req (uuidv4 env) <$> pre)
  ∧ submitVote env events store req
    = processVotes event req (uuidv4 env) store'
        (voteOf req (uuidv4 env) <$> pre) rest.
Proof.
  intros (Hvalid & Hev & Hactive & Hopen & Hpre) Hvotes.
  apply processVotes_accepted in Hpre as (Hstore' & _ & Hrest).
  split; [done|]. unfold submitVote.
  rewrite Hvalid, Hev, Hactive, Hopen. simpl.
  unfold voteValidation in Hvalid.
  apply andb_true_iff in Hvalid as [[Hlen%bool_decide_eq_true _]%andb_true_iff _].
  rewrite bool_decide_false by lia. by rewrite Hvotes, Hrest.
Qed.

Lemma submitVote_check_fails env events store req event pre e post store' response :
  reaches env events store req event pre store' →
  VoteRequest.votes req = pre ++ e :: post →
  checkVote event store' req (uuidv4 env) e = inl response →
  submitVote env events store req = (response, store').
Proof.
  intros Hreach Hvotes Hcheck.
  destruct (submitVote_reaches _ _ _ _ _ _ _ _ Hreach Hvotes) as [_ ->].
  simpl. by rewrite Hcheck.
Qed.

(** C4. When the check of an entry fails, the request ends with that
    failure: the collection holds the votes of the entries before it,
    which stay saved, and nothing of the entries after it. *)
Theorem batch_stops_at_first_failure
    env events store req event pre e post store' response :
  reaches env events store req event pre store' →
  VoteRequest.votes req = pre ++ e :: post →
  checkVote event store' req (uuidv4 env) e = inl response →
  submitVote env events store req = (response, store')
  ∧ store' = store ++ (voteOf req (uuidv4 env) <$> pre)
  ∧ success response = false.
Proof.
  intros Hreach Hvotes Hcheck. split_and!.
  - by eapply submitVote_check_fails.
  - by destruct (submitVote_reaches _ _ _ _ _ _ _ _ Hreach Hvotes).
  - by eapply checkVote_inl.
Qed.

Lemma batch_stops_at_first_failure_witness :
  submitVote Scenario.env [Scenario.event] [] Scenario.eleven
  = (failure 400 (ScoreOutOfRange "Creativity" 10),
     [voteOf Scenario.eleven (uuidv4 Scenario.env)
        (Scenario.ballot "p1" "g1" [("Creativity", 5)])]).
Proof.
  refine (proj1 (batch_stops_at_first_failure Scenario.env [Scenario.event] []
            Scenario.eleven Scenario.event
            [Scenario.ballot "p1" "g1" [("Creativity", 5)]]
            (Scenario.ballot "p2" "g1" [("Creativity", 11)])
            [Scenario.ballot "p2" "g1" [("Execution", 3)]] _ _ _ _ _)).
  - by repeat split.
  - reflexivity.
  - reflexivity.
Defined.

Lemma checkVote_scores event store req sid e entries :
  resolves event req e → VoteData.scores e = Some entries →
  checkVote event store req sid e
  = match validateScores (Event.criteria event) entries with
    | Some m => inl (failure 400 m)
    | None =>
        match Vote_findOne store (VoteRequest.eventId req) sid
                (VoteData.projectId e) with
        | Some _ =>
            inl (failure 400
                   (AlreadySubmitted
                      (from_option Project.name EmptyString
                         (Projects_id (Event.projects event)
                            (VoteData.projectId e)))))
        | None => inr (voteOf req sid e)
        end
    end.
Proof.
  intros [[project Hp] (group & Hg & Hpw)] Hscores.
  unfold checkVote, voteOf. cbv zeta. rewrite Hp, Hg, Hpw, Hscores. simpl.
  by repeat case_match.
Qed.

(** C5. For an entry that the loop gets to and that names a project and
    a group of the event (with the group's password, if it has one): if
    a key of its [scores] names no criterion of the event, or a value is
    outside 1..maxScore of its criterion, the request is refused with
    status 400; the message is about the first such pair in the order of
    the mapping, [Criterion 'k' not found] if its key names no criterion
    and [Score for 'k' must be between 1 and maxScore] otherwise; no
    vote is saved for the entry. *)
Theorem offending_scores_rejected
    env events store req event pre e post store' entries :
  reaches env events store req event pre store' →
  VoteRequest.votes req = pre ++ e :: post →
  resolves event req e →
  VoteData.scores e = Some entries →
  Exists (offending (Event.criteria event)) entries →
  ∃ good k s rest,
    entries = good ++ (k, s) :: rest
    ∧ Forall (λ kv, ¬ offending (Event.criteria event) kv) good
    ∧ ((Criteria_find (Event.criteria event) k = None
        ∧ submitVote env events store req
          = (failure 400 (CriterionNotFound k), store'))
       ∨ (∃ criterion,
            Criteria_find (Event.criteria event) k = Some criterion
            ∧ (s < 1 ∨ Criterion.maxScore criterion < s)
            ∧ submitVote env events store req
              = (failure 400 (ScoreOutOfRange k (Criterion.maxScore criterion)),
                 store'))).
Proof.
  intros Hreach Hvotes Hres Hscores Hex.
  destruct (offending_first _ _ Hex) as (good & [k s] & rest & -> & Hgood & Hks).
  exists good, k, s, rest. split_and!; [done..|].
  assert (submitVote env events store req
          = (failure 400 (verdict (Event.criteria event) (k, s)), store')) as Hsubmit.
  { eapply submitVote_check_fails; [done..|].
    rewrite (checkVote_scores _ _ _ _ _ _ Hres Hscores).
    by rewrite (validateScores_first _ _ _ _ Hgood Hks). }
  unfold verdict in Hsubmit. simpl in Hsubmit.
  destruct Hks as [Hu|(c & Hc & Hs)].
  - left. unfold unknownCriterion in Hu. simpl in Hu. by rewrite Hu in Hsubmit.
  - right. simpl in *. exists c. by rewrite Hc in Hsubmit.
Qed.

Lemma offending_scores_rejected_witness :
  ∃ good k s rest,
    [("Creativity", 11)] = good ++ (k, s) :: rest
    ∧ Forall (λ kv, ¬ offending (Event.criteria Scenario.event) kv) good
    ∧ ((Criteria_find (Event.criteria Scenario.event) k = None
        ∧ submitVote Scenario.env [Scenario.event] [] Scenario.eleven
          = (failure 400 (CriterionNotFound k),
             [voteOf Scenario.eleven (uuidv4 Scenario.env)
                (Scenario.ballot "p1" "g1" [("Creativity", 5)])]))
       ∨ (∃ criterion,
            Criteria_find (Event.criteria Scenario.event) k = Some criterion
            ∧ (s < 1 ∨ Criterion.maxScore criterion < s)
            ∧ submitVote Scenario.env [Scenario.event] [] Scenario.eleven
              = (failure 400 (ScoreOutOfRange k (Criterion.maxScore criterion)),
                 [voteOf Scenario.eleven (uuidv4 Scenario.env)
                    (Scenario.ballot "p1" "g1" [("Creativity", 5)])]))).
Proof.
  apply (offending_scores_rejected Scenario.env [Scenario.event] []
           Scenario.eleven Scenario.event
           [Scenario.ballot "p1" "g1" [("Creativity", 5)]]
           (Scenario.ballot "p2" "g1" [("Creativity", 11)])
           [Scenario.ballot "p2" "g1" [("Execution", 3)]]).
  - by repeat split.
  - reflexivity.
  - split; [by eexists | eexists; by split].
  - reflexivity.
  - apply Exists_cons_hd. right. eexists. split; [reflexivity|].
    right. by vm_compute.
Defined.

(** A score of 11 against a criterion whose maximum is 10. *)
Example score_eleven_rejected :
  submitVote Scenario.env [Scenario.event] []
    (VoteRequest.mk "e1" [Scenario.ballot "p1" "g1" [("Creativity", 11)]] None None)
  = (failure 400 (ScoreOutOfRange "Creativity" 10), []).
Proof. reflexivity. Qed.

Lemma voteValidation_scores req e :
  e ∈ VoteRequest.votes req → VoteData.scores e = None →
  voteValidation req = false.
Proof.
  intros Hin Hnone. unfold voteValidation.
  apply andb_false_iff. left. apply andb_false_iff. right.
  apply not_true_iff_false. rewrite forallb_forall. intros Hall.
  specialize (Hall e). rewrite <- list_elem_of_In in Hall. specialize (Hall Hin).
  rewrite Hnone in Hall.
  apply andb_true_iff in Hall as [_ Hs%bool_decide_eq_true]. by destruct Hs.
Qed.

Lemma processVotes_grows event req sid store saved votes :
  ∃ new, (processVotes event req sid store saved votes).2 = store ++ new.
Proof.
  destruct (processVotes event req sid store saved votes) as [r s] eqn:Hp.
  apply processVotes_stops in Hp as [[_ ->]|(pre & e & post & _ & Hpre & _)].
  - eauto.
  - apply processVotes_accepted in Hpre as [-> _]. eauto.
Qed.

Lemma Vote_save_voteOf store req sid e :
  scoresValidator (Vote.scores (voteOf req sid e)) = true →
  voteValidation req = true →
  Vote_findOne store (VoteRequest.eventId req) sid (VoteData.projectId e) = None →
  Vote_save store (voteOf req sid e) = Some (store ++ [voteOf req sid e]).
Proof.
  intros Hscores Hvalid Hfind. unfold Vote_save. rewrite Hscores.
  unfold voteValidation in Hvalid. apply andb_true_iff in Hvalid as [_ Hname].
  change (Vote.voterName (voteOf req sid e)) with (VoteRequest.voterName req).
  change (Vote_findOne store (Vote.event (voteOf req sid e))
            (Vote.voterSessionId (voteOf req sid e))
            (Vote.project (voteOf req sid e)))
    with (Vote_findOne store (VoteRequest.eventId req) sid (VoteData.projectId e)).
  by rewrite Hname, Hfind.
Qed.

(** C6, as the code has it. [scores] must be an object: a request with
    an entry whose [scores] is missing or is no object is refused with
    [Validation errors] before anything is saved.  An empty object is
    accepted: for an entry that the loop gets to, that resolves and for
    which the session has no vote on the project yet, a vote with no
    scores is saved, and if the entry is the last one the request is
    answered 201. *)
Theorem scores_object_required_empty_accepted env events store req :
  (∀ e, e ∈ VoteRequest.votes req → VoteData.scores e = None →
     submitVote env events store req = (failure 400 ValidationErrors, store))
  ∧ (∀ event pre e post store',
       reaches env events store req event pre store' →
       VoteRequest.votes req = pre ++ e :: post →
       resolves event req e →
       VoteData.scores e = Some [] →
       Vote_findOne store' (VoteRequest.eventId req) (uuidv4 env)
         (VoteData.projectId e) = None →
       let vote := voteOf req (uuidv4 env) e in
       Vote.scores vote = []
       ∧ checkVote event store' req (uuidv4 env) e = inr vote
       ∧ Vote_save store' vote = Some (store' ++ [vote])
       ∧ vote ∈ (submitVote env events store req).2
       ∧ (post = [] →
          submitVote env events store req
          = (accepted (uuidv4 env) (S (length pre)), store' ++ [vote]))).
Proof.
  split.
  - intros e Hin Hnone. unfold submitVote.
    by rewrite (voteValidation_scores req e).
  - intros event pre e post store' Hreach Hvotes Hres Hscores Hfind vote.
    assert (Vote.scores vote = []) as Hempty.
    { unfold vote, voteOf. simpl. by rewrite Hscores. }
    assert (checkVote event store' req (uuidv4 env) e = inr vote) as Hcheck.
    { rewrite (checkVote_scores _ _ _ _ _ _ Hres Hscores). simpl. by rewrite Hfind. }
    assert (Vote_save store' vote = Some (store' ++ [vote])) as Hsave.
    { apply Vote_save_voteOf; [by fold vote; rewrite Hempty | apply Hreach | done]. }
    destruct (submitVote_reaches _ _ _ _ _ _ _ _ Hreach Hvotes) as [_ Hsubmit].
    simpl in Hsubmit. fold vote in Hsubmit. rewrite Hcheck, Hsave in Hsubmit.
    split_and!; [done..| |].
    + rewrite Hsubmit.
      destruct (processVotes_grows event req (uuidv4 env) (store' ++ [vote])
                  ((voteOf req (uuidv4 env) <$> pre) ++ [vote]) post) as [new ->].
      rewrite !elem_of_app, list_elem_of_singleton. auto.
    + intros ->. rewrite Hsubmit. simpl.
      by rewrite length_app, length_fmap, Nat.add_1_r.
Qed.

Lemma empty_scores_accepted :
  submitVote Scenario.env [Scenario.event] [] Scenario.emptyBallot
  = (accepted (uuidv4 Scenario.env) 1,
     [{| Vote.event := "e1"; Vote.project := "p1"; Vote.group := "g1";
         Vote.scores := [];
         Vote.voterSessionId := uuidv4 Scenario.env;
         Vote.voterName := None |}]).
Proof. reflexivity. Qed.

(** The request [{ votes: [{ projectId, groupId, scores: {} }] }] is
    answered 201 and a vote without scores is saved. *)
Lemma emptyScores_counterexample :
  ¬ emptyScores_as_stated Scenario.env [Scenario.event] [] Scenario.emptyBallot.
Proof.
  intros Hclaim.
  destruct (Hclaim (Scenario.ballot "p1" "g1" [])) as [Hstatus _];
    [apply list_elem_of_here | reflexivity |].
  rewrite empty_scores_accepted in Hstatus. discriminate Hstatus.
Qed.

(** ** The lookup for an earlier vote of the session *)

Lemma Vote_findOne_is_Some store event sid project :
  is_Some (Vote_findOne store event sid project)
  ↔ ∃ v, v ∈ store ∧ Vote.event v = event ∧ Vote.voterSessionId v = sid
         ∧ Vote.project v = project.
Proof.
  unfold Vote_findOne. rewrite fmap_is_Some. split.
  - intros [[i v] Hfind]. apply list_find_Some in Hfind as (Hi & Hv & _).
    exists v. split; [|done]. apply list_elem_of_lookup. eauto.
  - intros (v & Hin & Hv). by eapply list_find_elem_of.
Qed.

Lemma checkVote_already event store req sid e response projectName :
  checkVote event store req sid e = inl response →
  message response = Some (AlreadySubmitted projectName) →
  is_Some (Vote_findOne store (VoteRequest.eventId req) sid (VoteData.projectId e)).
Proof.
  unfold checkVote. cbv zeta.
  destruct (Projects_id _ _) as [project|]; [|by intros [= <-]].
  destruct (Groups_id _ _) as [group|]; [|by intros [= <-]].
  destruct (passwordRequired group && _); [by intros [= <-]|].
  destruct (VoteData.scores e) as [entries|]; [|by intros [= <-]].
  destruct (validateScores _ entries) as [m|] eqn:Hvalid.
  { intros [= <-]. simpl. intros [= ->].
    clear -Hvalid. exfalso. induction entries as [|[k s] entries IH]; [done|].
    simpl in Hvalid. repeat case_match; simplify_eq; auto. }
  destruct (Vote_findOne _ _ _ _); [done | by intros [= <-]].
Qed.

Lemma findOne_within_batch env store req pre projectId :
  (∀ v, v ∈ store → Vote.voterSessionId v ≠ uuidv4 env) →
  is_Some (Vote_findOne (store ++ (voteOf req (uuidv4 env) <$> pre))
             (VoteRequest.eventId req) (uuidv4 env) projectId)
  ↔ projectId ∈ VoteData.projectId <$> pre.
Proof.
  intros Hfresh. rewrite Vote_findOne_is_Some. split.
  - intros (v & [Hin|Hin]%elem_of_app & _ & Hsid & Hproject).
    + by destruct (Hfresh v Hin).
    + apply list_elem_of_fmap in Hin as (d & -> & Hd). simpl in Hproject.
      subst projectId. by apply list_elem_of_fmap_2.
  - intros (d & -> & Hd)%list_elem_of_fmap.
    exists (voteOf req (uuidv4 env) d). split; [|done].
    apply elem_of_app. right. by apply list_elem_of_fmap_2.
Qed.

(** C3, as the code has it. With a session id that no stored vote
    carries, the lookup for an entry finds a vote exactly when an earlier
    entry of the same batch names the same project; such an entry, once
    it has passed the checks before the lookup, is answered [Vote already
    submitted].  The lookup finds nothing for every entry, and the
    request is never answered that way, when the batch names every
    project once. *)
Theorem duplicate_lookup_within_batch env events store req :
  (∀ v, v ∈ store → Vote.voterSessionId v ≠ uuidv4 env) →
  (∀ event pre e post store',
     reaches env events store req event pre store' →
     VoteRequest.votes req = pre ++ e :: post →
     is_Some (Vote_findOne store' (VoteRequest.eventId req) (uuidv4 env)
                (VoteData.projectId e))
     ↔ VoteData.projectId e ∈ VoteData.projectId <$> pre)
  ∧ (∀ event pre e post store' project entries,
       reaches env events store req event pre store' →
       VoteRequest.votes req = pre ++ e :: post →
       resolves event req e →
       Projects_id (Event.projects event) (VoteData.projectId e) = Some project →
       VoteData.scores e = Some entries →
       validateScores (Event.criteria event) entries = None →
       VoteData.projectId e ∈ VoteData.projectId <$> pre →
       submitVote env events store req
       = (failure 400 (AlreadySubmitted (Project.name project)), store'))
  ∧ (NoDup (VoteData.projectId <$> VoteRequest.votes req) →
     ∀ projectName,
       message (submitVote env events store req).1
       ≠ Some (AlreadySubmitted projectName)).
Proof.
  intros Hfresh.
  assert (∀ event pre e post store',
            reaches env events store req event pre store' →
            VoteRequest.votes req = pre ++ e :: post →
            is_Some (Vote_findOne store' (VoteRequest.eventId req) (uuidv4 env)
                       (VoteData.projectId e))
            ↔ VoteData.projectId e ∈ VoteData.projectId <$> pre) as Hlookup.
  { intros event pre e post store' Hreach Hvotes.
    destruct (submitVote_reaches _ _ _ _ _ _ _ _ Hreach Hvotes) as [-> _].
    by apply findOne_within_batch. }
  split_and!; [done | |].
  - intros event pre e post store' project entries
      Hreach Hvotes Hres Hproject Hscores Hvalid Hrepeat.
    eapply submitVote_check_fails; [done..|].
    rewrite (checkVote_scores _ _ _ _ _ _ Hres Hscores), Hvalid, Hproject.
    apply (Hlookup _ _ _ _ _ Hreach Hvotes) in Hrepeat as [v ->]. done.
  - intros Hnd projectName. unfold submitVote.
    destruct (voteValidation req) eqn:Hvalid; simpl; [|done].
    destruct (Event_findById events _) as [event|] eqn:Hev; [|done].
    destruct (Event.isActive event) eqn:Hactive; simpl; [|done].
    destruct (votingOpen env event) eqn:Hopen; simpl; [|done].
    case_bool_decide; [done|].
    destruct (processVotes event req (uuidv4 env) store [] (VoteRequest.votes req))
      as [response store'] eqn:Hloop.
    apply processVotes_stops in Hloop
      as [[-> _]|(pre & e & post & Hvotes & Hpre & Hend)]; [done|].
    simpl. intros Hmessage.
    destruct Hend as [Hcheck|(_ & _ & ->)]; [|done].
    apply (checkVote_already _ _ _ _ _ _ _ Hcheck) in Hmessage.
    pose proof Hpre as [-> _]%processVotes_accepted.
    apply (findOne_within_batch env store req pre) in Hmessage; [|done].
    rewrite Hvotes, fmap_app, fmap_cons in Hnd.
    apply NoDup_app in Hnd as (_ & Hnd & _).
    apply (Hnd _ Hmessage), list_elem_of_here.
Qed.

Lemma duplicate_lookup_within_batch_witness :
  message (submitVote Scenario.env [Scenario.event] Scenario.votes
             Scenario.oneEach).1
  ≠ Some (AlreadySubmitted "Alpha")
  ∧ message (submitVote Scenario.env [Scenario.event] Scenario.votes
               Scenario.oneEach).1
    ≠ Some (AlreadySubmitted "Beta").
Proof.
  assert (∀ v, v ∈ Scenario.votes → Vote.voterSessionId v ≠ uuidv4 Scenario.env)
    as Hfresh.
  { apply Forall_forall. by repeat constructor. }
  assert (NoDup (VoteData.projectId <$> VoteRequest.votes Scenario.oneEach))
    as Hnd.
  { by apply (bool_decide_unpack _). }
  split.
  - exact (proj2 (proj2 (duplicate_lookup_within_batch Scenario.env
                           [Scenario.event] Scenario.votes Scenario.oneEach
                           Hfresh)) Hnd "Alpha").
  - exact (proj2 (proj2 (duplicate_lookup_within_batch Scenario.env
                           [Scenario.event] Scenario.votes Scenario.oneEach
                           Hfresh)) Hnd "Beta").
Defined.

Lemma twice_alpha_refused :
  submitVote Scenario.env [Scenario.event] [] Scenario.twiceAlpha
  = (failure 400 (AlreadySubmitted "Alpha"),
     [voteOf Scenario.twiceAlpha (uuidv4 Scenario.env)
        (Scenario.ballot "p1" "g1" [("Creativity", 5)])]).
Proof. reflexivity. Qed.

(** A batch with two entries for the same project: the lookup for the
    second entry finds the vote saved for the first, and the request is
    answered [Vote already submitted for project Alpha]. *)
Lemma duplicateCheck_counterexample :
  ¬ duplicateCheck_as_stated Scenario.env [Scenario.event] [] Scenario.twiceAlpha.
Proof.
  intros Hclaim. apply (Hclaim "Alpha"). by rewrite twice_alpha_refused.
Qed.


(** * Further properties *)

(** ** What the aggregator counts *)

Lemma countedVotes_snoc ev votes vote :
  countedVotes ev (votes ++ [vote])
  = countedVotes ev votes ++ (if decide (counted ev vote) then [vote] else []).
Proof. unfold countedVotes. by rewrite filter_app, filter_cons, filter_nil. Qed.

Lemma tally_counted ev votes gw :
  tally ev votes gw = tally ev (countedVotes ev votes) gw.
Proof.
  induction votes as [|vote votes IH] using rev_ind; [done|].
  rewrite countedVotes_snoc, tally_snoc.
  destruct (decide (counted ev vote)) as [Hc|Hc].
  - by rewrite tally_snoc, IH.
  - rewrite app_nil_r, <- IH. apply countVote_orphan.
    unfold counted in Hc. apply not_and_l in Hc. exact Hc.
Qed.

(** X1. The result depends on the votes only through those that name a
    project and a group of the event: all the others can be dropped
    together. *)
Theorem calculateResults_counted ev votes groupWeights :
  calculateResults ev votes groupWeights
  = calculateResults ev (countedVotes ev votes) groupWeights.
Proof. apply calculateResults_tally, tally_counted. Qed.

Lemma elem_get_NoDup {V} (o : JS.obj V) k v :
  NoDup (JS.keys o) → (k, v) ∈ o → JS.get k o = Some v.
Proof.
  unfold JS.keys. induction o as [|[k' v'] o IH]; csimpl; [by intros _ ?%elem_of_nil|].
  intros [Hk Hnd]%NoDup_cons [[= -> ->]|Hin]%elem_of_cons.
  - by rewrite decide_True.
  - rewrite decide_False; [by apply IH|].
    intros ->. apply Hk. by apply (list_elem_of_fmap_2 fst) in Hin.
Qed.

Lemma counted_found ev votes gw vote :
  counted ev vote ↔
  is_Some (JS.get (Vote.project vote) (projectResults (tally ev votes gw)))
  ∧ is_Some (JS.get (Vote.group vote) (groupResults (tally ev votes gw))).
Proof.
  rewrite !get_is_Some, tally_project_keys, tally_group_keys.
  by rewrite init_project_keys, init_group_keys.
Qed.

(** The step of the loop on a vote that is counted. *)
Lemma countVote_counted ev votes gw vote :
  counted ev vote →
  let t := tally ev votes gw in
  let total := projectTotal (Vote.scores vote) in
  countVote t vote
  = {| projectResults :=
         JS.alter (addProjectVote (Vote.scores vote)) (Vote.project vote)
           (projectResults t);
       groupResults :=
         JS.alter (addGroupVote total) (Vote.group vote) (groupResults t);
       groupIdToName := groupIdToName t;
       groupVoters :=
         JS.alter (λ s, {[Vote.voterSessionId vote]} ∪ s) (Vote.group vote)
           (groupVoters t);
       projectGroupScores :=
         JS.alter (JS.alter (addGroupScore total) (Vote.group vote))
           (Vote.project vote) (projectGroupScores t) |}.
Proof.
  intros [[? Hp] [? Hg]]%(counted_found ev votes gw). simpl.
  unfold countVote. cbv zeta. by rewrite Hp, Hg.
Qed.

Lemma votesOnProject_snoc ev projectId votes vote :
  votesOnProject ev projectId (votes ++ [vote])
  = votesOnProject ev projectId votes
    ++ (if decide (counted ev vote ∧ Vote.project vote = projectId)
        then [vote] else []).
Proof.
  unfold votesOnProject. rewrite countedVotes_snoc, filter_app.
  f_equal. destruct (decide (counted ev vote)) as [Hc|Hc].
  - rewrite filter_cons, filter_nil.
    destruct (decide (Vote.project vote = projectId)).
    + by rewrite decide_True.
    + rewrite decide_False; [done | by intros [_ ?]].
  - rewrite filter_nil, decide_False; [done | by intros [? _]].
Qed.

Lemma votesOfGroup_snoc ev groupId votes vote :
  votesOfGroup ev groupId (votes ++ [vote])
  = votesOfGroup ev groupId votes
    ++ (if decide (counted ev vote ∧ Vote.group vote = groupId)
        then [vote] else []).
Proof.
  unfold votesOfGroup. rewrite countedVotes_snoc, filter_app.
  f_equal. destruct (decide (counted ev vote)) as [Hc|Hc].
  - rewrite filter_cons, filter_nil.
    destruct (decide (Vote.group vote = groupId)).
    + by rewrite decide_True.
    + rewrite decide_False; [done | by intros [_ ?]].
  - rewrite filter_nil, decide_False; [done | by intros [? _]].
Qed.

(** Every record of [projectResults] is the initial one with the counted
    votes on the project added in order. *)
Lemma get_project_tally ev votes gw projectId :
  JS.get projectId (projectResults (tally ev votes gw))
  = (λ r0, fold_left (λ r v, addProjectVote (Vote.scores v) r)
             (votesOnProject ev projectId votes) r0)
    <$> JS.get projectId (initProjectResults ev).
Proof.
  destruct (JS.get projectId (initProjectResults ev)) as [r0|] eqn:H0; simpl.
  - induction votes as [|vote votes IH] using rev_ind; [done|].
    rewrite tally_snoc, votesOnProject_snoc, fold_left_app.
    destruct (decide (counted ev vote)) as [Hc|Hc].
    + rewrite (countVote_counted _ _ _ _ Hc). simpl.
      rewrite get_alter, IH.
      destruct (decide (Vote.project vote = projectId)) as [Hp|Hp].
      * by rewrite decide_True.
      * by rewrite decide_False by (by intros [_ ?]).
    + rewrite countVote_orphan by (by apply not_and_l in Hc).
      rewrite decide_False by (by intros [? _]). by rewrite IH.
  - apply get_None. rewrite tally_project_keys. by apply get_None.
Qed.

Lemma get_group_tally ev votes gw groupId :
  JS.get groupId (groupResults (tally ev votes gw))
  = (λ g0, fold_left (λ g v, addGroupVote (projectTotal (Vote.scores v)) g)
             (votesOfGroup ev groupId votes) g0)
    <$> JS.get groupId (initGroupResults gw ev).
Proof.
  destruct (JS.get groupId (initGroupResults gw ev)) as [g0|] eqn:H0; simpl.
  - induction votes as [|vote votes IH] using rev_ind; [done|].
    rewrite tally_snoc, votesOfGroup_snoc, fold_left_app.
    destruct (decide (counted ev vote)) as [Hc|Hc].
    + rewrite (countVote_counted _ _ _ _ Hc). simpl.
      rewrite get_alter, IH.
      destruct (decide (Vote.group vote = groupId)) as [Hp|Hp].
      * by rewrite decide_True.
      * by rewrite decide_False by (by intros [_ ?]).
    + rewrite countVote_orphan by (by apply not_and_l in Hc).
      rewrite decide_False by (by intros [? _]). by rewrite IH.
  - apply get_None. rewrite tally_group_keys. by apply get_None.
Qed.

Lemma get_voters_tally ev votes gw groupId :
  JS.get groupId (groupVoters (tally ev votes gw))
  = (λ _, list_to_set (Vote.voterSessionId <$> votesOfGroup ev groupId votes))
    <$> JS.get groupId (initGroupVoters ev).
Proof.
  induction votes as [|vote votes IH] using rev_ind.
  - simpl. destruct (JS.get _ _) as [s|] eqn:Hs; [|done]. simpl. f_equal.
    apply get_Some_elem in Hs.
    assert (Forall (λ kv : string * gset string, kv.2 = ∅) (initGroupVoters ev)) as Hall.
    { by apply (Forall_fill Group._id (λ _, ∅ : gset string)). }
    rewrite Forall_forall in Hall. apply (Hall _ Hs).
  - rewrite tally_snoc, votesOfGroup_snoc.
    destruct (decide (counted ev vote)) as [Hc|Hc].
    + rewrite (countVote_counted _ _ _ _ Hc). simpl.
      rewrite get_alter, IH.
      destruct (decide (Vote.group vote = groupId)) as [Hp|Hp].
      * rewrite decide_True by done.
        destruct (JS.get _ (initGroupVoters ev)); [|done]. simpl. f_equal.
        rewrite fmap_app. apply set_eq. intros y.
        rewrite elem_of_union, elem_of_singleton, !elem_of_list_to_set, elem_of_app.
        csimpl. rewrite list_elem_of_singleton. tauto.
      * rewrite decide_False by (by intros [_ ?]). by rewrite app_nil_r.
    + rewrite countVote_orphan by (by apply not_and_l in Hc).
      rewrite decide_False by (by intros [? _]). by rewrite app_nil_r, IH.
Qed.

Lemma addProjectVotes_totals cast r :
  ProjectResult.totalScore
    (fold_left (λ r v, addProjectVote (Vote.scores v) r) cast r)
  = fold_left (λ acc v, acc + projectTotal (Vote.scores v)) cast
      (ProjectResult.totalScore r)
  ∧ ProjectResult.voteCount
      (fold_left (λ r v, addProjectVote (Vote.scores v) r) cast r)
    = (ProjectResult.voteCount r + length cast)%nat
  ∧ ProjectResult.averageScore
      (fold_left (λ r v, addProjectVote (Vote.scores v) r) cast r)
    = ProjectResult.averageScore r.
Proof.
  revert r. induction cast as [|v cast IH]; intros r; simpl;
    [split_and!; [done | lia | done]|].
  destruct (IH (addProjectVote (Vote.scores v) r)) as (-> & -> & ->). simpl.
  split_and!; [done | lia | done].
Qed.

Lemma addGroupVotes_totals cast g :
  let g' := fold_left (λ g v, addGroupVote (projectTotal (Vote.scores v)) g) cast g in
  GroupResult.totalScore g'
  = fold_left (λ acc v, acc + projectTotal (Vote.scores v)) cast
      (GroupResult.totalScore g)
  ∧ GroupResult.voteCount g' = (GroupResult.voteCount g + length cast)%nat
  ∧ groupInfo g' = groupInfo g.
Proof.
  revert g. induction cast as [|v cast IH]; intros g; simpl; [split_and!; [done | lia | done]|].
  destruct (IH (addGroupVote (projectTotal (Vote.scores v)) g)) as (-> & -> & ->).
  simpl. split_and!; [done | lia | done].
Qed.

Lemma projects_entry ev votes gw project :
  project ∈ projects (calculateResults ev votes gw) →
  ∃ i key p0,
    JS.get key (projectResults (tally ev votes gw)) = Some p0
    ∧ key ∈ Project._id <$> Event.projects ev
    ∧ ProjectResult.id p0 = key
    ∧ project = rankProject i (setFinalScore (groupTotals ev votes gw)
                                 (setAverages (tally ev votes gw) key p0)).
Proof.
  intros (i & p & (key & p0 & Hin & ->)%projectTotals_elem & ->)%projects_elem.
  exists i, key, p0. pose proof Hin as (Hid & _ & Hkey)%tally_project_entry.
  split_and!; [|done..].
  apply elem_get_NoDup; [apply tally_keys_NoDup | done].
Qed.

Lemma groups_entry ev votes gw group :
  group ∈ groups (calculateResults ev votes gw) →
  ∃ i key g0,
    JS.get key (groupResults (tally ev votes gw)) = Some g0
    ∧ key ∈ Group._id <$> Event.groups ev
    ∧ group = rankGroup i (setVoterCount (groupVoters (tally ev votes gw)) key g0).
Proof.
  intros [i Hi]%list_elem_of_lookup.
  apply groups_lookup in Hi as (g & Hg & ->).
  assert (g ∈ groupTotals ev votes gw) as Hin.
  { rewrite <- (sort_perm byTotalScore). apply list_elem_of_lookup. eauto. }
  unfold groupTotals in Hin. rewrite values_forEach in Hin.
  apply list_elem_of_fmap in Hin as ([key g0] & -> & Hin). simpl.
  exists i, key, g0. split_and!; [| |done].
  - apply elem_get_NoDup; [apply tally_keys_NoDup | done].
  - apply (init_group_keys ev gw). rewrite <- (tally_group_keys ev votes gw).
    unfold JS.keys. by apply (list_elem_of_fmap_2 fst) in Hin.
Qed.

Lemma project_totals ev votes groupWeights project :
  project ∈ projects (calculateResults ev votes groupWeights) →
  ProjectResult.totalScore project
  = sumTotals (votesOnProject ev (ProjectResult.id project) votes)
  ∧ ProjectResult.voteCount project
    = length (votesOnProject ev (ProjectResult.id project) votes)
  ∧ ProjectResult.averageScore project
    = (if (0 <? length (votesOnProject ev (ProjectResult.id project) votes))%nat
       then sumTotals (votesOnProject ev (ProjectResult.id project) votes)
            / num (length (votesOnProject ev (ProjectResult.id project) votes))
       else 0).
Proof.
  intros (i & key & p0 & Hget & Hkey & Hid & ->)%projects_entry.
  rewrite get_project_tally in Hget.
  destruct (JS.get key (initProjectResults ev)) as [r0|] eqn:Hr0; [|done].
  simpl in Hget. injection Hget as <-.
  pose proof (initProjectResults_new ev) as Hnew. rewrite Forall_forall in Hnew.
  destruct (Hnew _ (get_Some_elem _ _ _ Hr0)) as [project Hproject].
  simpl in Hproject. subst r0.
  destruct (addProjectVotes_totals (votesOnProject ev key votes)
              (newProjectResult project)) as (Htotal & Hcount & Havg).
  simpl in *. rewrite Hid, Htotal, Hcount, Havg. unfold sumTotals. done.
Qed.

(** X2. A project's [totalScore] is the sum of the totals of the counted
    votes on it, its [voteCount] their number, and its [averageScore]
    their quotient, or [0] when there is none. *)
Theorem project_statistics ev votes groupWeights project :
  project ∈ projects (calculateResults ev votes groupWeights) →
  ProjectResult.totalScore project
  = sumTotals (votesOnProject ev (ProjectResult.id project) votes)
  ∧ ProjectResult.voteCount project
    = length (votesOnProject ev (ProjectResult.id project) votes)
  ∧ ProjectResult.averageScore project
    = (if (0 <? length (votesOnProject ev (ProjectResult.id project) votes))%nat
       then sumTotals (votesOnProject ev (ProjectResult.id project) votes)
            / num (length (votesOnProject ev (ProjectResult.id project) votes))
       else 0).
Proof. apply project_totals. Qed.

Lemma project_statistics_witness :
  ProjectResult.totalScore Scenario.alpha
  = sumTotals (votesOnProject Scenario.event "p1" Scenario.votes)
  ∧ ProjectResult.voteCount Scenario.alpha
    = length (votesOnProject Scenario.event "p1" Scenario.votes).
Proof.
  destruct (project_statistics Scenario.event Scenario.votes None Scenario.alpha)
    as (Htotal & Hcount & _); [|by split].
  vm_compute. apply list_elem_of_here.
Defined.

(** X3. A group's [totalScore] is the sum of the totals of the counted
    votes cast in it, its [voteCount] their number, and its [voterCount]
    the number of distinct session ids among them. *)
Theorem group_statistics ev votes groupWeights group :
  group ∈ groups (calculateResults ev votes groupWeights) →
  GroupResult.totalScore group
  = sumTotals (votesOfGroup ev (GroupResult.id group) votes)
  ∧ GroupResult.voteCount group
    = length (votesOfGroup ev (GroupResult.id group) votes)
  ∧ GroupResult.voterCount group
    = JS.Set_size
        (Vote.voterSessionId <$> votesOfGroup ev (GroupResult.id group) votes).
Proof.
  intros (i & key & g0 & Hget & Hkey & ->)%groups_entry.
  pose proof (get_voters_tally ev votes groupWeights key) as Hvoters.
  rewrite get_group_tally in Hget.
  destruct (JS.get key (initGroupResults groupWeights ev)) as [r0|] eqn:Hr0; [|done].
  simpl in Hget. injection Hget as <-.
  pose proof (init_group_weights ev groupWeights) as Hnew.
  rewrite Forall_forall in Hnew.
  destruct (Hnew _ (get_Some_elem _ _ _ Hr0)) as (g & Hg & Hr).
  simpl in Hr. subst r0.
  assert (Group._id g = key) as Hid.
  { assert (Forall (λ kv : string * GroupResult.t, GroupResult.id kv.2 = kv.1)
              (initGroupResults groupWeights ev)) as Hids.
    { by apply (Forall_fill Group._id (newGroupResult groupWeights)). }
    rewrite Forall_forall in Hids. apply (Hids _ (get_Some_elem _ _ _ Hr0)). }
  destruct (addGroupVotes_totals (votesOfGroup ev key votes)
              (newGroupResult groupWeights g)) as (Htotal & Hcount & Hinfo).
  assert (is_Some (JS.get key (initGroupVoters ev))) as [s Hs].
  { apply get_is_Some. unfold initGroupVoters.
    apply (keys_fill Group._id (λ _, ∅ : gset string)). by right. }
  rewrite Hs in Hvoters. simpl in Hvoters.
  injection Hinfo as Hgid _ _.
  simpl in *. rewrite Hgid, Hid, Htotal, Hcount, Hvoters. done.
Qed.

Lemma group_statistics_witness :
  ∃ group,
    groups (calculateResults Scenario.event Scenario.votes None) !! 0%nat
    = Some group
    ∧ GroupResult.voterCount group
      = JS.Set_size
          (Vote.voterSessionId
             <$> votesOfGroup Scenario.event (GroupResult.id group) Scenario.votes).
Proof.
  eexists. split; [reflexivity|].
  apply (group_statistics Scenario.event Scenario.votes None).
  vm_compute. apply list_elem_of_here.
Defined.

(** ** Sums over the records *)

Lemma sum_alter_S {V} (h : V → nat) (f : V → V) k (o : JS.obj V) :
  (∀ v, h (f v) = S (h v)) → k ∈ JS.keys o →
  sum_list_with h (JS.values (JS.alter f k o)) = S (sum_list_with h (JS.values o)).
Proof.
  intros Hf. unfold JS.keys, JS.values.
  induction o as [|[k' v] o IH]; csimpl; [by intros ?%elem_of_nil|].
  intros Hin. destruct (decide (k' = k)) as [->|Hne]; csimpl.
  - by rewrite Hf.
  - apply elem_of_cons in Hin as [?|Hin]; [congruence|]. rewrite IH by done. lia.
Qed.

Lemma sum_zero {V} (h : V → nat) (l : list V) :
  Forall (λ x, h x = 0%nat) l → sum_list_with h l = 0%nat.
Proof. induction 1 as [|x l Hx _ IH]; simpl; lia. Qed.

Lemma sum_ext {A B} (f : A → nat) (g : B → nat) (l : list A) (l' : list B) :
  f <$> l = g <$> l' → sum_list_with f l = sum_list_with g l'.
Proof.
  revert l'. induction l as [|x l IH]; intros [|y l']; csimpl; try done.
  intros [= Hxy Hl]. rewrite Hxy. f_equal. by apply IH.
Qed.

Lemma tally_sums ev votes gw :
  let t := tally ev votes gw in
  sum_list_with ProjectResult.voteCount (JS.values (projectResults t))
  = length (countedVotes ev votes)
  ∧ sum_list_with GroupResult.voteCount (JS.values (groupResults t))
    = length (countedVotes ev votes).
Proof.
  induction votes as [|vote votes IH] using rev_ind.
  - simpl. unfold JS.values. split.
    + apply sum_zero, Forall_fmap. eapply Forall_impl; [apply initProjectResults_new|].
      intros [k p] [project Hp]. simpl in *. by subst.
    + apply sum_zero, Forall_fmap. eapply Forall_impl; [apply init_group_weights|].
      intros [k g] (g0 & _ & Hg). simpl in *. by subst.
  - cbv zeta in *. destruct IH as (IH1 & IH2).
    rewrite countedVotes_snoc, tally_snoc.
    destruct (decide (counted ev vote)) as [Hc|Hc].
    + pose proof Hc as [Hp Hg]%(counted_found ev votes gw).
      apply get_is_Some in Hp, Hg.
      rewrite (countVote_counted ev votes gw vote Hc). cbv zeta. simpl.
      rewrite length_app. simpl. split.
      * rewrite sum_alter_S by done. lia.
      * rewrite sum_alter_S by done. lia.
    + rewrite app_nil_r, countVote_orphan; [done|].
      unfold counted in Hc. by apply not_and_l in Hc.
Qed.

(** X4. Every counted vote is counted once on each side: the vote counts
    of the projects add up to the number of counted votes, and so do the
    vote counts of the groups. *)
Theorem totals_agree ev votes groupWeights :
  let r := calculateResults ev votes groupWeights in
  sum_list_with ProjectResult.voteCount (projects r)
  = length (countedVotes ev votes)
  ∧ sum_list_with GroupResult.voteCount (groups r)
    = length (countedVotes ev votes).
Proof.
  destruct (tally_sums ev votes groupWeights) as (H1 & H2).
  cbv zeta in *. unfold calculateResults. simpl.
  split.
  - rewrite <- H1.
    erewrite sum_ext; [|by apply fmap_imap_inv].
    rewrite (sort_perm byFinalScore). apply sum_ext.
    unfold projectTotals. rewrite !values_forEach. unfold JS.values, JS.forEach.
    rewrite <- !list_fmap_compose. done.
  - rewrite <- H2.
    erewrite sum_ext; [|by apply fmap_imap_inv].
    rewrite (sort_perm byTotalScore). apply sum_ext.
    unfold groupTotals. rewrite !values_forEach. unfold JS.values, JS.forEach.
    rewrite <- !list_fmap_compose. done.
Qed.

(** ** The records and the event's lists *)

Lemma tally_projectCard ev votes gw :
  projectCard <$> projectResults (tally ev votes gw)
  = projectCard <$> initProjectResults ev.
Proof.
  induction votes as [|vote votes IH] using rev_ind; [done|].
  rewrite tally_snoc, <- IH.
  case_countVote (tally ev votes gw) vote; try done.
  simpl. by apply fmap_alter_inv.
Qed.

Lemma project_ids_listed ev votes gw :
  ProjectResult.id <$> projects (calculateResults ev votes gw)
  ≡ₚ JS.keys (initProjectResults ev).
Proof.
  unfold calculateResults. simpl. rewrite fmap_imap_inv by done.
  by rewrite (sort_perm byFinalScore), projectTotals_ids.
Qed.

Lemma init_group_ids ev gw :
  (λ kv, GroupResult.id kv.2) <$> initGroupResults gw ev
  = JS.keys (initGroupResults gw ev).
Proof.
  unfold JS.keys. apply Forall_fmap_ext_1. unfold initGroupResults.
  by apply (Forall_fill Group._id (newGroupResult gw)).
Qed.

Lemma group_ids_listed ev votes gw :
  GroupResult.id <$> groups (calculateResults ev votes gw)
  ≡ₚ JS.keys (initGroupResults gw ev).
Proof.
  unfold calculateResults. simpl. rewrite fmap_imap_inv by done.
  by rewrite (sort_perm byTotalScore), groupTotals_ids, init_group_ids.
Qed.

(** X5. The results list every project id and every group id of the event
    exactly once, also when the event lists an id more than once. *)
Theorem results_list_each_id_once ev votes groupWeights :
  NoDup (ProjectResult.id <$> projects (calculateResults ev votes groupWeights))
  ∧ (∀ id, id ∈ ProjectResult.id <$> projects (calculateResults ev votes groupWeights)
           ↔ id ∈ Project._id <$> Event.projects ev)
  ∧ NoDup (GroupResult.id <$> groups (calculateResults ev votes groupWeights))
  ∧ (∀ id, id ∈ GroupResult.id <$> groups (calculateResults ev votes groupWeights)
           ↔ id ∈ Group._id <$> Event.groups ev).
Proof.
  split_and!.
  - rewrite project_ids_listed.
    apply (NoDup_keys_fill Project._id newProjectResult). constructor.
  - intros id. by rewrite project_ids_listed, init_project_keys.
  - rewrite group_ids_listed.
    apply (NoDup_keys_fill Group._id (newGroupResult groupWeights)). constructor.
  - intros id. by rewrite group_ids_listed, init_group_keys.
Qed.

(** X6. A record of the results carries the data of the element the event
    lists last under its id: a project record its name, description and
    team members, a group record its name and its effective weight. *)
Theorem records_copy_last_listed ev votes groupWeights :
  (∀ project, project ∈ projects (calculateResults ev votes groupWeights) →
     ∃ p, lastListed Project._id (Event.projects ev) (ProjectResult.id project) = Some p
          ∧ ProjectResult.name project = Project.name p
          ∧ ProjectResult.description project = Project.description p
          ∧ ProjectResult.teamMembers project = Project.teamMembers p)
  ∧ (∀ group, group ∈ groups (calculateResults ev votes groupWeights) →
     ∃ g, lastListed Group._id (Event.groups ev) (GroupResult.id group) = Some g
          ∧ GroupResult.name group = Group.name g
          ∧ GroupResult.weight group = effectiveWeight groupWeights g).
Proof.
  split.
  - intros project (i & key & p0 & Hget & _ & Hid & ->)%projects_entry. simpl.
    apply get_Some_elem, (list_elem_of_fmap_2 projectCard) in Hget.
    rewrite tally_projectCard in Hget.
    apply list_elem_of_fmap in Hget as ([k' p'] & [= <- Hn Hd Ht] & Hin).
    apply elem_get_NoDup in Hin;
      [|apply (NoDup_keys_fill Project._id newProjectResult); constructor].
    unfold initProjectResults in Hin.
    rewrite (get_fill Project._id newProjectResult) in Hin.
    unfold lastListed. rewrite Hid.
    destruct (last _) as [p|]; [|done]. injection Hin as <-.
    exists p. by rewrite Hn, Hd, Ht.
  - intros group (i & key & g0 & Hget & _ & ->)%groups_entry. simpl.
    apply get_Some_elem, (list_elem_of_fmap_2 groupStatic) in Hget.
    rewrite tally_groupStatic in Hget.
    apply list_elem_of_fmap in Hget as ([k' g'] & [= <- Hi Hn Hw] & Hin).
    apply elem_get_NoDup in Hin;
      [|apply (NoDup_keys_fill Group._id (newGroupResult groupWeights)); constructor].
    unfold initGroupResults in Hin.
    rewrite (get_fill Group._id (newGroupResult groupWeights)) in Hin.
    unfold lastListed.
    destruct (last (filter (λ x, Group._id x = key) _)) as [g|] eqn:Hlast; [|done].
    injection Hin as <-. simpl in Hi. 
    assert (Group._id g = key) as Hk.
    { apply last_Some_elem_of, list_elem_of_filter in Hlast. tauto. }
    exists g. rewrite Hi, Hk, Hn, Hw. done.
Qed.

(** ** Counts as numbers *)

Lemma num_S n : num (S n) == num n + 1.
Proof. unfold num. rewrite Nat2Z.inj_succ, <- Z.add_1_r, inject_Z_plus. reflexivity. Qed.

Lemma num_pos n : (0 < n)%nat → 0 < num n.
Proof.
  intros Hn. unfold num. change 0 with (inject_Z 0). rewrite <- Zlt_Qlt. lia.
Qed.

(** * Further properties of vote intake *)

Lemma submitVote_cases env events store req :
  (success (submitVote env events store req).1 = false
   ∧ (submitVote env events store req).2 = store
   ∧ status (submitVote env events store req).1 ∈ [400; 403; 404]%nat)
  ∨ ∃ event, letThrough env events req event
      ∧ submitVote env events store req
        = processVotes event req (uuidv4 env) store [] (VoteRequest.votes req).
Proof.
  unfold submitVote, letThrough.
  destruct (voteValidation req) eqn:Hvalid; simpl;
    [|left; split_and!; [done|done|apply (bool_decide_unpack _); by vm_compute]].
  destruct (Event_findById events _) as [event|] eqn:Hev;
    [|left; split_and!; [done|done|apply (bool_decide_unpack _); by vm_compute]].
  destruct (Event.isActive event) eqn:Hactive; simpl;
    [|left; split_and!; [done|done|apply (bool_decide_unpack _); by vm_compute]].
  destruct (votingOpen env event) eqn:Hopen; simpl;
    [|left; split_and!; [done|done|apply (bool_decide_unpack _); by vm_compute]].
  case_bool_decide;
    [left; split_and!; [done|done|apply (bool_decide_unpack _); by vm_compute]|].
  right. by exists event.
Qed.

Lemma submitVote_through env events store req event :
  letThrough env events req event →
  submitVote env events store req
  = processVotes event req (uuidv4 env) store [] (VoteRequest.votes req).
Proof.
  intros (Hvalid & Hev & Hactive & Hopen). unfold submitVote.
  rewrite Hvalid, Hev, Hactive, Hopen. simpl.
  unfold voteValidation in Hvalid.
  apply andb_true_iff in Hvalid as [[Hlen%bool_decide_eq_true _]%andb_true_iff _].
  by rewrite bool_decide_false by lia.
Qed.

Lemma checkVote_inl_status event store req sid e response :
  checkVote event store req sid e = inl response →
  status response ∈ [400; 403]%nat.
Proof.
  unfold checkVote. cbv zeta.
  repeat (case_match; try done); intros [= <-]; simpl;
    apply (bool_decide_unpack _); by vm_compute.
Qed.

Lemma processVotes_prefix event req sid store saved votes :
  ∃ pre post,
    votes = pre ++ post
    ∧ (processVotes event req sid store saved votes).2
      = store ++ (voteOf req sid <$> pre)
    ∧ ((processVotes event req sid store saved votes).1
       = accepted sid (length saved + length votes) ∧ post = []
       ∨ success (processVotes event req sid store saved votes).1 = false
         ∧ status (processVotes event req sid store saved votes).1
           ∈ [400; 403; 404; 500]%nat
         ∧ post ≠ []).
Proof.
  destruct (processVotes event req sid store saved votes) as [r s] eqn:Hp.
  apply processVotes_stops in Hp
    as [[-> ->]|(pre & e & post & -> & Hpre & Hfail)]; simpl.
  - exists votes, []. rewrite app_nil_r. split_and!; [done..|by left].
  - apply processVotes_accepted in Hpre as (-> & _ & _).
    exists pre, (e :: post). split_and!; [done..|]. right.
    destruct Hfail as [Hcheck|(_ & _ & ->)].
    + split_and!; [by apply checkVote_inl in Hcheck| |done].
      apply checkVote_inl_status in Hcheck.
      apply elem_of_cons in Hcheck as [->|Hcheck%list_elem_of_singleton];
        [|rewrite Hcheck]; apply (bool_decide_unpack _); by vm_compute.
    + split_and!; [done| |done]. apply (bool_decide_unpack _). by vm_compute.
Qed.

(** X8. Whatever the request, [submitVote] leaves the stored votes as
    they are and adds, behind them and in order, the votes of a leading
    part of the batch, all under the session id of the request.  It
    answers 201 with the number of entries when that part is the whole
    batch and the batch is not empty; otherwise it answers 400, 403, 404
    or 500 without success, and then at least one entry has not been
    saved, unless the batch is empty, which is answered 400. *)
Theorem submitVote_saves_a_prefix env events store req :
  ∃ pre post,
    VoteRequest.votes req = pre ++ post
    ∧ (submitVote env events store req).2
      = store ++ (voteOf req (uuidv4 env) <$> pre)
    ∧ ((submitVote env events store req).1
       = accepted (uuidv4 env) (length (VoteRequest.votes req))
       ∧ post = [] ∧ VoteRequest.votes req ≠ []
       ∨ success (submitVote env events store req).1 = false
         ∧ status (submitVote env events store req).1 ∈ [400; 403; 404; 500]%nat
         ∧ (post ≠ []
            ∨ VoteRequest.votes req = []
              ∧ status (submitVote env events store req).1 = 400%nat)).
Proof.
  destruct (submitVote_cases env events store req)
    as [(Hfail & Hstore & Hstatus)|(event & (Hvalid & _) & Heq)].
  - exists [], (VoteRequest.votes req). rewrite Hstore, app_nil_r.
    split_and!; [done..|]. right. split_and!; [done| |].
    + set_unfold. tauto.
    + destruct (VoteRequest.votes req) eqn:Hvotes; [right | by left].
      split; [done|]. unfold submitVote, voteValidation. by rewrite Hvotes.
  - rewrite Heq.
    destruct (processVotes_prefix event req (uuidv4 env) store []
                (VoteRequest.votes req))
      as (pre & post & Hvotes & Hstore & [[Hok ->]|(Hfail & Hstatus & Hpost)]).
    + exists pre, []. split_and!; [done..|]. left. split_and!; [done..|].
      unfold voteValidation in Hvalid.
      apply andb_true_iff in Hvalid as [[Hlen%bool_decide_eq_true _]%andb_true_iff _].
      intros Hnil. rewrite Hnil in Hlen. simpl in Hlen. lia.
    + exists pre, post. split_and!; [done..|]. right. by split_and!; [..|left].
Qed.

(** ** The schema validator behind the controller's checks *)

Lemma Criteria_find_elem criteria name c :
  Criteria_find criteria name = Some c → c ∈ criteria ∧ Criterion.name c = name.
Proof.
  unfold Criteria_find. intros ([i c'] & Hfind & [= ->])%fmap_Some.
  apply list_find_Some in Hfind as (Hi & Hname & _). split; [|done].
  apply list_elem_of_lookup. eauto.
Qed.

Lemma not_offending criteria kv :
  ¬ offending criteria kv ↔
  ∃ c, Criteria_find criteria kv.1 = Some c ∧ 1 <= kv.2 <= Criterion.maxScore c.
Proof.
  unfold offending, unknownCriterion, outOfRange. split.
  - intros Hno. destruct (Criteria_find criteria kv.1) as [c|] eqn:Hc; [|tauto].
    exists c. split; [done|]. split; apply Qnot_lt_le; intros Hlt; apply Hno;
      right; exists c; auto.
  - intros (c & Hc & Hlo & Hhi) [Hu|(c' & Hc' & [Hs|Hs])].
    + congruence.
    + by apply Qlt_not_le in Hs.
    + rewrite Hc in Hc'. injection Hc' as <-. by apply Qlt_not_le in Hs.
Qed.

Lemma scoresValidator_of_entries entries :
  Forall (λ kv : string * Q, 1 <= kv.2 <= 100) entries →
  scoresValidator (JS.of_entries entries) = true.
Proof.
  intros Hall. unfold scoresValidator. apply forallb_forall. intros kv Hkv.
  apply list_elem_of_In in Hkv.
  assert (Forall (λ kv : string * Q, 1 <= kv.2 <= 100) (JS.of_entries entries))
    as Hobj.
  { unfold JS.of_entries. apply (Forall_fill fst snd); [constructor|].
    intros [k s] Hin. rewrite Forall_forall in Hall. by apply Hall. }
  rewrite Forall_forall in Hobj. destruct (Hobj _ Hkv) as [Hlo Hhi].
  apply negb_true_iff, orb_false_iff. split; apply not_true_iff_false.
  - rewrite lt_true. by apply Qle_not_lt.
  - rewrite gt_true. by apply Qle_not_lt.
Qed.

Lemma checked_scores_pass_schema event entries :
  maxScoresBounded event →
  validateScores (Event.criteria event) entries = None →
  scoresValidator (JS.of_entries entries) = true.
Proof.
  intros Hmax Hvalid. apply scoresValidator_of_entries.
  apply validateScores_None in Hvalid.
  eapply Forall_impl; [exact Hvalid|]. intros kv (c & Hc & Hlo & Hhi)%not_offending.
  split; [done|]. apply Criteria_find_elem in Hc as [Hc _].
  unfold maxScoresBounded in Hmax. rewrite Forall_forall in Hmax.
  specialize (Hmax c Hc). simpl in Hmax. lra.
Qed.

(** X9. When the [maxScore] of every criterion of the event is at most
    [100], as the event schema requires, the scores of a document that
    has passed the checks of the controller satisfy the validator of the
    vote schema: 'Scores must be between 1 and 100' is never what makes
    the save of [submitVote] fail. *)
Theorem checked_scores_pass_validator event store req sid voteData vote :
  maxScoresBounded event →
  checkVote event store req sid voteData = inr vote →
  scoresValidator (Vote.scores vote) = true.
Proof.
  intros Hmax (-> & _ & (entries & Hentries & Hscores) & _)%checkVote_inr.
  unfold voteOf. simpl. rewrite Hentries. simpl.
  by apply (checked_scores_pass_schema event).
Qed.

Lemma checked_scores_pass_validator_witness :
  scoresValidator
    (Vote.scores (voteOf Scenario.oneEach "s1"
                    (Scenario.ballot "p1" "g1" [("Creativity", 5)])))
  = true.
Proof.
  apply (checked_scores_pass_validator Scenario.event [] Scenario.oneEach "s1"
           (Scenario.ballot "p1" "g1" [("Creativity", 5)])).
  - repeat constructor; by vm_compute.
  - reflexivity.
Defined.

(** ** The unique index *)

Lemma Vote_findOne_None store event sid project :
  Vote_findOne store event sid project = None
  ↔ (event, sid, project) ∉ voteKey <$> store.
Proof.
  rewrite eq_None_not_Some, Vote_findOne_is_Some. apply not_iff_compat. split.
  - intros (v & Hin & <- & <- & <-). by apply (list_elem_of_fmap_2 voteKey) in Hin.
  - intros (v & [= -> -> ->] & Hin)%list_elem_of_fmap. by exists v.
Qed.

Lemma Vote_save_unique store vote store' :
  Vote_save store vote = Some store' →
  NoDup (voteKey <$> store) → NoDup (voteKey <$> store').
Proof.
  unfold Vote_save. case_match eqn:Hguard; [|done]. intros [= <-] Hnd.
  apply andb_true_iff in Hguard as [_ Hfind%negb_true_iff].
  apply bool_decide_eq_false in Hfind. rewrite <- eq_None_not_Some in Hfind.
  apply Vote_findOne_None in Hfind.
  rewrite fmap_app. apply NoDup_app. split_and!; [done| |apply NoDup_singleton].
  intros key Hkey ->%list_elem_of_singleton. done.
Qed.

Lemma processVotes_unique event req sid store saved votes :
  NoDup (voteKey <$> store) →
  NoDup (voteKey <$> (processVotes event req sid store saved votes).2).
Proof.
  revert store saved. induction votes as [|d votes IH]; intros store saved Hnd;
    simpl; [done|].
  destruct (checkVote event store req sid d) as [r|vote]; [done|].
  destruct (Vote_save store vote) as [store'|] eqn:Hsave; [|done].
  apply IH. by apply (Vote_save_unique store vote).
Qed.

(** X10. [submitVote] keeps the votes collection free of two votes with
    the same event, session id and project, which is what the unique index
    of the collection demands. *)
Theorem submitVote_keeps_unique_index env events store req :
  NoDup (voteKey <$> store) →
  NoDup (voteKey <$> (submitVote env events store req).2).
Proof.
  intros Hnd.
  destruct (submitVote_cases env events store req)
    as [(_ & -> & _)|(event & _ & ->)]; [done|].
  by apply processVotes_unique.
Qed.

Lemma submitVote_keeps_unique_index_witness :
  NoDup (voteKey <$> (submitVote Scenario.env [Scenario.event] Scenario.votes
                        Scenario.twiceAlpha).2).
Proof.
  apply submitVote_keeps_unique_index.
  apply (bool_decide_unpack _). by vm_compute.
Defined.

(** ** The batches that are accepted *)

Section Accepting.
Context (event : Event.t) (req : VoteRequest.t) (sid : string).

Lemma processVotes_accepted_inv votes store saved n store' :
  processVotes event req sid store saved votes = (accepted sid n, store') →
  Forall (resolves event req) votes
  ∧ Forall (wellScored event) votes
  ∧ NoDup (VoteData.projectId <$> votes)
  ∧ Forall (λ e, Vote_findOne store (VoteRequest.eventId req) sid
                   (VoteData.projectId e) = None) votes.
Proof.
  revert store saved. induction votes as [|d votes IH]; intros store saved; simpl.
  { intros _. split_and!; constructor. }
  destruct (checkVote event store req sid d) as [r|vote] eqn:Hcheck.
  { intros [= -> _]. by apply checkVote_inl in Hcheck. }
  pose proof Hcheck as (-> & Hres & (entries & Hentries & Hvalid) & Hfind)%checkVote_inr.
  destruct (Vote_save store _) as [store1|] eqn:Hsave; [|done].
  apply Vote_save_Some in Hsave as ->.
  intros (Hresolve & Hscored & Hnd & Hnone)%IH.
  assert (Forall (λ e, VoteData.projectId e ≠ VoteData.projectId d
                       ∧ Vote_findOne store (VoteRequest.eventId req) sid
                           (VoteData.projectId e) = None) votes) as Hrest.
  { eapply Forall_impl; [exact Hnone|]. intros e He. simpl in He.
    apply Vote_findOne_None in He. rewrite fmap_app, not_elem_of_app in He.
    destruct He as [He Hd]. split; [|by apply Vote_findOne_None].
    intros Heq. apply Hd. rewrite Heq. apply list_elem_of_here. }
  split_and!.
  - by constructor.
  - constructor; [|done]. exists entries. split; [done|].
    by apply validateScores_None.
  - csimpl. constructor; [|done].
    intros (e & Heq & He)%list_elem_of_fmap.
    rewrite Forall_forall in Hrest. destruct (Hrest e He) as [Hne _]. congruence.
  - constructor; [done|]. eapply Forall_impl; [exact Hrest|]. by intros e [_ ?].
Qed.


End Accepting.

(** X11. A batch is accepted only if the request passes the gates in
    front of the loop and every entry names a project and a group of the
    event, carries the group's password where one is set and scores only
    criteria of the event within their range, and no two entries name the
    same project; the answer is then 201 with the number of entries, and
    the collection holds the votes of all of them behind the stored
    ones. *)
Theorem submitVote_accepts_only_if env events store req :
  success (submitVote env events store req).1 = true →
  ∃ event,
    letThrough env events req event
    ∧ Forall (resolves event req) (VoteRequest.votes req)
    ∧ Forall (wellScored event) (VoteRequest.votes req)
    ∧ NoDup (VoteData.projectId <$> VoteRequest.votes req)
    ∧ submitVote env events store req
      = (accepted (uuidv4 env) (length (VoteRequest.votes req)),
         store ++ (voteOf req (uuidv4 env) <$> VoteRequest.votes req)).
Proof.
  destruct (submitVote_cases env events store req)
    as [(Hfail & _)|(event & Hthrough & ->)]; [congruence|].
  intros Hok. exists event. split; [done|].
  destruct (processVotes event req (uuidv4 env) store [] (VoteRequest.votes req))
    as [r s] eqn:Hp.
  pose proof Hp as [[-> ->]|(pre & e & post & _ & _ & Hfail)]%processVotes_stops.
  - by apply processVotes_accepted_inv in Hp as (? & ? & ? & _).
  - simpl in Hok. destruct Hfail as [Hcheck|(_ & _ & ->)]; [|done].
    apply checkVote_inl in Hcheck. congruence.
Qed.

Lemma submitVote_accepts_only_if_witness :
  ∃ event,
    letThrough Scenario.env [Scenario.event] Scenario.oneEach event
    ∧ NoDup (VoteData.projectId <$> VoteRequest.votes Scenario.oneEach).
Proof.
  destruct (submitVote_accepts_only_if Scenario.env [Scenario.event] Scenario.votes
              Scenario.oneEach eq_refl)
    as (event & Hthrough & _ & _ & Hnd & _).
  by exists event.
Defined.


(** ** From intake to the results *)

Lemma Projects_id_elem projects projectId project :
  Projects_id projects projectId = Some project →
  projectId ∈ Project._id <$> projects.
Proof.
  unfold Projects_id. intros ([i p] & Hfind & [= ->])%fmap_Some.
  apply list_find_Some in Hfind as (Hi & <- & _).
  apply list_elem_of_fmap_2, list_elem_of_lookup. eauto.
Qed.

Lemma Groups_id_elem groups groupId group :
  Groups_id groups groupId = Some group →
  groupId ∈ Group._id <$> groups.
Proof.
  unfold Groups_id. intros ([i g] & Hfind & [= ->])%fmap_Some.
  apply list_find_Some in Hfind as (Hi & <- & _).
  apply list_elem_of_fmap_2, list_elem_of_lookup. eauto.
Qed.

Lemma resolves_counted event req sid e :
  resolves event req e → counted event (voteOf req sid e).
Proof.
  intros [[project Hp] (group & Hg & _)]. split; simpl.
  - by apply Projects_id_elem in Hp.
  - by apply Groups_id_elem in Hg.
Qed.

Lemma filter_all {A} (P : A → Prop) `{!∀ x, Decision (P x)} (l : list A) :
  Forall P l → filter P l = l.
Proof.
  induction 1 as [|x l Hx _ IH]; [done|].
  by rewrite filter_cons, decide_True, IH.
Qed.

Lemma Set_size_fresh (l l' : list string) (x : string) :
  x ∉ l → l' ≠ [] → Forall (λ y, y = x) l' →
  JS.Set_size (l ++ l') = S (JS.Set_size l).
Proof.
  intros Hx Hne Hall. unfold JS.Set_size.
  assert ((list_to_set (l ++ l') : gset string) = {[x]} ∪ list_to_set l) as ->.
  { apply set_eq. intros y.
    rewrite elem_of_union, elem_of_singleton, !elem_of_list_to_set, elem_of_app.
    rewrite Forall_forall in Hall. split.
    - intros [?|?%Hall]; tauto.
    - intros [->|?]; [|tauto]. right.
      destruct l' as [|z l']; [done|].
      rewrite (Hall z) by apply list_elem_of_here. apply list_elem_of_here. }
  rewrite size_union, size_singleton; [done|].
  apply disjoint_singleton_l. by rewrite elem_of_list_to_set.
Qed.

(** X12. A batch that was accepted under a session id new to the
    collection shows in the public results of its event at once: every
    vote of the batch is counted by the aggregator, [totalVotes] grows by
    the size of the batch and [totalVoters] by one. *)
Theorem accepted_batch_in_results env events store req weights :
  (∀ v, v ∈ store → Vote.voterSessionId v ≠ uuidv4 env) →
  weights ≠ BadWeights →
  success (submitVote env events store req).1 = true →
  ∃ event,
    Event_findById events (VoteRequest.eventId req) = Some event
    ∧ let old := Vote_find store (VoteRequest.eventId req) in
      let new := voteOf req (uuidv4 env) <$> VoteRequest.votes req in
      countedVotes event (old ++ new) = countedVotes event old ++ new
      ∧ getPublicResults events (submitVote env events store req).2
          (VoteRequest.eventId req) weights
        = mkResponse 200 true None
            (Some (ResultsData (publicSummary event)
                     (calculateResults event (old ++ new) (groupWeightsOf weights))
                     (length old + length (VoteRequest.votes req))
                     (S (totalVoters old)))).
Proof.
  intros Hfresh Hweights Hok.
  destruct (submitVote_cases env events store req)
    as [(Hfail & _)|(event & Hthrough & Heq)]; [congruence|].
  rewrite Heq in Hok |- *. exists event.
  destruct Hthrough as (Hvalid & Hev & Hactive & _). split; [done|].
  destruct (processVotes event req (uuidv4 env) store [] (VoteRequest.votes req))
    as [r s] eqn:Hp.
  pose proof Hp as [[-> ->]|(pre & e & post & _ & _ & Hfail)]%processVotes_stops;
    cycle 1.
  { simpl in Hok. destruct Hfail as [Hcheck|(_ & _ & ->)]; [|done].
    apply checkVote_inl in Hcheck. congruence. }
  apply processVotes_accepted_inv in Hp as (Hres & _).
  cbv zeta. simpl. split.
  - unfold countedVotes. rewrite filter_app. f_equal. apply filter_all.
    apply Forall_fmap. eapply Forall_impl; [exact Hres|].
    intros e He. by apply resolves_counted.
  - unfold getPublicResults. rewrite Hev, Hactive. simpl.
    assert (Vote_find (store ++ (voteOf req (uuidv4 env) <$> VoteRequest.votes req))
              (VoteRequest.eventId req)
            = Vote_find store (VoteRequest.eventId req)
              ++ (voteOf req (uuidv4 env) <$> VoteRequest.votes req)) as ->.
    { unfold Vote_find. rewrite filter_app. f_equal. apply filter_all.
      apply Forall_fmap, Forall_forall. by intros e _. }
    assert (totalVoters (Vote_find store (VoteRequest.eventId req)
                         ++ (voteOf req (uuidv4 env) <$> VoteRequest.votes req))
            = S (totalVoters (Vote_find store (VoteRequest.eventId req)))) as ->.
    { unfold totalVoters. rewrite fmap_app.
      apply (Set_size_fresh _ _ (uuidv4 env)).
      - intros (v & Hsid & Hv)%list_elem_of_fmap.
        apply list_elem_of_filter in Hv as [_ Hv]. by apply (Hfresh v).
      - unfold voteValidation in Hvalid.
        apply andb_true_iff in Hvalid
          as [[Hlen%bool_decide_eq_true _]%andb_true_iff _].
        destruct (VoteRequest.votes req); [simpl in Hlen; lia | done].
      - rewrite <- list_fmap_compose. apply Forall_fmap, Forall_forall.
        by intros e _. }
    rewrite length_app, length_fmap. by destruct weights.
Qed.

Lemma accepted_batch_in_results_witness :
  ∃ event results,
    getPublicResults [Scenario.event]
      (submitVote Scenario.env [Scenario.event] Scenario.votes Scenario.oneEach).2
      "e1" NoWeights
    = mkResponse 200 true None
        (Some (ResultsData (publicSummary event) results 4 3)).
Proof.
  destruct (accepted_batch_in_results Scenario.env [Scenario.event] Scenario.votes
              Scenario.oneEach NoWeights)
    as (event & _ & _ & Hresults).
  - intros v Hv. apply (bool_decide_unpack _).
    revert v Hv. apply Forall_forall. repeat constructor; by vm_compute.
  - done.
  - by vm_compute.
  - exists event. eexists. exact Hresults.
Defined.

(** ** The total of a vote that passed the checks *)

Lemma Criteria_find_cons c criteria name :
  Criteria_find (c :: criteria) name
  = if decide (Criterion.name c = name) then Some c else Criteria_find criteria name.
Proof.
  unfold Criteria_find. simpl. destruct (decide (Criterion.name c = name)); [done|].
  by destruct (list_find _ criteria) as [[i c']|].
Qed.

Lemma Qsum_filter {A} (f : A → Q) (P : A → Prop) `{!∀ x, Decision (P x)}
    (l : list A) :
  fold_left (λ acc x, acc + f x) l 0
  == fold_left (λ acc x, acc + f x) (filter P l) 0
     + fold_left (λ acc x, acc + f x) (filter (λ x, ¬ P x) l) 0.
Proof.
  induction l as [|x l IH]; simpl; [lra|].
  rewrite !filter_cons, Qsum_fold, IH.
  destruct (decide (P x)) as [Hx|Hx].
  - rewrite (decide_False (P:=¬ P x)) by tauto. simpl.
    rewrite (Qsum_fold f (filter P l) (0 + f x)). lra.
  - rewrite (decide_True (P:=¬ P x)) by done. simpl.
    rewrite (Qsum_fold f (filter (λ x, ¬ P x) l) (0 + f x)). lra.
Qed.

Lemma NoDup_keys_filter {V} (P : string * V → Prop) `{!∀ x, Decision (P x)}
    (o : list (string * V)) :
  NoDup (JS.keys o) → NoDup (JS.keys (filter P o)).
Proof.
  unfold JS.keys. induction o as [|[k v] o IH]; [done|].
  rewrite filter_cons, fmap_cons. intros [Hk Hnd]%NoDup_cons.
  destruct (decide (P (k, v))); [|by apply IH]. rewrite fmap_cons.
  apply NoDup_cons. split; [|by apply IH].
  intros ([k' v'] & Heq & [_ Hin]%list_elem_of_filter)%list_elem_of_fmap.
  simpl in Heq. subst k'. apply Hk. by apply (list_elem_of_fmap_2 fst) in Hin.
Qed.

Lemma one_key {V} (o : list (string * V)) k :
  NoDup (JS.keys o) → Forall (λ kv, kv.1 = k) o → o = [] ∨ ∃ v, o = [(k, v)].
Proof.
  destruct o as [|[k1 v1] [|[k2 v2] o]]; [by left| |].
  - intros _ [Hk _]%Forall_cons. simpl in Hk. subst. right. by exists v1.
  - unfold JS.keys. csimpl.
    intros [Hk _]%NoDup_cons [Hk1 [Hk2 _]%Forall_cons]%Forall_cons.
    simpl in *. subst. destruct Hk. apply list_elem_of_here.
Qed.

Lemma scores_below_maxima criteria (o : list (string * Q)) :
  Forall (λ c, 0 <= Criterion.maxScore c) criteria →
  NoDup (JS.keys o) →
  Forall (λ kv, ¬ offending criteria kv) o →
  fold_left (λ acc kv, acc + kv.2) o 0
  <= fold_left (λ acc c, acc + Criterion.maxScore c) criteria 0.
Proof.
  intros Hmax. revert o.
  induction Hmax as [|c criteria Hc _ IH]; intros o Hnd Hgood.
  - destruct o as [|kv o]; [simpl; lra|].
    apply Forall_cons in Hgood as [(c & Hfind & _)%not_offending _]. done.
  - simpl.
    rewrite (Qsum_filter (λ kv : string * Q, kv.2) (λ kv, kv.1 = Criterion.name c)).
    rewrite (Qsum_fold _ criteria).
    apply Qplus_le_compat.
    + destruct (one_key (filter (λ kv : string * Q, kv.1 = Criterion.name c) o)
                  (Criterion.name c)) as [->|[s Hs]].
      * by apply NoDup_keys_filter.
      * apply Forall_forall. by intros kv [? _]%list_elem_of_filter.
      * simpl. lra.
      * rewrite Hs. simpl.
        assert ((Criterion.name c, s) ∈ o) as Hin.
        { assert ((Criterion.name c, s)
                  ∈ filter (λ kv : string * Q, kv.1 = Criterion.name c) o) as Hin
            by (rewrite Hs; apply list_elem_of_here).
          by apply list_elem_of_filter in Hin as [_ Hin]. }
        rewrite Forall_forall in Hgood.
        destruct (proj1 (not_offending _ _) (Hgood _ Hin)) as (c' & Hfind & _ & Hhi).
        simpl in Hfind, Hhi. rewrite Criteria_find_cons, decide_True in Hfind by done.
        injection Hfind as <-. lra.
    + apply IH; [by apply NoDup_keys_filter|].
      apply Forall_forall. intros kv [Hne Hin]%list_elem_of_filter.
      rewrite Forall_forall in Hgood.
      destruct (proj1 (not_offending _ _) (Hgood _ Hin)) as (c' & Hfind & Hlo & Hhi).
      apply not_offending. exists c'. split; [|done].
      rewrite Criteria_find_cons, decide_False in Hfind by congruence. done.
Qed.

Lemma of_entries_NoDup {V} (entries : list (string * V)) :
  NoDup (JS.keys (JS.of_entries entries)).
Proof. apply (NoDup_keys_fill fst snd). constructor. Qed.

Lemma wellScored_total event req sid e :
  Forall (λ c, 0 <= Criterion.maxScore c) (Event.criteria event) →
  wellScored event e →
  num (length (Vote.scores (voteOf req sid e)))
  <= projectTotal (Vote.scores (voteOf req sid e)) <= maxTotal event.
Proof.
  intros Hmax (entries & Hentries & Hgood). unfold voteOf. simpl.
  rewrite Hentries. simpl.
  assert (Forall (λ kv, ¬ offending (Event.criteria event) kv)
            (JS.of_entries entries)) as Hobj.
  { unfold JS.of_entries. apply (Forall_fill fst snd); [constructor|].
    intros [k s] Hin. rewrite Forall_forall in Hgood. by apply Hgood. }
  split.
  - unfold projectTotal. revert Hobj. generalize (JS.of_entries entries).
    intros o Hobj.
    induction Hobj as [|kv o (c & _ & Hlo & _)%not_offending _ IH].
    + change (num (length [])) with 0. simpl. lra.
    + change (length (kv :: o)) with (S (length o)).
      simpl. rewrite num_S, Qsum_fold. lra.
  - by apply scores_below_maxima; [|apply of_entries_NoDup|].
Qed.

(** X13. For an event whose [maxScore]s are whole numbers, every vote
    that [submitVote] adds to the collection has a total of at least the
    number of its scores and at most the sum of the [maxScore]s of the
    event's criteria. *)
Theorem saved_votes_total_bounds env events store req event pre :
  Event_findById events (VoteRequest.eventId req) = Some event →
  maxScoresWhole event →
  (submitVote env events store req).2
  = store ++ (voteOf req (uuidv4 env) <$> pre) →
  Forall (λ v, num (length (Vote.scores v)) <= projectTotal (Vote.scores v)
               <= maxTotal event)
    (voteOf req (uuidv4 env) <$> pre).
Proof.
  intros Hev Hwhole Hstore.
  assert (Forall (λ c, 0 <= Criterion.maxScore c) (Event.criteria event)) as Hmax.
  { eapply Forall_impl; [exact Hwhole|]. intros c [n ->]. simpl.
    unfold num. change 0 with (inject_Z 0). rewrite <- Zle_Qle. lia. }
  destruct (submitVote_cases env events store req)
    as [(_ & Hsame & _)|(event' & (_ & Hev' & _) & Heq)].
  { rewrite Hsame in Hstore. rewrite <- (app_nil_r store) in Hstore at 1.
    apply app_inv_head in Hstore. by rewrite <- Hstore. }
  rewrite Hev in Hev'. injection Hev' as <-. rewrite Heq in Hstore.
  destruct (processVotes event req (uuidv4 env) store [] (VoteRequest.votes req))
    as [r s] eqn:Hp.
  simpl in Hstore. subst s.
  assert (∃ done n store',
            processVotes event req (uuidv4 env) store [] done
            = (accepted (uuidv4 env) n, store')
            ∧ store' = store ++ (voteOf req (uuidv4 env) <$> pre)
            ∧ store' = store ++ (voteOf req (uuidv4 env) <$> done))
    as (done & n & store' & Hdone & Hpre & Hsaved).
  { pose proof Hp as [[-> Hall]|(pre' & e & post & _ & Hpre' & _)]%processVotes_stops.
    - exists (VoteRequest.votes req). eauto.
    - pose proof Hpre' as (Hsaved & _)%processVotes_accepted. exists pre'. eauto. }
  rewrite Hpre in Hsaved. apply app_inv_head in Hsaved. rewrite Hsaved.
  apply processVotes_accepted_inv in Hdone as (_ & Hscored & _).
  apply Forall_fmap. eapply Forall_impl; [exact Hscored|].
  intros e He. by apply wellScored_total.
Qed.

Lemma saved_votes_total_bounds_witness :
  Forall (λ v, num (length (Vote.scores v)) <= projectTotal (Vote.scores v)
               <= maxTotal Scenario.event)
    (voteOf Scenario.oneEach (uuidv4 Scenario.env)
       <$> VoteRequest.votes Scenario.oneEach).
Proof.
  apply (saved_votes_total_bounds Scenario.env [Scenario.event] [] Scenario.oneEach).
  - reflexivity.
  - repeat constructor; by exists 10%nat.
  - reflexivity.
Defined.

(** * Further properties: the weights override *)

Section Related.
Context {V B : Type} (h : string * V → B).
Hypothesis h_key : ∀ kv kv', h kv = h kv' → kv.1 = kv'.1.

Lemma fmap_set_rel k v v' (o o' : JS.obj V) :
  h <$> o = h <$> o' → h (k, v) = h (k, v') →
  h <$> JS.set k v o = h <$> JS.set k v' o'.
Proof using h_key.
  revert o'. induction o as [|[k1 v1] o IH]; intros [|[k2 v2] o']; csimpl; try done.
  - by intros _ ->.
  - intros [= Hh Ho] Hv. pose proof (h_key _ _ Hh) as Hk. simpl in Hk. subst k2.
    destruct (decide (k1 = k)) as [->|]; csimpl.
    + by rewrite Hv, Ho.
    + rewrite Hh. f_equal. by apply IH.
Qed.

Lemma fmap_alter_rel f k (o o' : JS.obj V) :
  (∀ v v', h (k, v) = h (k, v') → h (k, f v) = h (k, f v')) →
  h <$> o = h <$> o' → h <$> JS.alter f k o = h <$> JS.alter f k o'.
Proof using h_key.
  intros Hf. revert o'.
  induction o as [|[k1 v1] o IH]; intros [|[k2 v2] o']; csimpl; try done.
  intros [= Hh Ho]. pose proof (h_key _ _ Hh) as Hk. simpl in Hk. subst k2.
  destruct (decide (k1 = k)) as [->|]; csimpl.
  + by rewrite (Hf _ _ Hh), Ho.
  + rewrite Hh. f_equal. by apply IH.
Qed.

Lemma keys_rel (o o' : JS.obj V) : h <$> o = h <$> o' → JS.keys o = JS.keys o'.
Proof using h_key.
  unfold JS.keys. revert o'.
  induction o as [|kv o IH]; intros [|kv' o']; csimpl; try done.
  intros [= Hh Ho]. by rewrite (h_key _ _ Hh), (IH o').
Qed.

Lemma get_rel k (o o' : JS.obj V) :
  h <$> o = h <$> o' → is_Some (JS.get k o) ↔ is_Some (JS.get k o').
Proof using h_key. intros Ho. by rewrite !get_is_Some, (keys_rel o o'). Qed.

End Related.

Lemma insert_fmap_rel {A B} (h : A → B) (cmp : A → A → Q) x x' l l' :
  (∀ a b a' b', h a = h a' → h b = h b' → cmp a b = cmp a' b') →
  h x = h x' → h <$> l = h <$> l' →
  h <$> JS.insert cmp x l = h <$> JS.insert cmp x' l'.
Proof.
  intros Hcmp Hx. revert l'.
  induction l as [|y l IH]; intros [|y' l']; csimpl; try done.
  - by rewrite Hx.
  - intros [= Hy Hl]. rewrite (Hcmp x y x' y') by done.
    destruct (Qle_bool _ 0); csimpl.
    + by rewrite Hx, Hy, Hl.
    + rewrite Hy. f_equal. by apply IH.
Qed.

Lemma sort_fmap_rel {A B} (h : A → B) (cmp : A → A → Q) l l' :
  (∀ a b a' b', h a = h a' → h b = h b' → cmp a b = cmp a' b') →
  h <$> l = h <$> l' → h <$> JS.sort cmp l = h <$> JS.sort cmp l'.
Proof.
  intros Hcmp. revert l'.
  induction l as [|x l IH]; intros [|x' l']; csimpl; try done.
  intros [= Hx Hl]. apply insert_fmap_rel; [done..|]. by apply IH.
Qed.

Lemma imap_fmap_rel {A B} (h : A → B) (g : nat → A → A) l l' :
  (∀ i a a', h a = h a' → h (g i a) = h (g i a')) →
  h <$> l = h <$> l' → h <$> imap g l = h <$> imap g l'.
Proof.
  intros Hg. revert g Hg l'.
  induction l as [|x l IH]; intros g Hg [|x' l']; csimpl; try done.
  intros [= Hx Hl]. rewrite (Hg _ _ _ Hx). f_equal. apply IH; [|done].
  intros i a a'. apply Hg.
Qed.

Lemma unweighted_key kv kv' : unweighted kv = unweighted kv' → kv.1 = kv'.1.
Proof. by intros [= ? _]. Qed.

Lemma init_unweighted ev gw gw' :
  unweighted <$> initGroupResults gw ev = unweighted <$> initGroupResults gw' ev.
Proof.
  unfold initGroupResults. generalize (Event.groups ev). intros l.
  induction l as [|g l IH] using rev_ind; [done|].
  rewrite !fold_left_app. simpl. by apply fmap_set_rel; [apply unweighted_key|..].
Qed.

(** The override reaches the dictionaries only in the weights. *)
Lemma tally_weights ev votes gw gw' :
  projectResults (tally ev votes gw) = projectResults (tally ev votes gw')
  ∧ groupIdToName (tally ev votes gw) = groupIdToName (tally ev votes gw')
  ∧ groupVoters (tally ev votes gw) = groupVoters (tally ev votes gw')
  ∧ projectGroupScores (tally ev votes gw) = projectGroupScores (tally ev votes gw')
  ∧ unweighted <$> groupResults (tally ev votes gw)
    = unweighted <$> groupResults (tally ev votes gw').
Proof.
  induction votes as [|vote votes IH] using rev_ind.
  - simpl. split_and!; [done..| |apply init_unweighted].
    by rewrite (keys_rel unweighted unweighted_key _ _ (init_unweighted ev gw gw')).
  - destruct IH as (Hp & Hn & Hv & Hs & Hg). rewrite !tally_snoc.
    pose proof (get_rel unweighted unweighted_key (Vote.group vote) _ _ Hg) as Hget.
    unfold countVote. cbv zeta. rewrite <- Hp.
    destruct (JS.get (Vote.project vote) _) as [p|]; [|done].
    destruct (JS.get (Vote.group vote) (groupResults (tally ev votes gw))) as [g|],
      (JS.get (Vote.group vote) (groupResults (tally ev votes gw'))) as [g'|];
      try done; simpl.
    + rewrite Hn, Hv, Hs. split_and!; [done..|].
      apply fmap_alter_rel; [apply unweighted_key| |done].
      intros v v' [= Hi Hm Ht Hc Hvc Hr]. unfold unweighted. simpl. congruence.
    + destruct Hget as [[? [=]] _]. eauto.
    + destruct Hget as [_ [? [=]]]. eauto.
Qed.

Lemma groupTotals_weights ev votes gw gw' :
  groupTally <$> groupTotals ev votes gw = groupTally <$> groupTotals ev votes gw'.
Proof.
  destruct (tally_weights ev votes gw gw') as (_ & _ & Hv & _ & Hg).
  unfold groupTotals. cbv zeta. rewrite !values_forEach, <- !list_fmap_compose, Hv.
  set (voters := groupVoters (tally ev votes gw')).
  transitivity ((λ u : string * string * string * Q * nat * nat * nat,
                   let '(k, id, name, total, votes, _, rank) := u in
                   (id, name, total, votes, size (default ∅ (JS.get k voters)), rank))
                  <$> (unweighted <$> groupResults (tally ev votes gw))).
  - rewrite <- list_fmap_compose. apply list_fmap_ext. by intros _ [k g] _.
  - rewrite Hg, <- list_fmap_compose. apply list_fmap_ext. by intros _ [k g] _.
Qed.

Lemma forEach_fmap {V} (f : string → V → V) (o : JS.obj V) :
  JS.forEach f o = (λ kv, (kv.1, f kv.1 kv.2)) <$> o.
Proof. unfold JS.forEach. induction o as [|kv o IH]; csimpl; congruence. Qed.

Lemma projectTotals_weights ev votes gw gw' :
  projectTally <$> projectTotals ev votes gw
  = projectTally <$> projectTotals ev votes gw'.
Proof.
  destruct (tally_weights ev votes gw gw') as (Hp & Hn & _ & Hs & Hg).
  apply (keys_rel unweighted unweighted_key) in Hg.
  unfold projectTotals. cbv zeta.
  rewrite !values_forEach, !forEach_fmap, <- !list_fmap_compose, Hp.
  apply list_fmap_ext. intros _ [k p] _. simpl.
  unfold projectTally. simpl. by rewrite Hn, Hs, Hg.
Qed.

(** X14. The weights override reaches nothing but the weights, the final
    scores and the order of the projects: the group records agree in
    every other field and in their order for any two overrides, and so do
    the project records up to their order, [finalScore] and [rank]. *)
Theorem override_changes_only_weights ev votes groupWeights groupWeights' :
  groupTally <$> groups (calculateResults ev votes groupWeights)
  = groupTally <$> groups (calculateResults ev votes groupWeights')
  ∧ projectTally <$> projects (calculateResults ev votes groupWeights)
    ≡ₚ projectTally <$> projects (calculateResults ev votes groupWeights').
Proof.
  unfold calculateResults. simpl. split.
  - apply imap_fmap_rel.
    { intros i a a' [= Hi Hm Ht Hc Hvc _]. unfold groupTally. simpl. congruence. }
    apply sort_fmap_rel; [|apply groupTotals_weights].
    intros a b a' b' [= _ _ Ha _ _ _] [= _ _ Hb _ _ _]. unfold byTotalScore.
    by rewrite Ha, Hb.
  - rewrite !fmap_imap_inv by done.
    rewrite !(sort_perm byFinalScore).
    by rewrite (projectTotals_weights ev votes groupWeights groupWeights').
Qed.

Lemma initTally_weights ev gw gw' :
  Forall (λ g, effectiveWeight gw g = effectiveWeight gw' g) (Event.groups ev) →
  initTally ev gw = initTally ev gw'.
Proof.
  intros Hw. unfold initTally. cbv zeta.
  assert (initGroupResults gw ev = initGroupResults gw' ev) as ->; [|done].
  unfold initGroupResults. apply fill_ext. intros g Hg. split; [done|].
  rewrite Forall_forall in Hw. unfold newGroupResult. by rewrite (Hw g Hg).
Qed.

(** X15. The result depends on the override only through the effective
    weights of the event's groups: two overrides that give every group of
    the event the same weight give the same result; so an override that
    names no group of the event, or gives each its stored weight, is the
    same as none. *)
Theorem override_effective_weights ev votes groupWeights groupWeights' :
  Forall (λ g, effectiveWeight groupWeights g = effectiveWeight groupWeights' g)
    (Event.groups ev) →
  calculateResults ev votes groupWeights = calculateResults ev votes groupWeights'.
Proof.
  intros Hw.
  assert (tally ev votes groupWeights = tally ev votes groupWeights') as Ht.
  { unfold tally. by rewrite (initTally_weights ev groupWeights groupWeights'). }
  unfold calculateResults, projectTotals, groupTotals. by rewrite Ht.
Qed.

Lemma override_effective_weights_witness :
  calculateResults Scenario.event Scenario.votes (Some [("g9", 5); ("g1", 70)])
  = calculateResults Scenario.event Scenario.votes None.
Proof.
  apply override_effective_weights.
  repeat constructor.
Defined.

(** * Further properties: the scores per criterion *)

Lemma get_forEach {V} (f : string → V → V) k (o : JS.obj V) :
  JS.get k (JS.forEach f o) = f k <$> JS.get k o.
Proof.
  unfold JS.forEach. induction o as [|[k' v] o IH]; simpl; [done|].
  by destruct (decide (k' = k)) as [->|].
Qed.

Lemma criteriaScores_fold cast r :
  ProjectResult.criteriaScores
    (fold_left (λ r v, addProjectVote (Vote.scores v) r) cast r)
  = fold_left (λ cs kv, addCriterionScore cs kv.1 kv.2)
      (cast ≫= λ v, Vote.scores v : list (string * Q))
      (ProjectResult.criteriaScores r).
Proof.
  revert r. induction cast as [|v cast IH]; intros r; [done|].
  csimpl. by rewrite IH, fold_left_app.
Qed.

Lemma get_addCriterionScore cs criterion score c :
  JS.get c (addCriterionScore cs criterion score)
  = if decide (criterion = c)
    then match JS.get c cs with
         | Some x =>
             Some (CriterionScore.mk (CriterionScore.total x + score)
                     (S (CriterionScore.count x)) (CriterionScore.average x))
         | None =>
             if bool_decide (c ∈ prototypeMembers) then None
             else Some (CriterionScore.mk (0 + score) 1 None)
         end
    else JS.get c cs.
Proof.
  unfold addCriterionScore. cbv zeta. rewrite get_alter.
  destruct (decide (criterion = c)) as [->|Hne].
  - destruct (JS.get c cs) as [x|] eqn:Hget; simpl.
    + by rewrite Hget.
    + case_bool_decide; [by rewrite Hget|]. by rewrite get_set, decide_True.
  - destruct (JS.get criterion cs); [done|].
    case_bool_decide; [done|]. by rewrite get_set, decide_False.
Qed.

Lemma get_criteriaScores (flat : list (string * Q)) c :
  JS.get c (fold_left (λ cs kv, addCriterionScore cs kv.1 kv.2) flat [])
  = if decide ((filter (λ kv, kv.1 = c) flat).*2 = [] ∨ c ∈ prototypeMembers)
    then None
    else Some (CriterionScore.mk (sumOf (filter (λ kv, kv.1 = c) flat).*2)
                 (length (filter (λ kv, kv.1 = c) flat).*2) None).
Proof.
  induction flat as [|[k s] flat IH] using rev_ind.
  { done. }
  rewrite fold_left_app. simpl. rewrite get_addCriterionScore, IH.
  rewrite filter_app, filter_cons, filter_nil. simpl.
  destruct (decide (k = c)) as [->|Hne]; [|by rewrite app_nil_r].
  rewrite fmap_app. csimpl.
  set (given := (filter (λ kv : string * Q, kv.1 = c) flat).*2).
  destruct (decide (given ++ [s] = [] ∨ c ∈ prototypeMembers))
    as [[[_ ?]%app_eq_nil|Hproto]|Hplain]; [done| |].
  - destruct (decide (given = [] ∨ c ∈ prototypeMembers)) as [_|Hno];
      [|destruct Hno; by right].
    by rewrite bool_decide_true.
  - assert (c ∉ prototypeMembers) as Hc by (intros ?; apply Hplain; by right).
    rewrite bool_decide_false by done.
    unfold sumOf. rewrite fold_left_app, length_app, Nat.add_1_r. simpl.
    destruct (decide (given = [] ∨ c ∈ prototypeMembers)) as [[Hnil|?]|Hsome];
      [|done|done].
    by rewrite Hnil.
Qed.

(** X16. What a project record holds for a criterion: nothing when no
    counted vote on the project scores the criterion, and nothing for a
    criterion that bears the name of a member of [Object.prototype];
    otherwise the sum of the scores given to it, their number, and their
    quotient as the average. *)
Theorem criterion_statistics ev votes groupWeights project criterion :
  project ∈ projects (calculateResults ev votes groupWeights) →
  JS.get criterion (ProjectResult.criteriaScores project)
  = (let given :=
       scoresFor criterion (votesOnProject ev (ProjectResult.id project) votes) in
     if decide (given = [] ∨ criterion ∈ prototypeMembers) then None
     else Some (CriterionScore.mk (sumOf given) (length given)
                  (Some (sumOf given / num (length given))))).
Proof.
  intros (i & key & p0 & Hget & Hkey & Hid & ->)%projects_entry.
  rewrite get_project_tally in Hget.
  destruct (JS.get key (initProjectResults ev)) as [r0|] eqn:Hr0; [|done].
  simpl in Hget. injection Hget as <-.
  pose proof (initProjectResults_new ev) as Hnew. rewrite Forall_forall in Hnew.
  destruct (Hnew _ (get_Some_elem _ _ _ Hr0)) as [project Hproject].
  simpl in Hproject. subst r0.
  destruct (addProjectVotes_totals (votesOnProject ev key votes)
              (newProjectResult project)) as (_ & Hcount & _).
  cbv zeta. simpl. rewrite Hcount, criteriaScores_fold, Hid. simpl.
  unfold scoresFor.
  destruct (0 <? length (votesOnProject ev key votes))%nat eqn:Hvoted.
  - rewrite get_forEach, get_criteriaScores.
    by destruct (decide (_ ∨ _)).
  - apply Nat.ltb_ge in Hvoted.
    destruct (votesOnProject ev key votes); [|simpl in Hvoted; lia].
    done.
Qed.

Lemma criterion_statistics_witness :
  JS.get "Creativity" (ProjectResult.criteriaScores Scenario.alpha)
  = Some (CriterionScore.mk (sumOf [6; 1]) 2 (Some (sumOf [6; 1] / num 2))).
Proof.
  rewrite (criterion_statistics Scenario.event Scenario.votes None Scenario.alpha).
  - reflexivity.
  - vm_compute. apply list_elem_of_here.
Defined.

(** A vote that scores "toString" as well: the project's record has an
    entry for "Creativity" and none for "toString", while the score counts
    in the total. *)
Example criterion_named_toString :
  ∃ project,
    projects (calculateResults Scenario.event
                [Vote.mk "e1" "p1" "g1" [("Creativity", 6); ("toString", 3)] "s1" None]
                None) !! 0%nat
    = Some project
    ∧ JS.keys (ProjectResult.criteriaScores project) = ["Creativity"]
    ∧ ProjectResult.totalScore project == 9.
Proof. eexists. split; [reflexivity|]. by vm_compute. Qed.

(** * Further properties: the methods of a vote *)

Lemma scoresValidator_Forall scores :
  scoresValidator scores = true
  ↔ Forall (λ kv : string * Q, 1 <= kv.2 <= 100) scores.
Proof.
  unfold scoresValidator. rewrite forallb_forall, Forall_forall.
  apply forall_proper. intros kv. rewrite <- list_elem_of_In.
  apply forall_proper. intros _.
  rewrite negb_true_iff, orb_false_iff, <- !not_true_iff_false, lt_true, gt_true.
  split.
  - intros [Hlo Hhi]. split; by apply Qnot_lt_le.
  - intros [Hlo Hhi]. split; by apply Qle_not_lt.
Qed.

(** X17. [getAverageScore] is not a number exactly for a vote without
    scores (which intake accepts).  For a vote with scores it is the
    total over their number, and when the scores pass the validator of
    the schema it lies between 1 and 100. *)
Theorem getAverageScore_range vote :
  (getAverageScore vote = None ↔ Vote.scores vote = [])
  ∧ (Vote.scores vote ≠ [] →
     getAverageScore vote
     = Some (getTotalScore vote / num (length (Vote.scores vote)))
     ∧ (scoresValidator (Vote.scores vote) = true →
        1 <= getTotalScore vote / num (length (Vote.scores vote)) <= 100)).
Proof.
  unfold getAverageScore. cbv zeta.
  destruct (decide (length (Vote.scores vote) = 0%nat)) as [Hnil|Hne].
  { apply length_zero_iff_nil in Hnil. split; [done|]. by intros []. }
  split.
  { split; [done|]. intros Hnil. by rewrite Hnil in Hne. }
  intros _. split; [done|]. intros Hvalid%scoresValidator_Forall.
  assert (num (length (Vote.scores vote)) <= getTotalScore vote
          <= 100 * num (length (Vote.scores vote))) as [Hlo Hhi].
  { unfold getTotalScore. clear Hne.
    induction Hvalid as [|kv scores [Hlo Hhi] _ IH].
    - change (num (length [])) with 0. simpl. lra.
    - change (length (kv :: scores)) with (S (length scores)).
      simpl. rewrite num_S, Qsum_fold. lra. }
  assert (0 < num (length (Vote.scores vote))) as Hpos by (apply num_pos; lia).
  split.
  - apply Qle_shift_div_l; [done | lra].
  - by apply Qle_shift_div_r.
Qed.

Lemma getAverageScore_range_witness :
  getAverageScore (Scenario.vote "p1" "g1" "s1" 6 4)
  = Some (getTotalScore (Scenario.vote "p1" "g1" "s1" 6 4) / num 2)
  ∧ 1 <= getTotalScore (Scenario.vote "p1" "g1" "s1" 6 4) / num 2 <= 100
  ∧ getAverageScore (Vote.mk "e1" "p1" "g1" [] "s1" None) = None.
Proof.
  destruct (getAverageScore_range (Scenario.vote "p1" "g1" "s1" 6 4))
    as [_ Hsome].
  destruct Hsome as [Hvalue Hrange]; [done|].
  destruct (getAverageScore_range (Vote.mk "e1" "p1" "g1" [] "s1" None))
    as [Hnone _].
  split_and!; [exact Hvalue | apply (Hrange eq_refl).. | by apply Hnone].
Defined.

(** * Properties of event administration *)

(** ** Lookups and the saved document *)

Lemma Event_findById_cons e events id :
  Event_findById (e :: events) id
  = if decide (Event._id e = id) then Some e else Event_findById events id.
Proof.
  unfold Event_findById. simpl. destruct (decide (Event._id e = id)); [done|].
  by destruct (list_find _ events) as [[i e']|].
Qed.

Lemma Event_findById_Some events id e :
  Event_findById events id = Some e → e ∈ events ∧ Event._id e = id.
Proof.
  induction events as [|e' events IH]; [done|].
  rewrite Event_findById_cons. destruct (decide (Event._id e' = id)) as [Hid|_].
  - intros [= ->]. split; [apply list_elem_of_here | done].
  - intros [Hin Hid]%IH. split; [by apply list_elem_of_further | done].
Qed.

Lemma Event_findById_replace events event :
  is_Some (Event_findById events (Event._id event)) →
  Event_findById (Event_replace events event) (Event._id event) = Some event.
Proof.
  induction events as [|e events IH]; simpl; [by intros [? ?]|].
  rewrite Event_findById_cons.
  destruct (decide (Event._id e = Event._id event)) as [Heq|Hne].
  - intros _. by rewrite Event_findById_cons, decide_True.
  - intros Hsome. rewrite Event_findById_cons, decide_False by done. by apply IH.
Qed.

Lemma Event_findById_replace_ne events event id :
  id ≠ Event._id event →
  Event_findById (Event_replace events event) id = Event_findById events id.
Proof.
  intros Hne. induction events as [|e events IH]; simpl; [done|].
  destruct (decide (Event._id e = Event._id event)) as [Heq|Hne'].
  - rewrite !Event_findById_cons, !decide_False by congruence. done.
  - rewrite !Event_findById_cons. by destruct (decide (Event._id e = id)).
Qed.

Lemma Event_replace_length events event :
  length (Event_replace events event) = length events.
Proof.
  induction events as [|e events IH]; simpl; [done|].
  destruct (decide _); simpl; congruence.
Qed.

(** What the two hooks leave as it is, and what they set. *)
Lemma hooks_fields rt e :
  let saved := setDefaultCriteria (generateVoteCode rt e) in
  Event._id saved = Event._id e
  ∧ Event.owner saved = Event.owner e
  ∧ Event.isActive saved = Event.isActive e
  ∧ Event.isVotingOpen saved = Event.isVotingOpen e
  ∧ (Event.date saved, Event.startTime saved, Event.closeTime saved)
    = (Event.date e, Event.startTime e, Event.closeTime e)
  ∧ Event.groups saved = Event.groups e
  ∧ Event.projects saved = Event.projects e
  ∧ Event.criteria saved
    = (if decide (Event.criteria e = []) then defaultCriteria else Event.criteria e)
  ∧ Event.voteCode saved
    = (if decide (Event.voteCode e = EmptyString) then randomCode rt
       else Event.voteCode e).
Proof.
  unfold setDefaultCriteria, generateVoteCode. cbv zeta.
  destruct (decide (Event.voteCode e = EmptyString)); simpl;
    destruct (decide (Event.criteria e = [])); simpl; by split_and!.
Qed.

Lemma Event_save_Some rt events event saved events' :
  Event_save rt events event = Some (saved, events') →
  validate rt event = true
  ∧ saved = setDefaultCriteria (generateVoteCode rt event)
  ∧ events' = Event_replace events saved.
Proof.
  unfold Event_save. destruct (validate rt event); [|done]. simpl.
  case_match; [done|]. by intros [= <- <-].
Qed.

Lemma ownedEvent_inr events id user notAuthorized event :
  ownedEvent events id user notAuthorized = inr event →
  Event_findById events id = Some event ∧ Event._id event = id
  ∧ Event.owner event = user.
Proof.
  unfold ownedEvent. destruct (Event_findById events id) as [e|] eqn:Hfind; [|done].
  case_bool_decide as Howner; [done|]. intros [= <-].
  pose proof (Event_findById_Some _ _ _ Hfind) as [_ Hid].
  split_and!; [done | done |].
  destruct (decide (Event.owner e = user)); [done | contradiction].
Qed.

Lemma ownedEvent_inl events id user notAuthorized reply :
  ownedEvent events id user notAuthorized = inl reply →
  Reply.status reply ≠ 200%nat.
Proof. unfold ownedEvent. repeat case_match; try done; by intros [= <-]. Qed.

(** A handler of the owner saved [changed], a document it made from the
    one it found. *)
Lemma saved_lookup rt events id user notAuthorized event changed saved events' :
  ownedEvent events id user notAuthorized = inr event →
  Event_save rt events changed = Some (saved, events') →
  Event._id changed = Event._id event →
  saved = setDefaultCriteria (generateVoteCode rt changed)
  ∧ Event_findById events' id = Some saved
  ∧ ∀ id', id' ≠ id → Event_findById events' id' = Event_findById events id'.
Proof.
  intros (Hfind & Hid & _)%ownedEvent_inr (_ & -> & ->)%Event_save_Some Hchanged.
  destruct (hooks_fields rt changed) as (Hsaved & _). cbv zeta in Hsaved.
  split; [done|]. rewrite <- Hid, <- Hchanged, <- Hsaved. split.
  - apply Event_findById_replace. rewrite Hsaved, Hchanged, Hid, Hfind. eauto.
  - intros id' Hne. by apply Event_findById_replace_ne.
Qed.

(** X18. An event that [save] has written never has an empty list of
    criteria (an empty one is replaced by the three default criteria) and
    has a vote code; it keeps its id, is what [findById] returns for that
    id afterwards, and no other document of the collection is touched. *)
Theorem Event_save_hooks rt events event saved events' :
  Event_save rt events event = Some (saved, events') →
  Event.criteria saved
  = (if decide (Event.criteria event = []) then defaultCriteria
     else Event.criteria event)
  ∧ Event.criteria saved ≠ []
  ∧ Event.voteCode saved
    = (if decide (Event.voteCode event = EmptyString) then randomCode rt
       else Event.voteCode event)
  ∧ Event._id saved = Event._id event
  ∧ (is_Some (Event_findById events (Event._id event)) →
     Event_findById events' (Event._id event) = Some saved)
  ∧ (∀ id, id ≠ Event._id event →
       Event_findById events' id = Event_findById events id)
  ∧ length events' = length events.
Proof.
  intros (_ & -> & ->)%Event_save_Some.
  destruct (hooks_fields rt event) as (Hid & _ & _ & _ & _ & _ & _ & Hcriteria & Hcode).
  cbv zeta in *. split_and!; [done| |done|done| | |].
  - rewrite Hcriteria. by destruct (decide (Event.criteria event = [])).
  - intros Hsome. rewrite <- Hid. apply Event_findById_replace. by rewrite Hid.
  - intros id Hne. apply Event_findById_replace_ne. by rewrite Hid.
  - apply Event_replace_length.
Qed.

Lemma Event_save_hooks_witness :
  ∃ saved events',
    Event_save Admin.rt [Scenario.event; withCriteria [] Scenario.juries]
      (withCriteria [] Scenario.juries) = Some (saved, events')
    ∧ Event.criteria saved = defaultCriteria
    ∧ Event_findById events' "e2" = Some saved.
Proof.
  eexists _, _. split; [reflexivity|].
  destruct (Event_save_hooks Admin.rt [Scenario.event; withCriteria [] Scenario.juries]
              (withCriteria [] Scenario.juries) _ _ eq_refl)
    as (Hcriteria & _ & _ & _ & Hfind & _).
  split; [exact Hcriteria | by apply Hfind; vm_compute; eauto].
Defined.

(** ** The manual override and vote intake *)

(** X19. Once [closeVoting] has answered 200, the event's status is
    [closed] whatever the time, and [submitVote] saves nothing for it:
    it answers 400 to a request that fails the route validation, 404 if
    the event is inactive, and 403 'Voting is not open for this event.'
    otherwise. *)
Theorem closeVoting_closes_intake rt events id user env store req :
  Reply.status (closeVoting rt events id user).1 = 200%nat →
  VoteRequest.eventId req = id →
  (∃ event, Event_findById (closeVoting rt events id user).2 id = Some event
            ∧ votingStatus env event = closed)
  ∧ (submitVote env (closeVoting rt events id user).2 store req).2 = store
  ∧ (submitVote env (closeVoting rt events id user).2 store req).1
    ∈ [failure 400 ValidationErrors; failure 404 EventNotFoundOrInactive;
       failure 403 VotingNotOpen].
Proof.
  unfold closeVoting.
  destruct (ownedEvent events id user _) as [reply|event] eqn:Howned.
  { intros Hstatus. by apply ownedEvent_inl in Howned. }
  destruct (Event_save rt events _) as [[saved events']|] eqn:Hsave; [|done].
  intros _ Hreq. simpl.
  destruct (saved_lookup rt events id user _ event
              (withIsVotingOpen (Some false) event) saved events' Howned Hsave eq_refl)
    as (Hsaved & Hfind & _).
  destruct (hooks_fields rt (withIsVotingOpen (Some false) event))
    as (_ & _ & _ & Hopen & _).
  cbv zeta in Hopen. rewrite <- Hsaved in Hopen. simpl in Hopen.
  assert (votingOpen env saved = false) as Hclosed.
  { unfold votingOpen. by rewrite Hopen. }
  split; [|unfold submitVote; rewrite Hreq, Hfind, Hclosed; simpl; split].
  - exists saved. split; [done|]. unfold votingStatus. by rewrite Hopen.
  - by repeat case_match.
  - repeat case_match; simpl;
      repeat first [apply list_elem_of_here | apply list_elem_of_further].
Qed.

Lemma closeVoting_closes_intake_witness :
  (submitVote Scenario.env (closeVoting Admin.rt [Scenario.event] "e1" "u1").2 []
     Scenario.oneEach).1
  ∈ [failure 400 ValidationErrors; failure 404 EventNotFoundOrInactive;
     failure 403 VotingNotOpen].
Proof.
  by apply closeVoting_closes_intake.
Defined.

(** X20. Once [openVoting] has answered 200, the event's status is [open]
    whatever the time and the schedule, and [submitVote] takes a request
    that passes the route validation to the loop over its votes, provided
    the event is active. *)
Theorem openVoting_opens_intake rt events id user env store req :
  Reply.status (openVoting rt events id user).1 = 200%nat →
  VoteRequest.eventId req = id →
  ∃ event,
    Event_findById (openVoting rt events id user).2 id = Some event
    ∧ votingStatus env event = open
    ∧ (voteValidation req = true → Event.isActive event = true →
       submitVote env (openVoting rt events id user).2 store req
       = processVotes event req (uuidv4 env) store [] (VoteRequest.votes req)).
Proof.
  unfold openVoting.
  destruct (ownedEvent events id user _) as [reply|event] eqn:Howned.
  { intros Hstatus. by apply ownedEvent_inl in Howned. }
  destruct (Event_save rt events _) as [[saved events']|] eqn:Hsave; [|done].
  intros _ Hreq. simpl.
  destruct (saved_lookup rt events id user _ event
              (withIsVotingOpen (Some true) event) saved events' Howned Hsave eq_refl)
    as (Hsaved & Hfind & _).
  destruct (hooks_fields rt (withIsVotingOpen (Some true) event))
    as (_ & _ & _ & Hopen & _).
  cbv zeta in Hopen. rewrite <- Hsaved in Hopen. simpl in Hopen.
  exists saved. split_and!; [done| |].
  - unfold votingStatus. by rewrite Hopen.
  - intros Hvalid Hactive. apply submitVote_through. split_and!; [done| |done|].
    + by rewrite Hreq.
    + unfold votingOpen. by rewrite Hopen.
Qed.

Lemma openVoting_opens_intake_witness :
  ∃ event,
    Event_findById (openVoting Admin.rt [Scenario.lateStart] "e3" "u1").2 "e3"
    = Some event
    ∧ votingStatus Scenario.env event = open.
Proof.
  destruct (openVoting_opens_intake Admin.rt [Scenario.lateStart] "e3" "u1"
              Scenario.env [] (VoteRequest.mk "e3" [] None None) eq_refl eq_refl)
    as (event & Hfind & Hopen & _).
  by exists event.
Defined.

(** ** Criteria *)

Lemma delete_nil_length {A} (l : list A) i :
  (i < length l)%nat → delete i l = [] ↔ length l = 1%nat.
Proof.
  intros Hi. split.
  - intros Hnil. apply (f_equal length) in Hnil.
    rewrite length_delete in Hnil by (by apply lookup_lt_is_Some). simpl in Hnil. lia.
  - destruct l as [|x [|y l]]; simpl; try lia. intros _.
    destruct i; [done | simpl in Hi; lia].
Qed.

(** X21. When [removeCriteria] answers 200, the index names a criterion
    of the event, which is the one the answer returns, and the stored
    event is left with the other criteria in their order; but an event
    whose only criterion is removed gets the three default criteria. *)
Theorem removeCriteria_restores_defaults rt events id user index :
  Reply.status (removeCriteria rt events id user index).1 = 200%nat →
  ∃ event i removed saved,
    Event_findById events id = Some event
    ∧ index = Some (Z.of_nat i)
    ∧ Event.criteria event !! i = Some removed
    ∧ Reply.data (removeCriteria rt events id user index).1
      = Reply.CriterionDoc removed
    ∧ Event_findById (removeCriteria rt events id user index).2 id = Some saved
    ∧ Event.criteria saved
      = (if decide (length (Event.criteria event) = 1%nat) then defaultCriteria
         else delete i (Event.criteria event)).
Proof.
  unfold removeCriteria.
  destruct (ownedEvent events id user _) as [reply|event] eqn:Howned.
  { intros Hstatus. by apply ownedEvent_inl in Howned. }
  destruct index as [z|]; [|done].
  destruct ((z <? 0)%Z || _) eqn:Hrange; [done|].
  apply orb_false_iff in Hrange as [Hlo%Z.ltb_ge Hhi%Z.leb_gt].
  destruct (Event_save rt events _) as [[saved events']|] eqn:Hsave; [|done].
  intros _. simpl.
  destruct (saved_lookup rt events id user _ event _ saved events' Howned Hsave eq_refl)
    as (Hsaved & Hfind & _).
  assert (Z.to_nat z < length (Event.criteria event))%nat as Hlt by lia.
  destruct (lookup_lt_is_Some_2 _ _ Hlt) as [removed Hremoved].
  exists event, (Z.to_nat z), removed, saved.
  apply ownedEvent_inr in Howned as (Hevent & _).
  split_and!; [done| |done| |done|].
  - by rewrite Z2Nat.id.
  - by rewrite Hremoved.
  - destruct (hooks_fields rt (withCriteria (delete (Z.to_nat z) (Event.criteria event))
                                 event)) as (_ & _ & _ & _ & _ & _ & _ & Hcriteria & _).
    cbv zeta in Hcriteria. rewrite <- Hsaved in Hcriteria. simpl in Hcriteria.
    rewrite Hcriteria.
    destruct (decide (delete _ _ = [])) as [Hnil|Hsome],
      (decide (length (Event.criteria event) = 1%nat)) as [Hone|Hmore]; try done.
    + by apply delete_nil_length in Hnil.
    + by apply (delete_nil_length _ (Z.to_nat z)) in Hone.
Qed.

Lemma removeCriteria_restores_defaults_witness :
  ∃ saved,
    Event_findById (removeCriteria Admin.rt [Admin.solo] "e1" "u1" (Some 0%Z)).2 "e1"
    = Some saved
    ∧ Event.criteria saved = defaultCriteria.
Proof.
  destruct (removeCriteria_restores_defaults Admin.rt [Admin.solo] "e1" "u1"
              (Some 0%Z) eq_refl)
    as (event & i & removed & saved & Hevent & _ & _ & _ & Hfind & Hcriteria).
  exists saved. split; [done|]. injection Hevent as <-. exact Hcriteria.
Defined.

Lemma Criteria_find_snoc_ne criteria criterion name :
  Criterion.name criterion ≠ name →
  Criteria_find (criteria ++ [criterion]) name = Criteria_find criteria name.
Proof.
  intros Hne. induction criteria as [|c criteria IH]; simpl.
  - by rewrite Criteria_find_cons, decide_False.
  - rewrite !Criteria_find_cons. by destruct (decide (Criterion.name c = name)).
Qed.

Lemma Criteria_find_shadowed criteria criterion name :
  Criterion.name criterion ∈ Criterion.name <$> criteria →
  Criteria_find (criteria ++ [criterion]) name = Criteria_find criteria name.
Proof.
  induction criteria as [|c criteria IH]; [by intros ?%elem_of_nil|].
  rewrite fmap_cons. intros Hin. simpl. rewrite !Criteria_find_cons.
  destruct (decide (Criterion.name c = name)) as [Hc|Hc]; [done|].
  apply elem_of_cons in Hin as [Heq|Hin]; [|by apply IH].
  apply Criteria_find_snoc_ne. by rewrite Heq.
Qed.

Lemma validateScores_ext criteria criteria' entries :
  (∀ name, Criteria_find criteria' name = Criteria_find criteria name) →
  validateScores criteria' entries = validateScores criteria entries.
Proof.
  intros Hfind. induction entries as [|[k s] entries IH]; simpl; [done|].
  by rewrite Hfind, IH.
Qed.

Lemma checkVote_sameForIntake e e' store req sid voteData :
  sameForIntake e e' →
  checkVote e' store req sid voteData = checkVote e store req sid voteData.
Proof.
  intros (_ & _ & _ & _ & _ & Hp & Hg & Hc). unfold checkVote. cbv zeta.
  rewrite Hp, Hg. repeat case_match; try done; rewrite (validateScores_ext _ _ _ Hc) in *;
    congruence.
Qed.

Lemma processVotes_sameForIntake e e' req sid store saved votes :
  sameForIntake e e' →
  processVotes e' req sid store saved votes = processVotes e req sid store saved votes.
Proof.
  intros Hsame. revert store saved.
  induction votes as [|d votes IH]; intros store saved; simpl; [done|].
  rewrite (checkVote_sameForIntake e e') by done.
  destruct (checkVote e store req sid d) as [r|vote]; [done|].
  by destruct (Vote_save store vote).
Qed.

Lemma submitVote_sameForIntake env events events' store req :
  (∀ id, Event_findById events' id = Event_findById events id
         ∨ ∃ e e', Event_findById events id = Some e
                   ∧ Event_findById events' id = Some e' ∧ sameForIntake e e') →
  submitVote env events' store req = submitVote env events store req.
Proof.
  intros Hevents. unfold submitVote.
  destruct (Hevents (VoteRequest.eventId req)) as [->|(e & e' & -> & -> & Hsame)];
    [done|].
  pose proof Hsame as (Hactive & Hopen & Hdate & Hstart & Hclose & _).
  assert (votingOpen env e' = votingOpen env e) as ->.
  { unfold votingOpen, windowStart, windowEnd.
    by rewrite Hopen, Hdate, Hstart, Hclose. }
  rewrite Hactive. repeat case_match; try done.
  by apply processVotes_sameForIntake.
Qed.

Lemma isInt_range lo hi z :
  isInt lo hi (IntValue z) = true ↔ (lo ≤ z ≤ hi)%Z.
Proof. simpl. by rewrite andb_true_iff, !Z.leb_le. Qed.

(** X22. When [addCriteria] answers 200, the criterion it appends holds
    the trimmed name and a maximum within 1..100 and is the one the
    answer returns.  If the event already has a criterion of that name,
    vote intake goes on as before for every request: the new maximum is
    never looked at. *)
Theorem addCriteria_shadowed_by_name rt events id user name maxScore :
  Reply.status (addCriteria rt events id user name maxScore).1 = 200%nat →
  ∃ event saved z,
    maxScore = IntValue z ∧ (1 ≤ z ≤ 100)%Z
    ∧ Event_findById events id = Some event
    ∧ Event_findById (addCriteria rt events id user name maxScore).2 id = Some saved
    ∧ Event.criteria saved
      = Event.criteria event ++ [Criterion.mk (trim rt name) (inject_Z z)]
    ∧ Reply.data (addCriteria rt events id user name maxScore).1
      = Reply.CriterionDoc (Criterion.mk (trim rt name) (inject_Z z))
    ∧ (trim rt name ∈ Criterion.name <$> Event.criteria event →
       ∀ env store req,
         submitVote env (addCriteria rt events id user name maxScore).2 store req
         = submitVote env events store req).
Proof.
  unfold addCriteria.
  destruct (criteriaValidation name maxScore) eqn:Hvalid; [|done]. simpl.
  apply andb_true_iff in Hvalid as [_ Hz].
  destruct (ownedEvent events id user _) as [reply|event] eqn:Howned.
  { intros Hstatus. by apply ownedEvent_inl in Howned. }
  destruct maxScore as [z|zs|]; [|by repeat case_match|done].
  apply isInt_range in Hz. simpl.
  destruct ((z <? 1)%Z || _) eqn:Hrange; [done|]. cbv zeta.
  destruct (Event_save rt events _) as [[saved events']|] eqn:Hsave; [|done].
  intros _. simpl.
  destruct (saved_lookup rt events id user _ event _ saved events' Howned Hsave eq_refl)
    as (Hsaved & Hfind & Hothers).
  destruct (hooks_fields rt (withCriteria (Event.criteria event
              ++ [Criterion.mk (trim rt name) (inject_Z z)]) event))
    as (_ & _ & Hactive & Hopen & [= Hdate Hstart Hclose] & Hgroups & Hprojects
        & Hcriteria & _).
  cbv zeta in *. rewrite <- Hsaved in *. simpl in *.
  rewrite decide_False in Hcriteria by (by intros []%app_eq_nil).
  apply ownedEvent_inr in Howned as (Hevent & _).
  exists event, saved, z. split_and!; try done; try lia.
  - by rewrite Hcriteria, last_snoc.
  - intros Hname env store req. apply submitVote_sameForIntake. intros id'.
    destruct (decide (id' = id)) as [->|Hne]; [|left; by apply Hothers].
    right. exists event, saved. split_and!; [done..|].
    unfold sameForIntake. split_and!; [done..|].
    intros k. rewrite Hcriteria. by apply Criteria_find_shadowed.
Qed.

Lemma addCriteria_shadowed_by_name_witness :
  submitVote Scenario.env
    (addCriteria Admin.rt [Scenario.event] "e1" "u1" "Creativity" (IntValue 50)).2
    [] Scenario.eleven
  = submitVote Scenario.env [Scenario.event] [] Scenario.eleven.
Proof.
  destruct (addCriteria_shadowed_by_name Admin.rt [Scenario.event] "e1" "u1"
              "Creativity" (IntValue 50) eq_refl)
    as (event & saved & z & _ & _ & Hevent & _ & _ & _ & Hsame).
  apply Hsame. injection Hevent as <-. apply (bool_decide_unpack _). by vm_compute.
Defined.

(** X23. The range check on [maxScore] in the body of [addCriteria]
    answers for one value only, the empty array, sent by the owner of the
    event with a name of 1 to 100 characters: the validation of the route
    checks an array element by element and so lets the empty one through,
    and as a number it is 0.  Every other value outside 1..100 has been
    refused by the validation before. *)
Theorem addCriteria_range_check rt events id user name maxScore :
  Reply.message (addCriteria rt events id user name maxScore).1
  = Some "Max score must be between 1 and 100"
  ↔ isLength 1 100 name = true ∧ maxScore = IntArray []
    ∧ ∃ event, Event_findById events id = Some event ∧ Event.owner event = user.
Proof.
  unfold addCriteria, criteriaValidation. split.
  - destruct (isLength 1 100 name); [|done].
    destruct (isInt 1 100 maxScore) eqn:Hvalid; [|done]. simpl.
    destruct (ownedEvent events id user _) as [reply|event] eqn:Howned.
    { unfold ownedEvent in Howned. repeat case_match; try done;
        by injection Howned as <-. }
    apply ownedEvent_inr in Howned as (Hevent & _ & Howner).
    destruct maxScore as [z|[|z [|z' zs]]|]; simpl in *; try done.
    + apply andb_true_iff in Hvalid as [?%Z.leb_le ?%Z.leb_le].
      replace ((z <? 1)%Z || (100 <? z)%Z) with false by lia.
      cbv zeta. by repeat case_match.
    + intros _. split_and!; [done..|]. by exists event.
    + rewrite andb_true_r in Hvalid.
      apply andb_true_iff in Hvalid as [?%Z.leb_le ?%Z.leb_le].
      by replace ((z <? 1)%Z || (100 <? z)%Z) with false by lia.
  - intros (-> & -> & event & Hevent & Howner). simpl.
    unfold ownedEvent. rewrite Hevent.
    by rewrite bool_decide_false by (by intros []).
Qed.

Lemma addCriteria_range_check_witness :
  Reply.message
    (addCriteria Admin.rt [Scenario.event] "e1" "u1" "Originality" (IntArray [])).1
  = Some "Max score must be between 1 and 100".
Proof.
  apply addCriteria_range_check. split_and!; [done..|]. by exists Scenario.event.
Defined.

(** ** Groups and projects *)

Lemma filter_filter_comm {A} (P Q : A → Prop) `{!∀ x, Decision (P x)}
    `{!∀ x, Decision (Q x)} (l : list A) :
  filter P (filter Q l) = filter Q (filter P l).
Proof.
  induction l as [|x l IH]; [done|].
  rewrite !filter_cons.
  destruct (decide (P x)), (decide (Q x)); rewrite ?filter_cons;
    rewrite ?decide_True, ?decide_False by done; by rewrite IH.
Qed.

Lemma filter_ext_in {A} (P Q : A → Prop) `{!∀ x, Decision (P x)}
    `{!∀ x, Decision (Q x)} (l : list A) :
  (∀ x, x ∈ l → P x ↔ Q x) → filter P l = filter Q l.
Proof.
  induction l as [|x l IH]; intros Hl; [done|].
  rewrite !filter_cons.
  assert (filter P l = filter Q l) as ->.
  { apply IH. intros y Hy. apply Hl. by apply list_elem_of_further. }
  pose proof (Hl x (list_elem_of_here _ _)) as Hx.
  destruct (decide (P x)) as [HP|HP], (decide (Q x)) as [HQ|HQ]; try done;
    exfalso; tauto.
Qed.

Lemma filter_and_split {A} (P Q R : A → Prop) `{!∀ x, Decision (P x)}
    `{!∀ x, Decision (Q x)} `{!∀ x, Decision (R x)} (l : list A) :
  (∀ x, P x ↔ Q x ∧ R x) → filter P l = filter Q (filter R l).
Proof.
  intros HP. induction l as [|x l IH]; [done|].
  rewrite !filter_cons, IH.
  destruct (decide (P x)) as [Hx|Hx], (decide (R x)) as [Hr|Hr];
    rewrite ?filter_cons; try destruct (decide (Q x)) as [Hq|Hq]; try done;
    exfalso; specialize (HP x); tauto.
Qed.

Lemma elem_of_ids_filter {A} (_id : A → string) (l : list A) (removed id : string) :
  id ∈ _id <$> filter (λ x, _id x ≠ removed) l ↔ id ∈ _id <$> l ∧ id ≠ removed.
Proof.
  rewrite !list_elem_of_fmap. split.
  - intros (x & -> & [Hne Hx]%list_elem_of_filter). split; [by exists x | done].
  - intros [(x & -> & Hx) Hne]. exists x. split; [done|]. by apply list_elem_of_filter.
Qed.

(** X24. When [removeGroup] answers 200, the event has lost the group and
    the collection every vote cast in that group for the event, and
    nothing else: the votes of other events stay, and those of the
    event's other groups are counted by the aggregator as before. *)
Theorem removeGroup_deletes_votes rt events store id user groupId :
  Reply.status (removeGroup rt events store id user groupId).1.1 = 200%nat →
  ∃ event saved,
    Event_findById events id = Some event
    ∧ Event_findById (removeGroup rt events store id user groupId).1.2 id
      = Some saved
    ∧ Event.groups saved = filter (λ g, Group._id g ≠ groupId) (Event.groups event)
    ∧ Event.projects saved = Event.projects event
    ∧ Vote_find (removeGroup rt events store id user groupId).2 id
      = filter (λ v, Vote.group v ≠ groupId) (Vote_find store id)
    ∧ (∀ id', id' ≠ id →
         Vote_find (removeGroup rt events store id user groupId).2 id'
         = Vote_find store id')
    ∧ countedVotes saved (Vote_find (removeGroup rt events store id user groupId).2 id)
      = filter (λ v, Vote.group v ≠ groupId) (countedVotes event (Vote_find store id)).
Proof.
  unfold removeGroup.
  destruct (ownedEvent events id user _) as [reply|event] eqn:Howned.
  { intros Hstatus. by apply ownedEvent_inl in Howned. }
  cbv zeta.
  destruct (Event_save rt events _) as [[saved events']|] eqn:Hsave; [|done].
  intros _. simpl.
  destruct (saved_lookup rt events id user _ event _ saved events' Howned Hsave eq_refl)
    as (Hsaved & Hfind & _).
  destruct (hooks_fields rt (withGroups (filter (λ g, Group._id g ≠ groupId)
                                           (Event.groups event)) event))
    as (_ & _ & _ & _ & _ & Hgroups & Hprojects & _).
  cbv zeta in *. rewrite <- Hsaved in *. simpl in *.
  apply ownedEvent_inr in Howned as (Hevent & Hid & _).
  assert (Vote_find (Vote_deleteMany store (Event._id event) groupId) id
          = filter (λ v, Vote.group v ≠ groupId) (Vote_find store id)) as Hvotes.
  { unfold Vote_find, Vote_deleteMany. rewrite filter_filter_comm.
    apply filter_ext_in. intros v [Hv _]%list_elem_of_filter. rewrite Hid. tauto. }
  exists event, saved. split_and!; [done..| |].
  - intros id' Hne. unfold Vote_find, Vote_deleteMany. rewrite filter_filter_comm.
    apply filter_all, Forall_forall. intros v [Hv _]%list_elem_of_filter.
    rewrite Hid. intros [? _]. congruence.
  - rewrite Hvotes. unfold countedVotes.
    rewrite (filter_filter_comm (λ v, Vote.group v ≠ groupId) (counted event)).
    apply filter_ext_in. intros v [Hv _]%list_elem_of_filter.
    unfold counted. rewrite Hgroups, Hprojects, elem_of_ids_filter. tauto.
Qed.

Lemma removeGroup_deletes_votes_witness :
  Vote_find (removeGroup Admin.rt [Scenario.event] Scenario.votes "e1" "u1" "g2").2 "e1"
  = filter (λ v, Vote.group v ≠ "g2") (Vote_find Scenario.votes "e1").
Proof.
  destruct (removeGroup_deletes_votes Admin.rt [Scenario.event] Scenario.votes
              "e1" "u1" "g2" eq_refl)
    as (event & saved & _ & _ & _ & _ & Hvotes & _).
  exact Hvotes.
Defined.

(** X25. [removeProject] leaves the votes on the project in the
    collection.  When it has answered 200, [getResults] still counts them
    in [totalVotes] and [totalVoters], while the results are those of the
    remaining votes: the aggregator passes the votes on the removed
    project over. *)
Theorem removeProject_orphans_votes rt events store id user projectId :
  Reply.status (removeProject rt events id user projectId).1 = 200%nat →
  ∃ event saved,
    Event_findById events id = Some event
    ∧ Event.projects saved
      = filter (λ p, Project._id p ≠ projectId) (Event.projects event)
    ∧ Event.groups saved = Event.groups event
    ∧ countedVotes saved (Vote_find store id)
      = filter (λ v, Vote.project v ≠ projectId)
          (countedVotes event (Vote_find store id))
    ∧ getResults (removeProject rt events id user projectId).2 store id user
      = mkResponse 200 true None
          (Some (ResultsData (privateSummary saved)
                   (calculateResults saved
                      (filter (λ v, Vote.project v ≠ projectId) (Vote_find store id))
                      None)
                   (length (Vote_find store id)) (totalVoters (Vote_find store id)))).
Proof.
  unfold removeProject.
  destruct (ownedEvent events id user _) as [reply|event] eqn:Howned.
  { intros Hstatus. by apply ownedEvent_inl in Howned. }
  cbv zeta.
  destruct (Event_save rt events _) as [[saved events']|] eqn:Hsave; [|done].
  intros _. simpl.
  destruct (saved_lookup rt events id user _ event _ saved events' Howned Hsave eq_refl)
    as (Hsaved & Hfind & _).
  destruct (hooks_fields rt (withProjects (filter (λ p, Project._id p ≠ projectId)
                                             (Event.projects event)) event))
    as (_ & Howner & _ & _ & _ & Hgroups & Hprojects & _).
  cbv zeta in *. rewrite <- Hsaved in *. simpl in *.
  apply ownedEvent_inr in Howned as (Hevent & Hid & Huser).
  assert (∀ votes, countedVotes saved votes
                   = filter (λ v, Vote.project v ≠ projectId) (countedVotes event votes))
    as Hcounted.
  { intros votes. unfold countedVotes. apply filter_and_split. intros v.
    unfold counted. rewrite Hgroups, Hprojects, elem_of_ids_filter. tauto. }
  exists event, saved. split_and!; [done..|].
  unfold getResults. rewrite Hfind, Howner, Huser.
  rewrite bool_decide_false by (by intros ?). cbv zeta. do 3 f_equal.
  apply calculateResults_tally.
  rewrite (tally_counted saved), (tally_counted saved (filter _ _)).
  f_equal. unfold countedVotes. apply filter_and_split. intros v.
  unfold counted. rewrite Hgroups, Hprojects, elem_of_ids_filter. tauto.
Qed.

Lemma removeProject_orphans_votes_witness :
  ∃ summary results,
    getResults (removeProject Admin.rt [Scenario.event] "e1" "u1" "p1").2
      Scenario.votes "e1" "u1"
    = mkResponse 200 true None (Some (ResultsData summary results 2 2)).
Proof.
  destruct (removeProject_orphans_votes Admin.rt [Scenario.event] Scenario.votes
              "e1" "u1" "p1" eq_refl)
    as (event & saved & _ & _ & _ & _ & Hresults).
  eexists _, _. exact Hresults.
Defined.

(** ** A stored weight and an override *)

Lemma fill_pairs {A V} (k : A → string) (v : A → V) (l : list A) (o : JS.obj V) :
  fold_left (λ o x, JS.set (k x) (v x) o) l o
  = fold_left (λ o kv, JS.set kv.1 kv.2 o) ((λ x, (k x, v x)) <$> l) o.
Proof. by rewrite fold_left_fmap'. Qed.

Lemma Groups_setWeight_same {B} (h : Group.t → B) groups groupId weight :
  (∀ g, h (Group.mk (Group._id g) (Group.name g) weight (Group.password g)) = h g) →
  h <$> Groups_setWeight groups groupId weight = h <$> groups.
Proof.
  intros Hh. induction groups as [|g groups IH]; simpl; [done|].
  destruct (decide (Group._id g = groupId)); csimpl; [by rewrite Hh | by rewrite IH].
Qed.

Lemma Groups_setWeight_override groups groupId weight :
  NoDup (Group._id <$> groups) →
  (λ g, (Group._id g, newGroupResult None g)) <$> Groups_setWeight groups groupId weight
  = (λ g, (Group._id g, newGroupResult (Some [(groupId, weight)]) g)) <$> groups.
Proof.
  assert (∀ g, Group._id g ≠ groupId →
            newGroupResult (Some [(groupId, weight)]) g = newGroupResult None g)
    as Hother.
  { intros g Hne. unfold newGroupResult, effectiveWeight. simpl.
    by rewrite decide_False by congruence. }
  induction groups as [|g groups IH]; csimpl; [done|].
  intros [Hg Hnd]%NoDup_cons.
  destruct (decide (Group._id g = groupId)) as [Hid|Hid]; csimpl.
  - f_equal.
    + unfold newGroupResult, effectiveWeight. simpl. by rewrite decide_True.
    + apply list_fmap_ext. intros _ g' Hg'%list_elem_of_lookup_2.
      rewrite Hother; [done|]. intros Heq. apply Hg. rewrite Hid, <- Heq.
      by apply list_elem_of_fmap_2.
  - rewrite Hother by done. f_equal. by apply IH.
Qed.

Lemma initTally_setWeight event groupId weight :
  NoDup (Group._id <$> Event.groups event) →
  initTally (withGroups (Groups_setWeight (Event.groups event) groupId weight) event)
    None
  = initTally event (Some [(groupId, weight)]).
Proof.
  intros Hnd. unfold initTally. cbv zeta.
  assert (initGroupResults None
            (withGroups (Groups_setWeight (Event.groups event) groupId weight) event)
          = initGroupResults (Some [(groupId, weight)]) event) as ->.
  { unfold initGroupResults. simpl.
    rewrite (fill_pairs Group._id (newGroupResult None)).
    rewrite (fill_pairs Group._id (newGroupResult (Some [(groupId, weight)]))).
    by rewrite Groups_setWeight_override. }
  f_equal.
  - unfold initGroupIdToName. simpl.
    rewrite (fill_pairs Group._id Group.name (Groups_setWeight _ _ _)).
    rewrite (fill_pairs Group._id Group.name (Event.groups event)).
    by rewrite (Groups_setWeight_same (λ g, (Group._id g, Group.name g))).
  - unfold initGroupVoters. simpl.
    rewrite (fill_pairs Group._id (λ _, ∅ : gset string) (Groups_setWeight _ _ _)).
    rewrite (fill_pairs Group._id (λ _, ∅ : gset string) (Event.groups event)).
    by rewrite (Groups_setWeight_same (λ g, (Group._id g, ∅ : gset string))).
Qed.

(** X26. A weight that [updateGroupWeight] has stored (it is an integer
    within 0..100) acts on the results as the same weight passed as an
    override for that group acts on the results of the event as it was,
    the group ids of an event being distinct. *)
Theorem updateGroupWeight_as_override rt events id user groupId weight :
  Reply.status (updateGroupWeight rt events id user groupId weight).1 = 200%nat →
  ∃ event saved z,
    weight = IntValue z ∧ (0 ≤ z ≤ 100)%Z
    ∧ Event_findById events id = Some event
    ∧ Event_findById (updateGroupWeight rt events id user groupId weight).2 id
      = Some saved
    ∧ (NoDup (Group._id <$> Event.groups event) →
       ∀ votes,
         calculateResults saved votes None
         = calculateResults event votes (Some [(groupId, inject_Z z)])).
Proof.
  unfold updateGroupWeight.
  destruct (isInt 0 100 weight) eqn:Hvalid; [|done]. simpl.
  destruct (ownedEvent events id user _) as [reply|event] eqn:Howned.
  { intros Hstatus. by apply ownedEvent_inl in Howned. }
  destruct (Groups_id (Event.groups event) groupId) as [group|]; [|done].
  destruct weight as [z|zs|]; [|done..].
  apply isInt_range in Hvalid as Hz. cbv zeta.
  destruct (Event_save rt events _) as [[saved events']|] eqn:Hsave; [|done].
  intros _. simpl.
  destruct (saved_lookup rt events id user _ event _ saved events' Howned Hsave eq_refl)
    as (Hsaved & Hfind & _).
  apply ownedEvent_inr in Howned as (Hevent & _).
  exists event, saved, z. split_and!; try done; try lia.
  intros Hnd votes.
  assert (initTally saved None = initTally event (Some [(groupId, inject_Z z)]))
    as Hinit.
  { rewrite <- (initTally_setWeight event groupId (inject_Z z) Hnd).
    destruct (hooks_fields rt (withGroups (Groups_setWeight (Event.groups event)
                                             groupId (inject_Z z)) event))
      as (_ & _ & _ & _ & _ & Hgroups & Hprojects & _).
    cbv zeta in *. rewrite <- Hsaved in *.
    unfold initTally, initProjectResults, initGroupResults, initGroupIdToName,
      initGroupVoters. cbv zeta. by rewrite Hgroups, Hprojects. }
  unfold calculateResults, projectTotals, groupTotals, tally. by rewrite Hinit.
Qed.

Lemma updateGroupWeight_as_override_witness :
  ∃ saved,
    Event_findById
      (updateGroupWeight Admin.rt [Scenario.event] "e1" "u1" "g2" (IntValue 55)).2 "e1"
    = Some saved
    ∧ calculateResults saved Scenario.votes None
      = calculateResults Scenario.event Scenario.votes (Some [("g2", inject_Z 55)]).
Proof.
  destruct (updateGroupWeight_as_override Admin.rt [Scenario.event] "e1" "u1" "g2"
              (IntValue 55) eq_refl)
    as (event & saved & z & Hz & _ & Hevent & Hfind & Hsame).
  exists saved. split; [done|]. injection Hevent as <-. injection Hz as <-.
  apply Hsame. apply (bool_decide_unpack _). by vm_compute.
Defined.

(** ** The password of a group *)

(** X27. When [validateGroupPassword] answers 200 with [isValid], the
    password gate of [submitVote] agrees with it: for an entry of that
    group (whose project exists) in a request that carries the password,
    [submitVote] refuses the entry with 403 'Invalid group password'
    exactly when [isValid] is false. *)
Theorem validateGroupPassword_agrees rt events voteCode groupId password isValid :
  Reply.data (validateGroupPassword rt events voteCode groupId password)
  = Reply.IsValid isValid →
  ∃ event,
    Event_findActiveByCode events (toUpperCase rt voteCode) = Some event
    ∧ ∀ store req sid voteData,
        VoteData.groupId voteData = groupId →
        VoteRequest.groupPassword req = Some password →
        is_Some (Projects_id (Event.projects event) (VoteData.projectId voteData)) →
        checkVote event store req sid voteData = inl (failure 403 InvalidGroupPassword)
        ↔ isValid = false.
Proof.
  unfold validateGroupPassword.
  destruct (bool_decide (groupId = EmptyString) || _); [done|].
  destruct (Event_findActiveByCode events _) as [event|]; [|done].
  destruct (Groups_id (Event.groups event) groupId) as [group|] eqn:Hgroup; [|done].
  destruct (passwordRequired group) eqn:Hrequired; [|done]. simpl.
  intros [= <-]. exists event. split; [done|].
  intros store req sid voteData Hid Hpassword [project Hproject].
  unfold checkVote. cbv zeta. rewrite Hproject, Hid, Hgroup, Hrequired, Hpassword.
  simpl. destruct (decide (Group.password group = Some password)) as [Hpw|Hpw].
  - rewrite (bool_decide_true (Group.password group = Some password)) by done.
    rewrite (bool_decide_false (Group.password group ≠ Some password))
      by (intros Hne; by apply Hne).
    split; [|done]. intros Hcheck. repeat case_match; by simplify_eq.
  - rewrite (bool_decide_false (Group.password group = Some password)) by done.
    by rewrite (bool_decide_true (Group.password group ≠ Some password)) by done.
Qed.

Lemma validateGroupPassword_agrees_witness :
  checkVote Scenario.event []
    (VoteRequest.mk "e1" [Scenario.ballot "p1" "g2" []] None (Some "guess"))
    "s1" (Scenario.ballot "p1" "g2" [])
  = inl (failure 403 InvalidGroupPassword).
Proof.
  destruct (validateGroupPassword_agrees Admin.rt [Scenario.event] "ABC123" "g2"
              "guess" false eq_refl)
    as (event & Hevent & Hgate).
  injection Hevent as <-. by apply Hgate; [..|eexists|].
Defined.

(** * Further properties: what the results and the window depend on *)

(** X28. The aggregator reads nothing of an event but its projects and
    its groups: two events that agree in these give the same results.
    So the criteria, which vote intake checks the scores against, have no
    part in the results, and scores stored under a criterion that has
    since been removed still count. *)
Theorem results_depend_on_projects_and_groups ev ev' votes groupWeights :
  Event.projects ev' = Event.projects ev →
  Event.groups ev' = Event.groups ev →
  calculateResults ev' votes groupWeights = calculateResults ev votes groupWeights.
Proof.
  intros Hprojects Hgroups.
  assert (initTally ev' groupWeights = initTally ev groupWeights) as Hinit.
  { unfold initTally, initProjectResults, initGroupResults, initGroupIdToName,
      initGroupVoters. cbv zeta. by rewrite Hprojects, Hgroups. }
  unfold calculateResults, projectTotals, groupTotals, tally. by rewrite Hinit.
Qed.

Lemma results_depend_on_projects_and_groups_witness :
  calculateResults Admin.solo Scenario.votes None
  = calculateResults Scenario.event Scenario.votes None.
Proof. by apply results_depend_on_projects_and_groups. Defined.

(** X29. For the owner of an active event, the public endpoint without a
    weights parameter reports the same results and the same totals as the
    private one; the two answers differ in the summary of the event
    only. *)
Theorem public_results_agree events store eventId user event :
  Event_findById events eventId = Some event →
  Event.owner event = user →
  Event.isActive event = true →
  ∃ results totalVotes totalVoters,
    getResults events store eventId user
    = mkResponse 200 true None
        (Some (ResultsData (privateSummary event) results totalVotes totalVoters))
    ∧ getPublicResults events store eventId NoWeights
      = mkResponse 200 true None
          (Some (ResultsData (publicSummary event) results totalVotes totalVoters)).
Proof.
  intros Hfind Howner Hactive. unfold getResults, getPublicResults.
  rewrite Hfind, Hactive, bool_decide_false by (by intros ?). simpl. eauto.
Qed.

Lemma public_results_agree_witness :
  ∃ results totalVotes totalVoters,
    getResults [Scenario.event] Scenario.votes "e1" "u1"
    = mkResponse 200 true None
        (Some (ResultsData (privateSummary Scenario.event) results totalVotes
                 totalVoters))
    ∧ getPublicResults [Scenario.event] Scenario.votes "e1" NoWeights
      = mkResponse 200 true None
          (Some (ResultsData (publicSummary Scenario.event) results totalVotes
                   totalVoters)).
Proof. by apply public_results_agree. Defined.

(** X30. Without a manual override, an event whose start does not parse
    as a date is [closed] at any time, and one whose end does not parse is
    never [open]: in both cases [submitVote] does not let a request
    through the gate on the voting window. *)
Theorem unparseable_window_never_open env ev :
  Event.isVotingOpen ev = None →
  (windowStart env ev = None → votingStatus env ev = closed)
  ∧ (windowEnd env ev = None → votingStatus env ev ∈ [upcoming; closed])
  ∧ (windowStart env ev = None ∨ windowEnd env ev = None →
     votingOpen env ev = false).
Proof.
  intros Hauto. unfold votingStatus, votingOpen. cbv zeta. rewrite Hauto.
  split_and!.
  - by intros ->.
  - intros ->. unfold Date_ge, Date_le.
    destruct (Date_lt _ _); [apply list_elem_of_here|].
    rewrite andb_false_r. apply list_elem_of_further, list_elem_of_here.
  - unfold Date_ge, Date_le. intros [-> | ->]; [done|]. apply andb_false_r.
Qed.

Lemma unparseable_window_never_open_witness :
  votingStatus Scenario.env Admin.nineAm = closed
  ∧ votingOpen Scenario.env Admin.nineAm = false.
Proof.
  destruct (unparseable_window_never_open Scenario.env Admin.nineAm eq_refl)
    as (Hclosed & _ & Hshut).
  split; [by apply Hclosed | apply Hshut; by left].
Defined.
